(** * tjson: a shallow embedding of [tjson.cpp]

    The escaper, the regex tokenizer, the recursive-descent reader, the
    [Val] tree with its accessors, the writer and the conversion of a
    scalar to a number, followed by the properties proved about them. *)

From Stdlib Require Import Ascii String DecimalString.
From Stdlib Require Import List Bool Arith Lia NArith ZArith Sorted.
From Stdlib Require PrimFloat SpecFloat FloatOps.
Import ListNotations.

Set Implicit Arguments.

(** ** Characters and [std::string] *)

(** A [std::string] is a sequence of bytes. *)
Definition str : Type := list ascii.

Definition dquote : ascii := "034"%char.
Definition backslash : ascii := "092"%char.
Definition newline : ascii := "010"%char.
Definition carriage : ascii := "013"%char.
Definition tab : ascii := "009"%char.
Definition space : ascii := "032"%char.

(** A C string literal. *)
Definition lit (s : string) : str := list_ascii_of_string s.

(** A literal in which the apostrophe stands for the double quote. *)
Definition jlit (s : string) : str :=
  map (fun c => if Ascii.eqb c "039"%char then dquote else c) (lit s).

(** ** Escaper *)

(** [escape]: the loop body appends a backslash before a quote or a
    backslash, then the character. *)
Fixpoint escape_body (in_ : str) : str :=
  match in_ with
  | [] => []
  | c :: rest =>
      (if Ascii.eqb c dquote || Ascii.eqb c backslash then [backslash] else [])
        ++ c :: escape_body rest
  end.

Definition escape (in_ : str) : str :=
  dquote :: escape_body in_ ++ [dquote].

(** The characters strictly between the first and the last one:
    the range [in.c_str() + 1 .. in.c_str() + in.size() - 1). *)
Definition interior (in_ : str) : str := removelast (tl in_).

(** The [for] loop of [unescape], with its two locals. *)
Fixpoint unescape_loop (itr : str) (in_escape : bool) (wip : str) : bool * str :=
  match itr with
  | [] => (in_escape, wip)
  | c :: itr' =>
      if negb in_escape && Ascii.eqb c backslash
      then unescape_loop itr' true wip
      else unescape_loop itr' false (wip ++ [c])
  end.

(** [unescape in out] returns the boolean result and the final content of
    [*out], which is left alone on failure. *)
Definition unescape (in_ : str) (out : str) : bool * str :=
  if length in_ <? 2 then (false, out)
  else if negb (Ascii.eqb (nth 0 in_ zero) dquote)
          || negb (Ascii.eqb (nth (length in_ - 1) in_ zero) dquote)
  then (false, out)
  else
    let '(in_escape, wip) := unescape_loop (interior in_) false [] in
    if in_escape then (false, out) else (true, wip).

(** What the specification says of [unescape]: the text between the quotes
    is read unit by unit, a unit being a backslash with the character after
    it (which is kept) or a plain character; a backslash with nothing after
    it is a dangling escape. *)
Fixpoint strip_escapes (s : str) : option str :=
  match s with
  | [] => Some []
  | c :: rest =>
      if Ascii.eqb c backslash then
        match rest with
        | [] => None
        | d :: rest' => option_map (cons d) (strip_escapes rest')
        end
      else option_map (cons c) (strip_escapes rest)
  end.

(** Number of backslashes at the very end of a text. *)
Fixpoint trailing_backslashes_rev (r : str) : nat :=
  match r with
  | c :: r' => if Ascii.eqb c backslash then S (trailing_backslashes_rev r') else 0
  | [] => 0
  end.

Definition trailing_backslashes (s : str) : nat :=
  trailing_backslashes_rev (rev s).

(** The closing quote is itself escaped: an odd run of backslashes stands
    immediately before it. *)
Definition dangling_backslash (s : str) : Prop :=
  Nat.odd (trailing_backslashes s) = true.

Definition quoted (in_ : str) : Prop :=
  exists body, in_ = dquote :: body ++ [dquote].

(** ** Tokens *)

Inductive TokenType : Type :=
| MALFORMED
| WHITESPACE
| STRING
| WORD
| SYMBOL.

Definition TokenType_eqb (a b : TokenType) : bool :=
  match a, b with
  | MALFORMED, MALFORMED | WHITESPACE, WHITESPACE | STRING, STRING
  | WORD, WORD | SYMBOL, SYMBOL => true
  | _, _ => false
  end.

(** 64-bit unsigned counters ([uint64_t]). *)
Definition u64_succ (x : N) : N := ((x + 1) mod 2 ^ 64)%N.

(** A [Token]: [span] is the text of the range [begin, end). *)
Record Token : Type := mkToken {
  span : str;
  line_num : N;
  line_pos : N;
  type : TokenType
}.

Fixpoint str_eqb (a b : str) : bool :=
  match a, b with
  | [], [] => true
  | x :: a', y :: b' => Ascii.eqb x y && str_eqb a' b'
  | _, _ => false
  end.

(** [Token::operator==] against a C string: equal length and equal
    content. *)
Definition tok_eq (t : Token) (r : str) : bool := str_eqb (span t) r.

(** [Token::str()]. *)
Definition tok_str (t : Token) : str := span t.

(** ** The four regular expressions

    A regular expression is used only through
    [regex_search(begin, end, res, regex, match_continuous)] followed by
    [res.length()]: it is embedded as the function that gives the length of
    the match anchored at the start of the range, if there is one. *)

Definition is_ws (c : ascii) : bool :=
  Ascii.eqb c space || Ascii.eqb c tab || Ascii.eqb c newline || Ascii.eqb c carriage.

Definition in_range (lo hi : N) (c : ascii) : bool :=
  (lo <=? N_of_ascii c)%N && (N_of_ascii c <=? hi)%N.

(** The class [[A-Za-z0-9_+\-.]]. *)
Definition is_word (c : ascii) : bool :=
  in_range 65 90 c || in_range 97 122 c || in_range 48 57 c
  || Ascii.eqb c "_"%char || Ascii.eqb c "+"%char || Ascii.eqb c "-"%char
  || Ascii.eqb c "."%char.

(** The class [[{:,}\[\]]]. *)
Definition is_symbol (c : ascii) : bool :=
  Ascii.eqb c "{"%char || Ascii.eqb c ":"%char || Ascii.eqb c ","%char
  || Ascii.eqb c "}"%char || Ascii.eqb c "["%char || Ascii.eqb c "]"%char.

(** What [.] matches: every character but the line terminators. *)
Definition is_dot (c : ascii) : bool :=
  negb (Ascii.eqb c newline || Ascii.eqb c carriage).

(** Length of the longest prefix made of characters of a class. *)
Fixpoint span_len (p : ascii -> bool) (s : str) : nat :=
  match s with
  | c :: s' => if p c then S (span_len p s') else 0
  | [] => 0
  end.

(** A greedy [[class]+]: it cannot give a character back, nothing follows
    it in the expression. *)
Definition re_plus (p : ascii -> bool) (s : str) : option nat :=
  match span_len p s with
  | 0 => None
  | n => Some n
  end.

Definition RE_WHITESPACE : str -> option nat := re_plus is_ws.
Definition RE_WORD : str -> option nat := re_plus is_word.

Definition RE_SYMBOL (s : str) : option nat :=
  match s with
  | c :: _ => if is_symbol c then Some 1 else None
  | [] => None
  end.

(** After the opening quote of [RE_STRING]: the group repeats plain
    characters (neither quote nor backslash; the optional colons are such
    characters) and escapes (a backslash and a [.]); the match ends at the
    first quote found outside an escape. The result is the number of
    characters up to and including that quote. *)
Fixpoint re_string_body (s : str) : option nat :=
  match s with
  | [] => None
  | c :: s' =>
      if Ascii.eqb c dquote then Some 1
      else if Ascii.eqb c backslash then
        match s' with
        | d :: s'' =>
            if is_dot d then option_map (fun n => S (S n)) (re_string_body s'')
            else None
        | [] => None
        end
      else option_map S (re_string_body s')
  end.

Definition RE_STRING (s : str) : option nat :=
  match s with
  | c :: s' => if Ascii.eqb c dquote then option_map S (re_string_body s') else None
  | [] => None
  end.

Definition set_span (t : Token) (s : str) : Token :=
  mkToken s (line_num t) (line_pos t) (type t).

Definition set_type (t : Token) (ty : TokenType) : Token :=
  mkToken (span t) (line_num t) (line_pos t) ty.

(** [next_token_from_regex]: on a match, [out->end = out->begin + length]. *)
Definition next_token_from_regex (regex : str -> option nat) (out : Token)
  : bool * Token :=
  match regex (span out) with
  | None => (false, out)
  | Some len => (true, set_span out (firstn len (span out)))
  end.

(** ** [TokenGen] *)

(** The span of [meta_token_] is the input that is left; its type stays
    [MALFORMED]. *)
Record TokenGen : Type := mkTokenGen { meta_token_ : Token }.

Definition TokenGen_new (input : str) : TokenGen :=
  mkTokenGen (mkToken input 1 1 MALFORMED).

(** The loop of [Next] over the characters of the token. *)
Fixpoint advance (itr : str) (ln lp : N) : N * N :=
  match itr with
  | [] => (ln, lp)
  | c :: itr' =>
      let '(ln, lp) :=
        if Ascii.eqb c newline then (u64_succ ln, 0%N) else (ln, lp) in
      advance itr' ln (u64_succ lp)
  end.

Definition Next_classify (ret : Token) : Token :=
  let '(ok, r) := next_token_from_regex RE_WHITESPACE ret in
  if ok then set_type r WHITESPACE else
  let '(ok, r) := next_token_from_regex RE_STRING ret in
  if ok then set_type r STRING else
  let '(ok, r) := next_token_from_regex RE_WORD ret in
  if ok then set_type r WORD else
  let '(ok, r) := next_token_from_regex RE_SYMBOL ret in
  if ok then set_type r SYMBOL else r.

Definition Next (g : TokenGen) : Token * TokenGen :=
  let meta := meta_token_ g in
  let ret := Next_classify meta in
  let '(ln, lp) := advance (span ret) (line_num meta) (line_pos meta) in
  (ret, mkTokenGen (mkToken (skipn (length (span ret)) (span meta)) ln lp (type meta))).

(** [NextNonWS]: the [while (true)] loop, unrolled [fuel] times. One more
    turn than there are characters left is always enough. *)
Fixpoint NextNonWS_loop (fuel : nat) (g : TokenGen) : Token * TokenGen :=
  let '(ret, g') := Next g in
  if TokenType_eqb (type ret) WHITESPACE then
    match fuel with
    | S fuel' => NextNonWS_loop fuel' g'
    | 0 => (ret, g')
    end
  else (ret, g').

Definition NextNonWS (g : TokenGen) : Token * TokenGen :=
  NextNonWS_loop (S (length (span (meta_token_ g)))) g.

(** ** [Val] *)

(** The data members, in the order in which [Val::reset] clears them.
    An owning pointer to a child is embedded as the child: the reader only
    ever stores pointers to nodes, and the writer dereferences every one it
    meets.

    Modelled from the spec: the declaration of [dict_] is in the header.
    The specification allows an ordered associative structure; [dict_] is
    a [std::map], embedded as its entries in strictly increasing key order,
    which is the order in which the writer's range-for visits them. *)
#[local] Unset Elimination Schemes.
Inductive Val : Type := mkVal {
  dict_ : list (str * Val);
  is_dict_ : bool;
  list_ : list Val;
  is_list_ : bool;
  val_ : str
}.
#[local] Set Elimination Schemes.

(** [std::less<std::string>]: lexicographic on unsigned bytes. *)
Fixpoint str_ltb (a b : str) : bool :=
  match a, b with
  | [], [] => false
  | [], _ :: _ => true
  | _ :: _, [] => false
  | x :: a', y :: b' =>
      if (N_of_ascii x <? N_of_ascii y)%N then true
      else if (N_of_ascii y <? N_of_ascii x)%N then false
      else str_ltb a' b'
  end.

Section StdMap.
Variable A : Type.

(** [std::map::find]. *)
Fixpoint map_find (x : str) (d : list (str * A)) : option A :=
  match d with
  | [] => None
  | (k, w) :: d' =>
      if str_ltb k x then map_find x d'
      else if str_ltb x k then None
      else Some w
  end.

(** [dict_[x]] followed by a store through the reference it returns: the
    entry is created at its place in key order when it is missing. *)
Fixpoint map_set (x : str) (v : A) (d : list (str * A)) : list (str * A) :=
  match d with
  | [] => [(x, v)]
  | (k, w) :: d' =>
      if str_ltb x k then (x, v) :: d
      else if str_ltb k x then (k, w) :: map_set x v d'
      else (k, v) :: d'
  end.

(** Storing through a reference to the entry of [x]: the entry keeps its
    place, and there is nothing to store into when [x] has no entry. *)
Fixpoint map_update (x : str) (v : A) (d : list (str * A)) : list (str * A) :=
  match d with
  | [] => []
  | (k, w) :: d' =>
      if str_ltb k x then (k, w) :: map_update x v d'
      else if str_ltb x k then d
      else (k, v) :: d'
  end.

(** Storing through [list_[i]], for [i] below the size. *)
Fixpoint vec_set (i : nat) (v : A) (l : list A) {struct l} : list A :=
  match l, i with
  | [], _ => []
  | _ :: l', 0 => v :: l'
  | w :: l', S i' => w :: vec_set i' v l'
  end.
End StdMap.

(** Modelled from the spec: the default member initializers are in the
    header. A newly constructed node is an empty scalar. *)
Definition Val_new : Val := mkVal [] false [] false [].

(** [Val::INVALID], default-constructed. *)
Definition INVALID : Val := Val_new.

Definition reset (n : Val) : Val :=
  let n := mkVal [] (is_dict_ n) (list_ n) (is_list_ n) (val_ n) in
  let n := mkVal (dict_ n) false (list_ n) (is_list_ n) (val_ n) in
  let n := mkVal (dict_ n) (is_dict_ n) [] (is_list_ n) (val_ n) in
  let n := mkVal (dict_ n) (is_dict_ n) (list_ n) false (val_ n) in
  mkVal (dict_ n) (is_dict_ n) (list_ n) (is_list_ n) [].

(** Modelled from the spec: [set_dict] and [set_list] are inline in the
    header. The specification says of the source (section 9) that switching
    modes does not clear the storage of the other variants: each setter
    raises the flag of its mode and leaves the rest of the node alone. *)
Definition set_dict (n : Val) : Val :=
  mkVal (dict_ n) true (list_ n) (is_list_ n) (val_ n).

Definition set_list (n : Val) : Val :=
  mkVal (dict_ n) (is_dict_ n) (list_ n) true (val_ n).

(** Modelled from the spec: the accessors [is_dict], [is_list], [dict],
    [list] and [val] are inline in the header; they read the members
    ([dict_], [list_] and [val_] are used for the last three), and the
    mutable [val()] gives a reference to [val_]. *)
Definition is_dict (n : Val) : bool := is_dict_ n.
Definition is_list (n : Val) : bool := is_list_ n.

(** [n.val() = s]. *)
Definition val_assign (s : str) (n : Val) : Val :=
  mkVal (dict_ n) (is_dict_ n) (list_ n) (is_list_ n) s.

(** The [std::unique_ptr<Val>&] that a mutating accessor returns names a
    place inside the node. *)
Inductive Slot : Type :=
| DictSlot (x : str)
| ListSlot (i : nat).

(** The [const Val&] of a read-only accessor: the shared sentinel or a
    child. *)
Inductive Ref : Type :=
| RefInvalid
| RefChild (s : Slot).

Definition slot_get (s : Slot) (n : Val) : option Val :=
  match s with
  | DictSlot x => map_find x (dict_ n)
  | ListSlot i => nth_error (list_ n) i
  end.

(** [slot = std::move(v)]: the store goes through a reference to a place
    that an accessor made, it makes no place of its own. *)
Definition slot_assign (s : Slot) (v : Val) (n : Val) : Val :=
  match s with
  | DictSlot x =>
      mkVal (map_update x v (dict_ n)) (is_dict_ n) (list_ n) (is_list_ n) (val_ n)
  | ListSlot i =>
      mkVal (dict_ n) (is_dict_ n) (vec_set i v (list_ n)) (is_list_ n) (val_ n)
  end.

Definition deref (r : Ref) (n : Val) : Val :=
  match r with
  | RefInvalid => INVALID
  | RefChild s => match slot_get s n with Some v => v | None => INVALID end
  end.

(** Methods take the node and give their result with the node afterwards. *)

(** [Val::operator[](const std::string&) const]. *)
Definition index_key_const (x : str) (n : Val) : Ref * Val :=
  match map_find x (dict_ n) with
  | None => (RefInvalid, n)
  | Some _ => (RefChild (DictSlot x), n)
  end.

(** [Val::operator[](const std::string&)]: [dict_[x]] makes the entry when
    it is missing, and [val.reset(new Val)] stores a new node in it. *)
Definition index_key (x : str) (n : Val) : Slot * Val :=
  let n := set_dict n in
  let n := mkVal (map_set x Val_new (dict_ n)) (is_dict_ n) (list_ n)
                 (is_list_ n) (val_ n) in
  (DictSlot x, n).

(** [Val::operator[](const size_t) const]. *)
Definition index_pos_const (i : nat) (n : Val) : Ref * Val :=
  if length (list_ n) <=? i then (RefInvalid, n)
  else (RefChild (ListSlot i), n).

(** The [while] loop of the mutating index accessor: one [push_back] per
    turn until [i] is below the size. *)
Definition push_until (i : nat) (l : list Val) : list Val :=
  l ++ repeat Val_new (S i - length l).

(** [Val::operator[](const size_t)]. *)
Definition index_pos (i : nat) (n : Val) : Slot * Val :=
  let n := set_list n in
  let n := mkVal (dict_ n) (is_dict_ n) (push_until i (list_ n)) (is_list_ n) (val_ n) in
  (ListSlot i, n).

(** [cur[x] = std::move(v)], for either accessor. *)
Definition index_assign (acc : Val -> Slot * Val) (v : Val) (cur : Val) : Val :=
  let '(s, cur) := acc cur in slot_assign s v cur.

(** ** Reader *)

(** [operator<<] on a [uint64_t]: decimal digits. *)
Definition dec (n : N) : str :=
  lit (NilEmpty.string_of_uint (N.to_uint n)).

(** The lambda [fn_err]: the message stored into [*out_err]. *)
Definition fn_err (tok : Token) (expected : str) : str :=
  let s := tok_str tok in
  let s := if 20 <? length s then firstn 20 s else s in
  lit "Error: L" ++ dec (line_num tok) ++ lit ":" ++ dec (line_pos tok)
    ++ lit ": Expected " ++ expected ++ lit ", got: " ++ [dquote] ++ s
    ++ [dquote] ++ lit ".".

(** The lambda [fn_is_expected]; [None] is the null default of
    [expected_str]. The second component is [*out_err] afterwards. *)
Definition fn_is_expected (tok : Token) (expected_str : option str)
           (out_err : str) : bool * str :=
  match expected_str with
  | Some e =>
      if tok_eq tok e then (true, out_err)
      else (false, fn_err tok ([dquote] ++ e ++ [dquote]))
  | None =>
      if negb (TokenType_eqb (type tok) MALFORMED) then (true, out_err)
      else (false, fn_err tok (lit "!MALFORMED"))
  end.

(** The result of a call: the returned pointer ([None] for [nullptr]), the
    generator and [*out_err] afterwards. *)
Definition ReadResult : Type := option Val * TokenGen * str.

(** The recursive [read] on a [TokenGen] and its two [while (true)] loops.
    Every call and every turn of a loop spends one unit of [fuel]; without
    fuel there is no result. *)
Fixpoint read_fuel (fuel : nat) (tok_gen : TokenGen) (out_err : str)
         {struct fuel} : option ReadResult :=
  match fuel with
  | 0 => None
  | S fuel =>
      let ret := Val_new in
      let '(tok, tok_gen) := NextNonWS tok_gen in
      if tok_eq tok (lit "{") then
        let cur := set_dict ret in
        let '(peek, peek_gen) := NextNonWS tok_gen in
        if tok_eq peek (lit "}") then Some (Some cur, peek_gen, out_err)
        else read_dict_loop fuel cur tok_gen out_err
      else if tok_eq tok (lit "[") then
        let cur := set_list ret in
        let '(peek, peek_gen) := NextNonWS tok_gen in
        if tok_eq peek (lit "]") then Some (Some cur, peek_gen, out_err)
        else read_list_loop fuel cur 0 tok_gen out_err
      else
        let '(ok, out_err) := fn_is_expected tok None out_err in
        if negb ok then Some (None, tok_gen, out_err)
        else Some (Some (val_assign (tok_str tok) ret), tok_gen, out_err)
  end

with read_dict_loop (fuel : nat) (cur : Val) (tok_gen : TokenGen)
       (out_err : str) {struct fuel} : option ReadResult :=
  match fuel with
  | 0 => None
  | S fuel =>
      let '(k, tok_gen) := NextNonWS tok_gen in
      if negb (TokenType_eqb (type k) STRING) then
        Some (None, tok_gen, fn_err k (lit "STRING"))
      else
        let '(colon, tok_gen) := NextNonWS tok_gen in
        let '(ok, out_err) := fn_is_expected colon (Some (lit ":")) out_err in
        if negb ok then Some (None, tok_gen, out_err)
        else
          match read_fuel fuel tok_gen out_err with
          | None => None
          | Some (None, tok_gen, out_err) => Some (None, tok_gen, out_err)
          | Some (Some v, tok_gen, out_err) =>
              let '(_, key_name) := unescape (tok_str k) [] in
              let cur := index_assign (index_key key_name) v cur in
              let '(comma, tok_gen) := NextNonWS tok_gen in
              if tok_eq comma (lit "}") then Some (Some cur, tok_gen, out_err)
              else
                let '(ok, out_err) :=
                  fn_is_expected comma (Some (lit ",")) out_err in
                if negb ok then Some (None, tok_gen, out_err)
                else read_dict_loop fuel cur tok_gen out_err
          end
  end

with read_list_loop (fuel : nat) (cur : Val) (i : nat) (tok_gen : TokenGen)
       (out_err : str) {struct fuel} : option ReadResult :=
  match fuel with
  | 0 => None
  | S fuel =>
      match read_fuel fuel tok_gen out_err with
      | None => None
      | Some (None, tok_gen, out_err) => Some (None, tok_gen, out_err)
      | Some (Some v, tok_gen, out_err) =>
          let cur := index_assign (index_pos i) v cur in
          let i := i + 1 in
          let '(comma, tok_gen) := NextNonWS tok_gen in
          if tok_eq comma (lit "]") then Some (Some cur, tok_gen, out_err)
          else
            let '(ok, out_err) :=
              fn_is_expected comma (Some (lit ",")) out_err in
            if negb ok then Some (None, tok_gen, out_err)
            else read_list_loop fuel cur i tok_gen out_err
      end
  end.

(** Fuel that is enough for an input of the given length. *)
Definition read_budget (input : str) : nat := 2 * length input + 2.

(** The recursive [read], with the fuel its input needs. *)
Definition read_gen (tok_gen : TokenGen) (out_err : str) : option ReadResult :=
  read_fuel (read_budget (span (meta_token_ tok_gen))) tok_gen out_err.

(** [read(begin, end, out_err)]: the tree and [*out_err] afterwards. *)
Definition read (input : str) (out_err : str) : option (option Val * str) :=
  match read_gen (TokenGen_new input) out_err with
  | Some (ret, _, out_err) => Some (ret, out_err)
  | None => None
  end.

(** ** Writer *)

(** [write]: the result is the text sent to [*out]. *)
Fixpoint write (root : Val) (indent : str) {struct root} : str :=
  if is_dict root then
    let d := dict_ root in
    lit "{" ++
    match d with
    | [] => lit "}"
    | _ :: _ =>
        let indent_plus := indent ++ lit "   " in
        (fix loop (kvs : list (str * Val)) (needsComma : bool) : str :=
           match kvs with
           | [] => []
           | kv :: kvs' =>
               (if needsComma then lit "," else [])
                 ++ [newline] ++ indent_plus ++ escape (fst kv) ++ lit ": "
                 ++ write (snd kv) indent_plus
                 ++ loop kvs' true
           end) d false
        ++ [newline] ++ indent ++ lit "}"
    end
  else if is_list root then
    let l := list_ root in
    lit "[" ++
    match l with
    | [] => lit "]"
    | _ :: _ =>
        let indent_plus := indent ++ lit "   " in
        (fix loop (vs : list Val) (needsComma : bool) : str :=
           match vs with
           | [] => []
           | v :: vs' =>
               (if needsComma then lit "," else [])
                 ++ [newline] ++ indent_plus
                 ++ write v indent_plus
                 ++ loop vs' true
           end) l false
        ++ [newline] ++ indent ++ lit "]"
    end
  else val_ root.

(** Where a text begins and ends. *)
Definition begins_with (c : ascii) (s : str) : Prop := hd_error s = Some c.
Definition ends_with (c : ascii) (s : str) : Prop := hd_error (rev s) = Some c.

(** ** The three modes of a node *)



(** A node holds entries only under the Object flag and elements only
    under the Array flag, and so do all the nodes below it. *)
#[local] Unset Elimination Schemes.
Inductive Flagged : Val -> Prop :=
| Flagged_node : forall n,
    (is_dict_ n = false -> dict_ n = []) ->
    (is_list_ n = false -> list_ n = []) ->
    Forall (fun kv => Flagged (snd kv)) (dict_ n) ->
    Forall Flagged (list_ n) ->
    Flagged n.
#[local] Set Elimination Schemes.

(** The nodes a caller can hold: new nodes, the trees that [read] returns,
    the result of a mutating member, of storing a node through the slot an
    accessor returned, and the children of such nodes. *)
Inductive Reachable : Val -> Prop :=
| Reach_new : Reachable Val_new
| Reach_read : forall input e t e',
    read input e = Some (Some t, e') -> Reachable t
| Reach_reset : forall n, Reachable n -> Reachable (reset n)
| Reach_set_dict : forall n, Reachable n -> Reachable (set_dict n)
| Reach_set_list : forall n, Reachable n -> Reachable (set_list n)
| Reach_val_assign : forall s n, Reachable n -> Reachable (val_assign s n)
| Reach_index_key : forall x n, Reachable n -> Reachable (snd (index_key x n))
| Reach_index_pos : forall i n, Reachable n -> Reachable (snd (index_pos i n))
| Reach_assign_key : forall x v n,
    Reachable n -> Reachable v -> Reachable (index_assign (index_key x) v n)
| Reach_assign_pos : forall i v n,
    Reachable n -> Reachable v -> Reachable (index_assign (index_pos i) v n)
| Reach_child : forall s n c,
    Reachable n -> slot_get s n = Some c -> Reachable c.

(** ** Reading the state of a generator *)

(** The input that is left. *)
Definition remaining (g : TokenGen) : str := span (meta_token_ g).

(** A generator with the input [s] left, at the line and column [p]. *)
Definition gen_at (s : str) (p : N * N) : TokenGen :=
  mkTokenGen (mkToken s (fst p) (snd p) MALFORMED).

(** A token that starts at the line and column [p]. *)
Definition tok_at (s : str) (p : N * N) (ty : TokenType) : Token :=
  mkToken s (fst p) (snd p) ty.

(** Line and column after a text that starts at [p]. *)
Definition adv (s : str) (p : N * N) : N * N := advance s (fst p) (snd p).

(** Line and column of a generator. *)
Definition gen_pos (g : TokenGen) : N * N :=
  (line_num (meta_token_ g), line_pos (meta_token_ g)).

(** [x] followed by [r] is lexed as one token of the class [ty] with the
    text [x]: the greedy classes stop because [r] does not go on with
    them. *)
Definition is_token (ty : TokenType) (x r : str) : Prop :=
  match ty with
  | WHITESPACE => x <> [] /\ forallb is_ws x = true /\ span_len is_ws r = 0
  | STRING => RE_STRING x = Some (length x)
  | WORD => x <> [] /\ forallb is_word x = true /\ span_len is_word r = 0
  | SYMBOL => exists c, x = [c] /\ is_symbol c = true
  | MALFORMED => False
  end.

(** ** The reader without fuel

    The runs of [read] and of its two loops as derivations: one rule for
    each way through the code. [read_fuel] computes exactly these runs. *)
Inductive Reads : TokenGen -> str -> ReadResult -> Prop :=
| Reads_dict_empty : forall g e tok g1 peek g2,
    NextNonWS g = (tok, g1) -> tok_eq tok (lit "{") = true ->
    NextNonWS g1 = (peek, g2) -> tok_eq peek (lit "}") = true ->
    Reads g e (Some (set_dict Val_new), g2, e)
| Reads_dict : forall g e tok g1 peek g2 r,
    NextNonWS g = (tok, g1) -> tok_eq tok (lit "{") = true ->
    NextNonWS g1 = (peek, g2) -> tok_eq peek (lit "}") = false ->
    ReadsDict (set_dict Val_new) g1 e r ->
    Reads g e r
| Reads_list_empty : forall g e tok g1 peek g2,
    NextNonWS g = (tok, g1) -> tok_eq tok (lit "{") = false ->
    tok_eq tok (lit "[") = true ->
    NextNonWS g1 = (peek, g2) -> tok_eq peek (lit "]") = true ->
    Reads g e (Some (set_list Val_new), g2, e)
| Reads_list : forall g e tok g1 peek g2 r,
    NextNonWS g = (tok, g1) -> tok_eq tok (lit "{") = false ->
    tok_eq tok (lit "[") = true ->
    NextNonWS g1 = (peek, g2) -> tok_eq peek (lit "]") = false ->
    ReadsList (set_list Val_new) 0 g1 e r ->
    Reads g e r
| Reads_atom_bad : forall g e tok g1 e1,
    NextNonWS g = (tok, g1) -> tok_eq tok (lit "{") = false ->
    tok_eq tok (lit "[") = false ->
    fn_is_expected tok None e = (false, e1) ->
    Reads g e (None, g1, e1)
| Reads_atom : forall g e tok g1 e1,
    NextNonWS g = (tok, g1) -> tok_eq tok (lit "{") = false ->
    tok_eq tok (lit "[") = false ->
    fn_is_expected tok None e = (true, e1) ->
    Reads g e (Some (val_assign (tok_str tok) Val_new), g1, e1)

with ReadsDict : Val -> TokenGen -> str -> ReadResult -> Prop :=
| ReadsDict_key_bad : forall cur g e k g1,
    NextNonWS g = (k, g1) -> TokenType_eqb (type k) STRING = false ->
    ReadsDict cur g e (None, g1, fn_err k (lit "STRING"))
| ReadsDict_colon_bad : forall cur g e k g1 colon g2 e1,
    NextNonWS g = (k, g1) -> TokenType_eqb (type k) STRING = true ->
    NextNonWS g1 = (colon, g2) ->
    fn_is_expected colon (Some (lit ":")) e = (false, e1) ->
    ReadsDict cur g e (None, g2, e1)
| ReadsDict_value_bad : forall cur g e k g1 colon g2 e1 g3 e2,
    NextNonWS g = (k, g1) -> TokenType_eqb (type k) STRING = true ->
    NextNonWS g1 = (colon, g2) ->
    fn_is_expected colon (Some (lit ":")) e = (true, e1) ->
    Reads g2 e1 (None, g3, e2) ->
    ReadsDict cur g e (None, g3, e2)
| ReadsDict_close : forall cur g e k g1 colon g2 e1 v g3 e2 comma g4,
    NextNonWS g = (k, g1) -> TokenType_eqb (type k) STRING = true ->
    NextNonWS g1 = (colon, g2) ->
    fn_is_expected colon (Some (lit ":")) e = (true, e1) ->
    Reads g2 e1 (Some v, g3, e2) ->
    NextNonWS g3 = (comma, g4) -> tok_eq comma (lit "}") = true ->
    ReadsDict cur g e
      (Some (index_assign (index_key (snd (unescape (tok_str k) []))) v cur),
       g4, e2)
| ReadsDict_comma_bad : forall cur g e k g1 colon g2 e1 v g3 e2 comma g4 e3,
    NextNonWS g = (k, g1) -> TokenType_eqb (type k) STRING = true ->
    NextNonWS g1 = (colon, g2) ->
    fn_is_expected colon (Some (lit ":")) e = (true, e1) ->
    Reads g2 e1 (Some v, g3, e2) ->
    NextNonWS g3 = (comma, g4) -> tok_eq comma (lit "}") = false ->
    fn_is_expected comma (Some (lit ",")) e2 = (false, e3) ->
    ReadsDict cur g e (None, g4, e3)
| ReadsDict_next : forall cur g e k g1 colon g2 e1 v g3 e2 comma g4 e3 r,
    NextNonWS g = (k, g1) -> TokenType_eqb (type k) STRING = true ->
    NextNonWS g1 = (colon, g2) ->
    fn_is_expected colon (Some (lit ":")) e = (true, e1) ->
    Reads g2 e1 (Some v, g3, e2) ->
    NextNonWS g3 = (comma, g4) -> tok_eq comma (lit "}") = false ->
    fn_is_expected comma (Some (lit ",")) e2 = (true, e3) ->
    ReadsDict
      (index_assign (index_key (snd (unescape (tok_str k) []))) v cur)
      g4 e3 r ->
    ReadsDict cur g e r

with ReadsList : Val -> nat -> TokenGen -> str -> ReadResult -> Prop :=
| ReadsList_value_bad : forall cur i g e g3 e2,
    Reads g e (None, g3, e2) ->
    ReadsList cur i g e (None, g3, e2)
| ReadsList_close : forall cur i g e v g3 e2 comma g4,
    Reads g e (Some v, g3, e2) ->
    NextNonWS g3 = (comma, g4) -> tok_eq comma (lit "]") = true ->
    ReadsList cur i g e (Some (index_assign (index_pos i) v cur), g4, e2)
| ReadsList_comma_bad : forall cur i g e v g3 e2 comma g4 e3,
    Reads g e (Some v, g3, e2) ->
    NextNonWS g3 = (comma, g4) -> tok_eq comma (lit "]") = false ->
    fn_is_expected comma (Some (lit ",")) e2 = (false, e3) ->
    ReadsList cur i g e (None, g4, e3)
| ReadsList_next : forall cur i g e v g3 e2 comma g4 e3 r,
    Reads g e (Some v, g3, e2) ->
    NextNonWS g3 = (comma, g4) -> tok_eq comma (lit "]") = false ->
    fn_is_expected comma (Some (lit ",")) e2 = (true, e3) ->
    ReadsList (index_assign (index_pos i) v cur) (i + 1) g4 e3 r ->
    ReadsList cur i g e r.

Scheme Reads_mind := Minimality for Reads Sort Prop
  with ReadsDict_mind := Minimality for ReadsDict Sort Prop
  with ReadsList_mind := Minimality for ReadsList Sort Prop.
Combined Scheme Reads_mutind from Reads_mind, ReadsDict_mind, ReadsList_mind.

(** ** Positions and error messages *)

(** The generator has consumed a prefix of the input and its line and
    column are those reached after that prefix. *)
Definition located (input : str) (g : TokenGen) : Prop :=
  exists pre,
    input = pre ++ remaining g
    /\ (line_num (meta_token_ g), line_pos (meta_token_ g)) = advance pre 1 1.

(** The message that [fn_err] stores for a token with the text [text]
    whose first character comes after the part [pre] of the input, when
    [expected] was expected: the line and the column reached after [pre],
    and the text cut to at most 20 characters. *)
Definition error_message (pre text expected : str) : str :=
  lit "Error: L" ++ dec (fst (advance pre 1 1)) ++ lit ":"
    ++ dec (snd (advance pre 1 1)) ++ lit ": Expected " ++ expected
    ++ lit ", got: " ++ [dquote] ++ firstn 20 text ++ [dquote] ++ lit ".".

(** What the reader says it expected of a token that it rejects: a class
    that the token is not of, or the quoted text of a symbol that the token
    is not. *)
Definition rejected (tok : Token) (expected : str) : Prop :=
  (expected = lit "STRING" /\ type tok <> STRING)
  \/ (expected = lit "!MALFORMED" /\ type tok = MALFORMED)
  \/ (exists s,
         (s = lit ":" \/ s = lit ",")
         /\ expected = [dquote] ++ s ++ [dquote] /\ span tok <> s).

(** [msg] is the message for the token on which the reader stopped: the
    input is made of a part [before], whitespace [skipped], the text of a
    token and what the generator [g'] has left; the token is what
    [NextNonWS] returns at the end of [before], leaving the generator as
    [g']; it carries the line and column of its first character; the
    reader rejects it; and the message gives that line and column, what
    was expected and the text of the token cut to 20 characters. *)
Definition positioned_error (input : str) (g' : TokenGen) (msg : str) : Prop :=
  exists before skipped tok expected,
    input = before ++ skipped ++ span tok ++ remaining g'
    /\ forallb is_ws skipped = true
    /\ NextNonWS (gen_at (skipped ++ span tok ++ remaining g')
                         (advance before 1 1)) = (tok, g')
    /\ (line_num tok, line_pos tok) = advance (before ++ skipped) 1 1
    /\ rejected tok expected
    /\ msg = error_message (before ++ skipped) (span tok) expected.

(** The claim that [read] returns a tree together with an empty error
    string, or no tree together with a positioned message that is not
    empty, on every call. *)
Definition tree_with_empty_error : Prop :=
  forall input out_err,
    exists r e,
      read input out_err = Some (r, e)
      /\ match r with
         | Some _ => e = []
         | None => e <> [] /\ exists g', positioned_error input g' e
         end.

(** The generator was made by [TokenGen]'s constructor and advanced by
    [Next] only: the type of [meta_token_] is still [MALFORMED]. *)
Definition gen_ok (g : TokenGen) : Prop := type (meta_token_ g) = MALFORMED.

(** The claim that an atom is accepted only when it is a STRING or a WORD
    token: whenever the first token of the input is neither an opening
    brace nor an opening bracket and [read] returns a tree, that token is a
    STRING or a WORD. *)
Definition atoms_are_string_or_word : Prop :=
  forall input tok g1 t e,
    NextNonWS (TokenGen_new input) = (tok, g1) ->
    tok_eq tok (lit "{") = false -> tok_eq tok (lit "[") = false ->
    read input [] = Some (Some t, e) ->
    type tok = STRING \/ type tok = WORD.

(** ** Writing and reading back *)

(** The text of one entry of an object and of the entries after it, as the
    range-for of [write] sends them. *)
Definition entry_text (indent_plus : str) (kv : str * Val) : str :=
  [newline] ++ indent_plus ++ escape (fst kv) ++ lit ": "
    ++ write (snd kv) indent_plus.

Fixpoint entries_text (indent_plus : str) (kvs : list (str * Val))
         (needsComma : bool) : str :=
  match kvs with
  | [] => []
  | kv :: kvs' =>
      (if needsComma then lit "," else [])
        ++ entry_text indent_plus kv ++ entries_text indent_plus kvs' true
  end.

Definition elem_text (indent_plus : str) (v : Val) : str :=
  [newline] ++ indent_plus ++ write v indent_plus.

Fixpoint elems_text (indent_plus : str) (vs : list Val) (needsComma : bool)
  : str :=
  match vs with
  | [] => []
  | v :: vs' =>
      (if needsComma then lit "," else [])
        ++ elem_text indent_plus v ++ elems_text indent_plus vs' true
  end.

(** The order of the entries of a [std::map]. *)
Definition key_lt (a b : str * Val) : Prop := str_ltb (fst a) (fst b) = true.

(** The text of one STRING token or of one WORD token. *)
Definition atom_text (s : str) : Prop :=
  is_token STRING s [] \/ is_token WORD s [].

(** Every [dict_] of the tree is in strictly increasing key order: the
    invariant of [std::map]. *)
#[local] Unset Elimination Schemes.
Inductive KeysSorted : Val -> Prop :=
| KeysSorted_node : forall n,
    StronglySorted key_lt (dict_ n) ->
    Forall (fun kv => KeysSorted (snd kv)) (dict_ n) ->
    Forall KeysSorted (list_ n) ->
    KeysSorted n.

(** Every scalar that [write] meets in the tree holds the text of one
    STRING or WORD token. *)
Inductive AtomTexts : Val -> Prop :=
| AtomTexts_node : forall n,
    (is_dict_ n = true -> Forall (fun kv => AtomTexts (snd kv)) (dict_ n)) ->
    (is_dict_ n = false -> is_list_ n = true -> Forall AtomTexts (list_ n)) ->
    (is_dict_ n = false -> is_list_ n = false -> atom_text (val_ n)) ->
    AtomTexts n.
#[local] Set Elimination Schemes.

(** A tree whose objects keep their entries in key order and whose scalars
    each hold the text of one STRING or WORD token, as far as [write] goes
    into it. *)
#[local] Unset Elimination Schemes.
Inductive Wellformed : Val -> Prop :=
| Wellformed_node : forall n,
    (is_dict_ n = true ->
     StronglySorted key_lt (dict_ n)
     /\ Forall (fun kv => Wellformed (snd kv)) (dict_ n)) ->
    (is_dict_ n = false -> is_list_ n = true -> Forall Wellformed (list_ n)) ->
    (is_dict_ n = false -> is_list_ n = false -> atom_text (val_ n)) ->
    Wellformed n.
#[local] Set Elimination Schemes.

(** The tree that the reader builds from the text of a tree: the members
    that [write] does not look at are empty. *)
Fixpoint norm (t : Val) : Val :=
  if is_dict_ t then
    mkVal (map (fun kv => (fst kv, norm (snd kv))) (dict_ t)) true [] false []
  else if is_list_ t then
    mkVal [] false (map norm (list_ t)) true []
  else mkVal [] false [] false (val_ t).

(** The claim that writing, reading and writing again gives the first text
    back, for every tree a caller can build and every base indentation. *)
Definition rewrite_is_identical : Prop :=
  forall t indent,
    Reachable t ->
    exists t' e,
      read (write t indent) [] = Some (Some t', e)
      /\ write t' indent = write t indent.

(** The text of [t], after whitespace and before a text that does not go
    on with a word, is read back as [norm t], and the reader stops at that
    text; the first token of the text is not a closing bracket. *)
Definition reads_back (t : Val) : Prop :=
  forall ws indent rest p e,
    forallb is_ws ws = true -> forallb is_ws indent = true ->
    span_len is_word rest = 0 ->
    (exists p',
        Reads (gen_at (ws ++ write t indent ++ rest) p) e
              (Some (norm t), gen_at rest p', e))
    /\ tok_eq (fst (NextNonWS (gen_at (ws ++ write t indent ++ rest) p)))
              (lit "]") = false.

(** ** What follows a value *)

(** The text [c] that a value was read from and the text [r] after it do
    not make one word together: [r] does not begin with a word character or
    [c] does not end with one. *)
Definition stops (c r : str) : Prop :=
  span_len is_word r = 0 \/ span_len is_word (rev c) = 0.

(** A run that gives a tree does the same on any input that goes on with
    another text after the part it consumed, provided that part and the
    text do not make one word together; and it stopped for that reason on
    its own input. *)
Definition extends_to (run : TokenGen -> str -> ReadResult -> Prop)
           (g : TokenGen) (e : str) (r : ReadResult) : Prop :=
  forall t g' e',
    r = (Some t, g', e') -> gen_ok g ->
    forall c, remaining g = c ++ remaining g' ->
      c <> [] /\ gen_ok g' /\ stops c (remaining g')
      /\ forall tail,
          stops c tail ->
          run (gen_at (c ++ tail) (gen_pos g)) e
              (Some t, gen_at tail (gen_pos g'), e').


(** The node that the read-only accessors designate. *)
Definition const_at_key (x : str) (n : Val) : Val :=
  deref (fst (index_key_const x n)) n.

Definition const_at_pos (i : nat) (n : Val) : Val :=
  deref (fst (index_pos_const i n)) n.

(** ** The trees that [read] returns *)

(** The text that [read] stores in a scalar: the text of one token that is
    neither whitespace nor malformed, other than the two opening
    brackets. *)
Definition scalar_text (s : str) : Prop :=
  exists ty,
    ty <> WHITESPACE /\ is_token ty s []
    /\ str_eqb s (lit "{") = false /\ str_eqb s (lit "[") = false.

(** The scalar that holds a closing bracket. *)
Definition closing_scalar : Val := mkVal [] false [] false (lit "]").

(** The shape of the trees that [read] builds: an Object holds its entries
    in key order and nothing else, an Array holds its elements and nothing
    else, and its first element is not the scalar of a closing bracket; a
    scalar holds the text of a token. *)
#[local] Unset Elimination Schemes.
Inductive ReadTree : Val -> Prop :=
| ReadTree_dict : forall d,
    StronglySorted key_lt d ->
    Forall (fun kv => ReadTree (snd kv)) d ->
    ReadTree (mkVal d true [] false [])
| ReadTree_list : forall l,
    Forall ReadTree l ->
    hd_error l <> Some closing_scalar ->
    ReadTree (mkVal [] false l true [])
| ReadTree_scalar : forall s,
    scalar_text s -> ReadTree (mkVal [] false [] false s).
#[local] Set Elimination Schemes.

(** What a run of [read] gives when it gives a tree: a tree of that shape,
    which is the scalar of a closing bracket only if the run began at
    one. *)
Definition gives_ReadTree (g : TokenGen) (r : ReadResult) : Prop :=
  gen_ok g ->
  forall t g' e',
    r = (Some t, g', e') ->
    ReadTree t
    /\ (t = closing_scalar -> tok_eq (fst (NextNonWS g)) (lit "]") = true).

(** The Object that the loop over the entries has built so far. *)
Definition dict_so_far (cur : Val) : Prop :=
  exists d,
    cur = mkVal d true [] false []
    /\ StronglySorted key_lt d /\ Forall (fun kv => ReadTree (snd kv)) d.

Definition keeps_dict (cur : Val) (g : TokenGen) (r : ReadResult) : Prop :=
  gen_ok g -> dict_so_far cur ->
  forall t g' e', r = (Some t, g', e') -> dict_so_far t.

(** The Array that the loop over the elements has built so far, with [i]
    elements. *)
Definition list_so_far (cur : Val) (i : nat) : Prop :=
  exists l,
    cur = mkVal [] false l true []
    /\ length l = i /\ Forall ReadTree l /\ hd_error l <> Some closing_scalar.

Definition keeps_list (cur : Val) (i : nat) (g : TokenGen) (r : ReadResult)
  : Prop :=
  gen_ok g -> list_so_far cur i ->
  (i = 0 -> tok_eq (fst (NextNonWS g)) (lit "]") = false) ->
  forall t g' e', r = (Some t, g', e') -> exists j, list_so_far t j.

(** The text of [t], after whitespace and before a text that does not go
    on with a word, is read back as [t] itself, and the reader stops at
    that text. *)
Definition reads_first (t : Val) : Prop :=
  forall ws indent rest p e,
    forallb is_ws ws = true -> forallb is_ws indent = true ->
    span_len is_word rest = 0 ->
    exists p',
      Reads (gen_at (ws ++ write t indent ++ rest) p) e
            (Some t, gen_at rest p', e).

(** ** Runs from other positions *)

(** Two generators that have the same input left, whatever line and
    column they are at. *)
Definition same_input (g h : TokenGen) : Prop :=
  remaining g = remaining h /\ gen_ok g /\ gen_ok h.

(** A run that gives a tree gives the same tree, and stops at the same
    place, from a generator that has the same input left. *)
Definition position_free (run : TokenGen -> str -> ReadResult -> Prop)
           (g : TokenGen) (e : str) (r : ReadResult) : Prop :=
  forall t g' e',
    r = (Some t, g', e') ->
    forall h, same_input g h ->
              exists h', run h e (Some t, h', e') /\ same_input g' h'.

(** A run does not read [*out_err]: from another content of it, the run
    gives the same tree and leaves that content alone, or fails with the
    same message. *)
Definition ignores_out_err (run : TokenGen -> str -> ReadResult -> Prop)
           (g : TokenGen) (e : str) (r : ReadResult) : Prop :=
  match r with
  | (Some t, g', e') => e' = e /\ forall e2, run g e2 (Some t, g', e2)
  | (None, g', e') => forall e2, run g e2 (None, g', e')
  end.


(** A run that fails stores the message for the token on which it
    stopped. *)
Definition fails_at_token (g : TokenGen) (r : ReadResult) : Prop :=
  gen_ok g ->
  forall input, located input g ->
  forall g' msg, r = (None, g', msg) -> positioned_error input g' msg.

(** ** The text of an object, entry by entry *)

(** One entry of an object as it stands in the input: the text of the key,
    the text of the value, and what is written around them. *)
Record Entry : Type := mkEntry {
  before_key : str;
  key_text : str;
  before_colon : str;
  before_value : str;
  value_text : str;
  after_value : str
}.

Definition entry_src (en : Entry) : str :=
  before_key en ++ key_text en ++ before_colon en ++ lit ":"
    ++ before_value en ++ value_text en ++ after_value en.

(** The entries of an object, with a comma between two of them. *)
Fixpoint entries_src (ens : list Entry) : str :=
  match ens with
  | [] => []
  | en :: ens' =>
      match ens' with
      | [] => entry_src en
      | _ :: _ => entry_src en ++ lit "," ++ entries_src ens'
      end
  end.

(** An object: its entries between braces, after [before] and with [rest]
    after it. *)
Definition object_src (before : str) (ens : list Entry) (rest : str) : str :=
  before ++ lit "{" ++ entries_src ens ++ lit "}" ++ rest.

(** The entry [en] is one that the reader takes, with the value [v]: its
    key is one STRING token, the text of its value is read as [v] up to its
    last character, and the rest of it is whitespace. *)
Definition entry_reads (en : Entry) (v : Val) : Prop :=
  forallb is_ws (before_key en) = true
  /\ forallb is_ws (before_colon en) = true
  /\ forallb is_ws (before_value en) = true
  /\ forallb is_ws (after_value en) = true
  /\ RE_STRING (key_text en) = Some (length (key_text en))
  /\ exists g',
      read_gen (TokenGen_new (value_text en)) [] = Some (Some v, g', [])
      /\ remaining g' = [].

(** The key under which the reader stores the entry. *)
Definition entry_key (en : Entry) : str := snd (unescape (key_text en) []).

(** The value of the last of the entries that have the key [key]. *)
Fixpoint last_value (key : str) (evs : list (Entry * Val)) : option Val :=
  match evs with
  | [] => None
  | ev :: evs' =>
      match last_value key evs' with
      | Some w => Some w
      | None => if str_eqb (entry_key (fst ev)) key then Some (snd ev) else None
      end
  end.

(** The entries stored one after the other, as the loop of [read] does. *)
Definition store_entries (evs : list (Entry * Val)) (d : list (str * Val))
  : list (str * Val) :=
  fold_left (fun d ev => map_set (entry_key (fst ev)) (snd ev) d) evs d.

(** The entries of a map that have the key [key]. *)
Definition entries_of (key : str) (d : list (str * Val)) : list (str * Val) :=
  filter (fun kv => str_eqb (fst kv) key) d.

(** ** Numbers

    [Val::as_number] converts the text of a scalar with the standard
    library: an [std::istringstream] over the text, [imbue] with the
    classic locale, and [operator>>] for a [double]. These are embedded as
    ISO C++ describes them ([istream.formatted.arithmetic],
    [facet.num.get.virtuals]) and as GCC's library carries them out: the
    characters that can go on a number are accumulated into a field, and
    the field is then converted as [strtod] does in the C locale; the
    extraction fails when the conversion does not use up the field. Of a
    locale only the decimal point is kept: the classic locale, the only one
    that the extraction is run with, groups no digits. *)

Definition double : Set := PrimFloat.float.

(** [std::locale]. *)
Record Locale : Type := mkLocale { decimal_point : ascii }.

(** [std::locale::classic()]. *)
Definition classic : Locale := mkLocale "."%char.

(** A stream: the characters not yet read, its locale, and [failbit]. *)
Record istream : Type := mkIstream {
  rdbuf : str;
  getloc : Locale;
  fail : bool
}.

(** [std::istringstream(s)]: a new stream has the global locale of the
    program, [global]. *)
Definition istringstream (global : Locale) (s : str) : istream :=
  mkIstream s global false.

Definition imbue (l : Locale) (s : istream) : istream :=
  mkIstream (rdbuf s) l (fail s).

Definition is_space (c : ascii) : bool :=
  Ascii.eqb c space || in_range 9 13 c.

Definition is_digit (c : ascii) : bool := in_range 48 57 c.

Definition is_sign (c : ascii) : bool :=
  Ascii.eqb c "+"%char || Ascii.eqb c "-"%char.

Definition is_exp (c : ascii) : bool :=
  Ascii.eqb c "e"%char || Ascii.eqb c "E"%char.

(** The leading zeros of the field, of which the first only is kept. *)
Fixpoint skip_zeros (dp : ascii) (s : str) : str :=
  match s with
  | [] => []
  | c :: s' =>
      if Ascii.eqb c dp then s
      else if Ascii.eqb c "0"%char then skip_zeros dp s'
      else s
  end.

(** The loop that accumulates the field [xtrc]: digits, the decimal point
    once and before any exponent, and an exponent character once, after a
    digit, with the sign that follows it. The result is the field and the
    characters left in the stream. *)
Fixpoint extract_float_loop (dp : ascii) (s xtrc : str)
         (found_mantissa found_dec found_sci : bool) : str * str :=
  match s with
  | [] => (xtrc, [])
  | c :: s' =>
      if is_digit c then
        extract_float_loop dp s' (xtrc ++ [c]) true found_dec found_sci
      else if Ascii.eqb c dp && negb found_dec && negb found_sci then
        extract_float_loop dp s' (xtrc ++ lit ".") found_mantissa true found_sci
      else if is_exp c && negb found_sci && found_mantissa then
        match s' with
        | [] => (xtrc ++ lit "e", [])
        | c' :: s'' =>
            if is_sign c' then
              extract_float_loop dp s'' (xtrc ++ lit "e" ++ [c'])
                                 found_mantissa found_dec true
            else
              extract_float_loop dp s' (xtrc ++ lit "e")
                                 found_mantissa found_dec true
        end
      else (xtrc, s)
  end.

(** Stage 2 of [num_get::do_get] for a floating-point number. *)
Definition extract_float (dp : ascii) (s : str) : str * str :=
  let '(xtrc, s) :=
    match s with
    | c :: s' =>
        if is_sign c && negb (Ascii.eqb c dp) then ([c], s') else ([], s)
    | [] => ([], s)
    end in
  let s' := skip_zeros dp s in
  let found_mantissa := negb (length s' =? length s) in
  let xtrc := if found_mantissa then xtrc ++ lit "0" else xtrc in
  extract_float_loop dp s' xtrc found_mantissa false false.

(** The number that a sequence of decimal digits writes. *)
Fixpoint digits_value (ds : str) (acc : N) : N :=
  match ds with
  | [] => acc
  | c :: ds' => digits_value ds' (10 * acc + (N_of_ascii c - 48))%N
  end.

(** The double nearest to [m * 10 ^ e], ties to even, with the sign
    [neg]. *)
Definition decimal_to_double (neg : bool) (m : N) (e : Z) : double :=
  FloatOps.SF2Prim
    match m with
    | N0 => SpecFloat.S754_zero neg
    | Npos p =>
        if Z.leb 0 e then
          SpecFloat.binary_round FloatOps.prec FloatOps.emax neg
            (p * Z.to_pos (Z.pow 10 e)) 0
        else
          SpecFloat.SFdiv FloatOps.prec FloatOps.emax
            (SpecFloat.S754_finite neg p 0)
            (SpecFloat.S754_finite false (Z.to_pos (Z.pow 10 (Z.opp e))) 0)
    end.

(** [strtod] in the C locale, for a number in decimal notation: the number
    converted and the text after it, or nothing when no number begins the
    text. An exponent character without digits after it is not part of the
    number. *)
Definition strtod (s : str) : option (double * str) :=
  let s := skipn (span_len is_space s) s in
  let '(neg, s) :=
    match s with
    | c :: s' => if is_sign c then (Ascii.eqb c "-"%char, s') else (false, s)
    | [] => (false, s)
    end in
  let n := span_len is_digit s in
  let ip := firstn n s in
  let s1 := skipn n s in
  let '(fp, s2) :=
    match s1 with
    | c :: s' =>
        if Ascii.eqb c "."%char
        then (firstn (span_len is_digit s') s', skipn (span_len is_digit s') s')
        else ([], s1)
    | [] => ([], s1)
    end in
  if length ip + length fp =? 0 then None else
  let '(ex, s3) :=
    match s2 with
    | c :: s' =>
        if is_exp c then
          let '(eneg, s'') :=
            match s' with
            | c' :: t => if is_sign c' then (Ascii.eqb c' "-"%char, t)
                         else (false, s')
            | [] => (false, s')
            end in
          let k := span_len is_digit s'' in
          if k =? 0 then (Z0, s2)
          else
            let x := Z.of_N (digits_value (firstn k s'') 0) in
            (if eneg then Z.opp x else x, skipn k s'')
        else (Z0, s2)
    | [] => (Z0, s2)
    end in
  Some (decimal_to_double neg (digits_value (ip ++ fp) 0)
                          (Z.sub ex (Z.of_nat (length fp))), s3).

(** [numeric_limits<double>::max()]. *)
Definition double_max : double :=
  FloatOps.SF2Prim (SpecFloat.S754_finite false 9007199254740991 971).

(** Stage 3: the value stored and whether [failbit] is set. The field has
    to be a number as a whole; a number too large is stored as the largest
    double, with [failbit]. *)
Definition convert_to_v (xtrc : str) : double * bool :=
  match strtod xtrc with
  | None => (PrimFloat.zero, true)
  | Some (v, rest) =>
      match rest with
      | _ :: _ => (PrimFloat.zero, true)
      | [] =>
          if PrimFloat.eqb v PrimFloat.infinity then (double_max, true)
          else if PrimFloat.eqb v PrimFloat.neg_infinity
               then (PrimFloat.opp double_max, true)
          else (v, false)
      end
  end.

(** [stream >> v]: whitespace is skipped first; a stream that has failed
    or that has nothing left stores nothing. *)
Definition extract_double (s : istream) (v : double) : istream * double :=
  if fail s then (s, v) else
  let b := skipn (span_len is_space (rdbuf s)) (rdbuf s) in
  match b with
  | [] => (mkIstream [] (getloc s) true, v)
  | _ :: _ =>
      let '(xtrc, rest) := extract_float (decimal_point (getloc s)) b in
      let '(v', err) := convert_to_v xtrc in
      (mkIstream rest (getloc s) err, v')
  end.

(** [Val::as_number]: the result and [*out]. [global] is the global locale
    of the program and [ret] what the local variable of that name holds
    before the extraction stores into it. *)
Definition as_number (global : Locale) (n : Val) (out ret : double)
  : bool * double :=
  let stream := istringstream global (val_ n) in
  let locale := classic in
  let stream := imbue locale stream in
  let '(stream, ret) := extract_double stream ret in
  if fail stream then (false, out) else (true, ret).

(** The double [f] is positive and as near to the fraction [num / den] as
    a double can be: it is at most half a unit in its last place away. *)
Definition nearest_double (num den : Z) (f : double) : Prop :=
  match FloatOps.Prim2SF f with
  | SpecFloat.S754_finite false m e =>
      Z.leb (Z.pow 2 52) (Zpos m) = true
      /\ Z.ltb (Zpos m) (Z.pow 2 53) = true
      /\ Z.leb (-1074) e = true
      /\ Z.leb (2 * Z.abs (den * Zpos m * Z.pow 2 (e + 1074)
                           - num * Z.pow 2 1074))
               (den * Z.pow 2 (e + 1074)) = true
  | _ => False
  end.

(* ================================================================== *)
(** * Properties *)

(** ** Characters and strings *)

Lemma str_eqb_eq : forall a b, str_eqb a b = true <-> a = b.
Proof.
  induction a as [|x a IH]; destruct b as [|y b]; simpl; split;
    try congruence; try discriminate.
  - rewrite andb_true_iff, Ascii.eqb_eq, IH. intros [-> ->]; reflexivity.
  - intros H; injection H as -> ->.
    rewrite andb_true_iff, Ascii.eqb_eq, IH. split; reflexivity.
Qed.

(** ** The escaper *)

Section Unescape.

Lemma unescape_loop_snoc : forall p c b w,
    fst (unescape_loop (p ++ [c]) b w)
    = negb (fst (unescape_loop p b w)) && Ascii.eqb c backslash.
Proof.
  induction p as [|x p IH]; intros c b w; simpl.
  - destruct b, (Ascii.eqb c backslash); reflexivity.
  - destruct (negb b && Ascii.eqb x backslash); apply IH.
Qed.

Lemma trailing_backslashes_snoc : forall p c,
    trailing_backslashes (p ++ [c])
    = if Ascii.eqb c backslash then S (trailing_backslashes p) else 0.
Proof.
  intros p c. unfold trailing_backslashes. rewrite rev_app_distr.
  reflexivity.
Qed.

(** The flag of the loop is the parity of the final run of
    backslashes. *)
Lemma unescape_loop_flag : forall p w,
    fst (unescape_loop p false w) = Nat.odd (trailing_backslashes p).
Proof.
  induction p as [|c p IH] using rev_ind; intros w.
  - reflexivity.
  - rewrite unescape_loop_snoc, trailing_backslashes_snoc, IH.
    destruct (Ascii.eqb c backslash).
    + rewrite Nat.odd_succ, <- Nat.negb_odd, andb_true_r. reflexivity.
    + rewrite andb_false_r. reflexivity.
Qed.

(** The loop computes what the unit-by-unit reading computes. *)
Lemma unescape_loop_strip : forall n s w,
    length s <= n ->
    match strip_escapes s with
    | Some t => unescape_loop s false w = (false, w ++ t)
    | None => fst (unescape_loop s false w) = true
    end.
Proof.
  induction n as [|n IH]; intros s w Hn.
  - destruct s; [simpl; rewrite app_nil_r; reflexivity | simpl in Hn; lia].
  - destruct s as [|c s]; [simpl; rewrite app_nil_r; reflexivity|].
    simpl in Hn. simpl strip_escapes.
    destruct (Ascii.eqb c backslash) eqn:Ec.
    + destruct s as [|d s]; simpl; rewrite Ec; simpl; [reflexivity|].
      specialize (IH s (w ++ [d]) ltac:(simpl in Hn; lia)).
      destruct (strip_escapes s) as [t|]; simpl.
      * rewrite IH, <- app_assoc. reflexivity.
      * exact IH.
    + simpl. rewrite Ec. simpl.
      specialize (IH s (w ++ [c]) ltac:(lia)).
      destruct (strip_escapes s) as [t|]; simpl.
      * rewrite IH, <- app_assoc. reflexivity.
      * exact IH.
Qed.

Lemma nth_0_hd_error : forall (s : str) c,
    s <> [] -> (nth 0 s zero = c <-> hd_error s = Some c).
Proof.
  intros [|x s] c H; [congruence|]. simpl. split; congruence.
Qed.

Lemma nth_last_hd_error_rev : forall (s : str) c,
    s <> [] -> (nth (length s - 1) s zero = c <-> hd_error (rev s) = Some c).
Proof.
  intros s c H. destruct s as [|x s] using rev_ind; [congruence|].
  rewrite rev_app_distr, length_app. simpl.
  replace (length s + 1 - 1) with (length s) by lia.
  rewrite nth_middle. split; congruence.
Qed.

End Unescape.

(** C8. [unescape] fails exactly when the input is shorter than two
    characters, or does not both begin and end with a double quote, or ends
    in the middle of an escape (a dangling backslash before the closing
    quote), and it leaves the output alone then; in every other case it
    succeeds and the output is the text between the outer quotes with one
    backslash removed before each escaped character, the character after a
    backslash being kept as it is. *)
Theorem unescape_fails_exactly : forall in_ out,
    (fst (unescape in_ out) = false <->
       (length in_ < 2
        \/ ~ (begins_with dquote in_ /\ ends_with dquote in_)
        \/ dangling_backslash (interior in_)))
    /\ (fst (unescape in_ out) = false -> snd (unescape in_ out) = out)
    /\ (fst (unescape in_ out) = true ->
        exists text,
          strip_escapes (interior in_) = Some text
          /\ unescape in_ out = (true, text)
          /\ in_ = dquote :: interior in_ ++ [dquote]).
Proof.
  intros in_ out. unfold unescape.
  destruct (length in_ <? 2) eqn:Hlen.
  { apply Nat.ltb_lt in Hlen. simpl. repeat split; auto; discriminate. }
  apply Nat.ltb_ge in Hlen.
  assert (Hne : in_ <> []) by (intros ->; simpl in Hlen; lia).
  destruct (Ascii.eqb (nth 0 in_ zero) dquote) eqn:Hb; simpl.
  2:{ repeat split; auto; try discriminate. intros _. right; left.
      intros [Hq _]. apply nth_0_hd_error in Hq; auto.
      rewrite Hq in Hb. discriminate. }
  destruct (Ascii.eqb (nth (length in_ - 1) in_ zero) dquote) eqn:He; simpl.
  2:{ repeat split; auto; try discriminate. intros _. right; left.
      intros [_ Hq]. apply nth_last_hd_error_rev in Hq; auto.
      rewrite Hq in He. discriminate. }
  apply Ascii.eqb_eq in Hb, He.
  apply nth_0_hd_error in Hb; auto.
  apply nth_last_hd_error_rev in He; auto.
  assert (Hshape : in_ = dquote :: interior in_ ++ [dquote]).
  { unfold interior. destruct in_ as [|x s]; [congruence|].
    simpl in Hb. injection Hb as ->. simpl tl.
    destruct s as [|y s] using rev_ind; [simpl in Hlen; lia|].
    rewrite removelast_last. simpl in He.
    rewrite rev_app_distr in He. simpl in He. injection He as ->.
    reflexivity. }
  pose proof (unescape_loop_flag (interior in_) []) as Hflag.
  pose proof (@unescape_loop_strip _ (interior in_) [] (le_n _)) as Hstrip.
  destruct (unescape_loop (interior in_) false []) as [e w] eqn:Hloop.
  simpl in Hflag. unfold dangling_backslash. rewrite <- Hflag.
  destruct e; simpl.
  - repeat split; auto; try discriminate.
  - split; [|split]; try discriminate.
    + split; [discriminate|]. intros [H|[H|H]]; try lia; try discriminate.
      exfalso; apply H; split; assumption.
    + intros _. destruct (strip_escapes (interior in_)) as [t|].
      * injection Hstrip as <-. exists w. auto.
      * simpl in Hstrip. discriminate.
Qed.

(** ** The key order of [dict_] *)

Section KeyOrder.

Lemma N_of_ascii_inj : forall x y, N_of_ascii x = N_of_ascii y -> x = y.
Proof.
  intros x y H. rewrite <- (ascii_N_embedding x), <- (ascii_N_embedding y).
  rewrite H. reflexivity.
Qed.

Lemma str_ltb_irrefl : forall a, str_ltb a a = false.
Proof.
  induction a as [|x a IH]; simpl; [reflexivity|].
  rewrite N.ltb_irrefl. exact IH.
Qed.

Lemma str_ltb_asym : forall a b, str_ltb a b = true -> str_ltb b a = false.
Proof.
  induction a as [|x a IH]; destruct b as [|y b]; simpl; try congruence.
  destruct (N_of_ascii x <? N_of_ascii y)%N eqn:E1;
    destruct (N_of_ascii y <? N_of_ascii x)%N eqn:E2; try congruence.
  - apply N.ltb_lt in E1, E2. lia.
  - apply IH.
Qed.

Lemma str_ltb_trans : forall a b c,
    str_ltb a b = true -> str_ltb b c = true -> str_ltb a c = true.
Proof.
  induction a as [|x a IH]; destruct b as [|y b]; destruct c as [|z c];
    simpl; try congruence.
  destruct (N_of_ascii x <? N_of_ascii y)%N eqn:E1;
    destruct (N_of_ascii y <? N_of_ascii x)%N eqn:E2;
    destruct (N_of_ascii y <? N_of_ascii z)%N eqn:E3;
    destruct (N_of_ascii z <? N_of_ascii y)%N eqn:E4;
    destruct (N_of_ascii x <? N_of_ascii z)%N eqn:E5;
    destruct (N_of_ascii z <? N_of_ascii x)%N eqn:E6;
    try congruence;
    rewrite ?N.ltb_lt, ?N.ltb_ge in *; try lia.
  apply IH.
Qed.

Lemma str_ltb_total : forall a b,
    str_ltb a b = false -> str_ltb b a = false -> a = b.
Proof.
  induction a as [|x a IH]; destruct b as [|y b]; simpl; try congruence.
  destruct (N_of_ascii x <? N_of_ascii y)%N eqn:E1;
    destruct (N_of_ascii y <? N_of_ascii x)%N eqn:E2; try congruence.
  intros H1 H2. apply N.ltb_ge in E1, E2.
  assert (x = y) by (apply N_of_ascii_inj; lia).
  f_equal; auto.
Qed.

End KeyOrder.

(** ** [std::map] as a sorted list *)

Section MapLemmas.
Variable A : Type.
Implicit Types (d : list (str * A)) (x y : str) (v w : A).

Lemma map_find_set_same : forall d x v, map_find x (map_set x v d) = Some v.
Proof.
  induction d as [|[k w] d IH]; intros x v; simpl.
  - rewrite str_ltb_irrefl. reflexivity.
  - destruct (str_ltb x k) eqn:E1; simpl.
    + rewrite str_ltb_irrefl. reflexivity.
    + destruct (str_ltb k x) eqn:E2; simpl.
      * rewrite E2. apply IH.
      * rewrite E2, E1. reflexivity.
Qed.

Lemma map_find_set_other : forall d x y v,
    y <> x -> map_find y (map_set x v d) = map_find y d.
Proof.
  induction d as [|[k w] d IH]; intros x y v Hxy; simpl.
  - destruct (str_ltb x y) eqn:E1; [reflexivity|].
    destruct (str_ltb y x) eqn:E2; [reflexivity|].
    exfalso. apply Hxy. symmetry. apply str_ltb_total; assumption.
  - destruct (str_ltb x k) eqn:E1; simpl.
    + destruct (str_ltb x y) eqn:E3; [reflexivity|].
      destruct (str_ltb y x) eqn:E4.
      * rewrite (str_ltb_asym _ _ (str_ltb_trans _ _ _ E4 E1)).
        rewrite (str_ltb_trans _ _ _ E4 E1). reflexivity.
      * exfalso. apply Hxy. symmetry. apply str_ltb_total; assumption.
    + destruct (str_ltb k x) eqn:E2; simpl.
      * destruct (str_ltb k y); [apply IH; assumption | reflexivity].
      * assert (k = x) by (apply str_ltb_total; assumption). subst k.
        destruct (str_ltb x y) eqn:E3; [reflexivity|].
        destruct (str_ltb y x) eqn:E4; [reflexivity|].
        exfalso. apply Hxy. symmetry. apply str_ltb_total; assumption.
Qed.

(** Storing twice under one key keeps the second value only. *)
Lemma map_set_set_same : forall d x v w,
    map_set x w (map_set x v d) = map_set x w d.
Proof.
  induction d as [|[k u] d IH]; intros x v w; simpl.
  - rewrite str_ltb_irrefl. reflexivity.
  - destruct (str_ltb x k) eqn:E1; simpl.
    + rewrite str_ltb_irrefl. reflexivity.
    + destruct (str_ltb k x) eqn:E2; simpl.
      * rewrite E1, E2, IH. reflexivity.
      * rewrite E1, E2. reflexivity.
Qed.

Lemma Forall_map_set : forall (P : str * A -> Prop) d x v,
    Forall P d -> P (x, v) -> Forall P (map_set x v d).
Proof.
  induction d as [|[k w] d IH]; intros x v Hd Hv; simpl.
  - constructor; auto.
  - inversion Hd; subst.
    destruct (str_ltb x k) eqn:E1; [constructor; auto|].
    destruct (str_ltb k x) eqn:E2; constructor; auto.
    rewrite (str_ltb_total _ _ E2 E1). assumption.
Qed.

(** Storing through a reference replaces what [dict_[x]] had put there. *)
Lemma map_update_set : forall d x v w,
    map_update x w (map_set x v d) = map_set x w d.
Proof.
  induction d as [|[k u] d IH]; intros x v w; simpl.
  - rewrite str_ltb_irrefl. reflexivity.
  - destruct (str_ltb x k) eqn:E1; simpl.
    + rewrite str_ltb_irrefl. reflexivity.
    + destruct (str_ltb k x) eqn:E2; simpl.
      * rewrite E2, IH. reflexivity.
      * rewrite E2, E1. reflexivity.
Qed.

Lemma Forall_map_update : forall (P : str * A -> Prop) d x v,
    Forall P d -> P (x, v) -> Forall P (map_update x v d).
Proof.
  induction d as [|[k w] d IH]; intros x v Hd Hv; simpl; [constructor|].
  inversion Hd; subst.
  destruct (str_ltb k x) eqn:E1; [constructor; auto|].
  destruct (str_ltb x k) eqn:E2; [assumption|].
  constructor; auto.
  rewrite (str_ltb_total _ _ E1 E2). assumption.
Qed.

Lemma map_update_keys : forall d x v,
    map fst (map_update x v d) = map fst d.
Proof.
  induction d as [|[k w] d IH]; intros x v; simpl; [reflexivity|].
  destruct (str_ltb k x); [simpl; rewrite IH; reflexivity|].
  destruct (str_ltb x k); reflexivity.
Qed.

Lemma Forall_vec_set : forall (P : A -> Prop) (l : list A) i v,
    Forall P l -> P v -> Forall P (vec_set i v l).
Proof.
  induction l as [|w l IH]; intros i v Hl Hv; simpl; [constructor|].
  inversion Hl; subst. destruct i; constructor; auto.
Qed.

Lemma vec_set_nil_iff : forall (l : list A) i v, vec_set i v l = [] <-> l = [].
Proof.
  intros [|w l] i v; simpl; [tauto|]. destruct i; split; discriminate.
Qed.

Lemma map_find_In : forall d x v, map_find x d = Some v -> In (x, v) d.
Proof.
  induction d as [|[k w] d IH]; intros x v; simpl; [discriminate|].
  destruct (str_ltb k x) eqn:E1; [auto|].
  destruct (str_ltb x k) eqn:E2; [discriminate|].
  intros H; injection H as ->. left. f_equal.
  apply str_ltb_total; assumption.
Qed.

End MapLemmas.

(** ** Node accessors *)

Section Accessors.

Lemma is_dict_set_dict : forall n, is_dict_ (set_dict n) = true.
Proof. reflexivity. Qed.

Lemma is_list_set_list : forall n, is_list_ (set_list n) = true.
Proof. reflexivity. Qed.

Lemma Flagged_inv : forall n,
    Flagged n ->
    (is_dict_ n = false -> dict_ n = [])
    /\ (is_list_ n = false -> list_ n = [])
    /\ Forall (fun kv => Flagged (snd kv)) (dict_ n)
    /\ Forall Flagged (list_ n).
Proof. intros n H. inversion H; subst. auto. Qed.

Lemma Flagged_new : Flagged Val_new.
Proof. constructor; simpl; auto. Qed.

Lemma Flagged_reset : forall n, Flagged (reset n).
Proof. intros n. constructor; simpl; auto. Qed.

Lemma Flagged_set_dict : forall n, Flagged n -> Flagged (set_dict n).
Proof.
  intros n H. destruct (Flagged_inv H) as (Hd & Hl & Hcd & Hcl).
  constructor; simpl; auto; discriminate.
Qed.

Lemma Flagged_set_list : forall n, Flagged n -> Flagged (set_list n).
Proof.
  intros n H. destruct (Flagged_inv H) as (Hd & Hl & Hcd & Hcl).
  constructor; simpl; auto; discriminate.
Qed.

Lemma Flagged_val_assign : forall s n,
    Flagged n -> Flagged (val_assign s n).
Proof. intros s n H. inversion H; subst. constructor; simpl; auto. Qed.

Lemma Flagged_dict_store : forall x v n,
    Flagged n -> Flagged v ->
    Flagged (slot_assign (DictSlot x) v n).
Proof.
  intros x v n Hn Hv. destruct (Flagged_inv Hn) as (Hd & Hl & Hcd & Hcl).
  constructor; simpl; auto.
  - intros E. rewrite (Hd E). reflexivity.
  - apply Forall_map_update; auto.
Qed.

Lemma Flagged_list_store : forall i v n,
    Flagged n -> Flagged v ->
    Flagged (slot_assign (ListSlot i) v n).
Proof.
  intros i v n Hn Hv. inversion Hn; subst.
  constructor; simpl; auto.
  - intros E. apply vec_set_nil_iff. auto.
  - apply Forall_vec_set; auto.
Qed.

Lemma Flagged_index_key : forall x n,
    Flagged n -> Flagged (snd (index_key x n)).
Proof.
  intros x n H. destruct (Flagged_inv H) as (Hd & Hl & Hcd & Hcl).
  unfold index_key, set_dict. constructor; simpl; auto.
  - discriminate.
  - apply Forall_map_set; auto. apply Flagged_new.
Qed.

Lemma Flagged_index_pos : forall i n,
    Flagged n -> Flagged (snd (index_pos i n)).
Proof.
  intros i n H. destruct (Flagged_inv H) as (Hd & Hl & Hcd & Hcl).
  unfold index_pos, set_list. constructor; simpl; auto.
  - discriminate.
  - unfold push_until. apply Forall_app. split; [assumption|].
    apply Forall_forall. intros c Hc. apply repeat_spec in Hc. subst c.
    apply Flagged_new.
Qed.

Lemma Flagged_assign_key : forall x v n,
    Flagged n -> Flagged v ->
    Flagged (index_assign (index_key x) v n).
Proof.
  intros x v n Hn Hv. unfold index_assign.
  pose proof (Flagged_index_key x Hn) as H.
  unfold index_key in *. cbv zeta in *. unfold snd in *.
  apply Flagged_dict_store; assumption.
Qed.

Lemma Flagged_assign_pos : forall i v n,
    Flagged n -> Flagged v ->
    Flagged (index_assign (index_pos i) v n).
Proof.
  intros i v n Hn Hv. unfold index_assign.
  pose proof (Flagged_index_pos i Hn) as H.
  unfold index_pos in *. cbv zeta in *. unfold snd in *.
  apply Flagged_list_store; assumption.
Qed.

Lemma Flagged_child : forall s n c,
    Flagged n -> slot_get s n = Some c -> Flagged c.
Proof.
  intros s n c Hn Hs.
  destruct (Flagged_inv Hn) as (_ & _ & Hd & Hl).
  destruct s as [x|i]; simpl in Hs.
  - apply map_find_In in Hs. rewrite Forall_forall in Hd.
    apply (Hd _ Hs).
  - apply nth_error_In in Hs. rewrite Forall_forall in Hl. auto.
Qed.

End Accessors.

(** C5. The mutating key accessor [n[k]] always leaves a newly constructed
    empty scalar under [k], whatever was stored there before, and returns
    the slot that holds it; the node is an Object afterwards and the
    entries under the other keys are those it had once in Object mode. *)
Theorem index_key_replaces_child : forall n x,
    fst (index_key x n) = DictSlot x
    /\ slot_get (fst (index_key x n)) (snd (index_key x n)) = Some Val_new
    /\ (val_ Val_new = [] /\ is_dict Val_new = false /\ is_list Val_new = false)
    /\ is_dict (snd (index_key x n)) = true
    /\ (forall y, y <> x ->
                  slot_get (DictSlot y) (snd (index_key x n))
                  = slot_get (DictSlot y) (set_dict n)).
Proof.
  intros n x. unfold index_key. cbv zeta. unfold fst, snd.
  split; [reflexivity|]. split.
  { simpl. apply map_find_set_same. }
  split; [repeat split|]. split.
  { reflexivity. }
  intros y Hy. simpl. apply map_find_set_other. assumption.
Qed.

(** C7. A read-only lookup by a key that is absent, or by an index at or
    past the length of the array, gives the shared [INVALID] sentinel, an
    empty scalar that is neither Object nor Array, and the node is the same
    afterwards: no entry is created and the mode does not change. *)
Theorem const_lookup_miss_is_invalid : forall n,
    (forall x, slot_get (DictSlot x) n = None ->
               index_key_const x n = (RefInvalid, n))
    /\ (forall i, length (list_ n) <= i ->
                  index_pos_const i n = (RefInvalid, n))
    /\ deref RefInvalid n = INVALID
    /\ (val_ INVALID = [] /\ is_dict INVALID = false /\ is_list INVALID = false
        /\ dict_ INVALID = [] /\ list_ INVALID = []).
Proof.
  intros n. split; [|split; [|split]].
  - intros x Hx. unfold index_key_const. simpl in Hx. rewrite Hx. reflexivity.
  - intros i Hi. unfold index_pos_const.
    apply Nat.leb_le in Hi. rewrite Hi. reflexivity.
  - reflexivity.
  - repeat split.
Qed.

(** ** The tokenizer *)

Section Lexer.

Lemma word_char : forall c,
    is_word c = true -> is_ws c = false /\ Ascii.eqb c dquote = false.
Proof.
  intros [[] [] [] [] [] [] [] []]; vm_compute; split; congruence.
Qed.

Lemma symbol_char : forall c,
    is_symbol c = true ->
    is_ws c = false /\ is_word c = false /\ Ascii.eqb c dquote = false.
Proof.
  intros [[] [] [] [] [] [] [] []]; vm_compute; repeat split; congruence.
Qed.

Lemma firstn_skipn_length : forall (s : str) n,
    s = firstn n s ++ skipn (length (firstn n s)) s.
Proof.
  intros s n. rewrite length_firstn.
  destruct (Nat.le_ge_cases n (length s)) as [H|H].
  - rewrite Nat.min_l by assumption. symmetry. apply firstn_skipn.
  - rewrite Nat.min_r by assumption.
    rewrite firstn_all2, skipn_all by assumption.
    rewrite app_nil_r. reflexivity.
Qed.

Lemma span_len_le : forall p (s : str), span_len p s <= length s.
Proof.
  induction s as [|c s IH]; simpl; [lia|]. destruct (p c); lia.
Qed.

Lemma re_plus_some : forall p s n, re_plus p s = Some n -> 0 < n <= length s.
Proof.
  unfold re_plus. intros p s n H. pose proof (span_len_le p s).
  destruct (span_len p s) eqn:E; [discriminate|].
  injection H as <-. lia.
Qed.

Lemma re_string_body_some : forall s n,
    re_string_body s = Some n -> 0 < n <= length s.
Proof.
  intros s. remember (length s) as m eqn:Hm.
  revert s Hm. induction m as [m IH] using lt_wf_ind. intros s Hm n H.
  destruct s as [|c s]; simpl in H; [discriminate|].
  destruct (Ascii.eqb c dquote).
  { injection H as <-. simpl in Hm. lia. }
  destruct (Ascii.eqb c backslash).
  - destruct s as [|d s]; [discriminate|].
    destruct (is_dot d); [|discriminate].
    destruct (re_string_body s) as [k|] eqn:E; [|discriminate].
    injection H as <-. simpl in Hm.
    specialize (IH (length s) ltac:(lia) s eq_refl k E). simpl. lia.
  - destruct (re_string_body s) as [k|] eqn:E; [|discriminate].
    injection H as <-. simpl in Hm.
    specialize (IH (length s) ltac:(lia) s eq_refl k E). simpl. lia.
Qed.

Lemma RE_STRING_some : forall s n, RE_STRING s = Some n -> 1 < n <= length s.
Proof.
  intros [|c s] n H; simpl in H; [discriminate|].
  destruct (Ascii.eqb c dquote); [|discriminate].
  destruct (re_string_body s) as [k|] eqn:E; [|discriminate].
  injection H as <-. apply re_string_body_some in E. simpl. lia.
Qed.

Lemma RE_SYMBOL_some : forall s n, RE_SYMBOL s = Some n -> n = 1 /\ 1 <= length s.
Proof.
  intros [|c s] n H; simpl in H; [discriminate|].
  destruct (is_symbol c); [|discriminate]. injection H as <-.
  simpl. lia.
Qed.

(** What [Next_classify] gives, regex by regex. *)
Lemma Next_classify_cases : forall m,
    (exists n, RE_WHITESPACE (span m) = Some n
               /\ Next_classify m = mkToken (firstn n (span m)) (line_num m) (line_pos m) WHITESPACE)
    \/ (exists n, RE_WHITESPACE (span m) = None /\ RE_STRING (span m) = Some n
                  /\ Next_classify m = mkToken (firstn n (span m)) (line_num m) (line_pos m) STRING)
    \/ (exists n, RE_WHITESPACE (span m) = None /\ RE_STRING (span m) = None
                  /\ RE_WORD (span m) = Some n
                  /\ Next_classify m = mkToken (firstn n (span m)) (line_num m) (line_pos m) WORD)
    \/ (exists n, RE_WHITESPACE (span m) = None /\ RE_STRING (span m) = None
                  /\ RE_WORD (span m) = None /\ RE_SYMBOL (span m) = Some n
                  /\ Next_classify m = mkToken (firstn n (span m)) (line_num m) (line_pos m) SYMBOL)
    \/ (RE_WHITESPACE (span m) = None /\ RE_STRING (span m) = None
        /\ RE_WORD (span m) = None /\ RE_SYMBOL (span m) = None
        /\ Next_classify m = m).
Proof.
  intros m. unfold Next_classify, next_token_from_regex.
  destruct (RE_WHITESPACE (span m)) as [n|] eqn:E1.
  { left. exists n. split; reflexivity. }
  destruct (RE_STRING (span m)) as [n|] eqn:E2.
  { right; left. exists n. repeat split; reflexivity. }
  destruct (RE_WORD (span m)) as [n|] eqn:E3.
  { right; right; left. exists n. repeat split; reflexivity. }
  destruct (RE_SYMBOL (span m)) as [n|] eqn:E4.
  { right; right; right; left. exists n. repeat split; reflexivity. }
  right; right; right; right. repeat split; reflexivity.
Qed.

(** A token and what is left make up what was left before. *)
Lemma Next_split : forall g tok g',
    Next g = (tok, g') -> remaining g = span tok ++ remaining g'.
Proof.
  intros g tok g' H. unfold Next in H.
  destruct (advance _ _ _) as [ln lp]. injection H as <- <-.
  unfold remaining. simpl.
  destruct (Next_classify_cases (meta_token_ g))
    as [(n & _ & ->)|[(n & _ & _ & ->)|[(n & _ & _ & _ & ->)
       |[(n & _ & _ & _ & _ & ->)|(_ & _ & _ & _ & ->)]]]]; simpl;
    try apply firstn_skipn_length.
  rewrite skipn_all. rewrite app_nil_r. reflexivity.
Qed.

Lemma Next_meta_type : forall g tok g',
    Next g = (tok, g') -> type (meta_token_ g') = type (meta_token_ g).
Proof.
  intros g tok g' H. unfold Next in H.
  destruct (advance _ _ _) as [ln lp]. injection H as _ <-. reflexivity.
Qed.

End Lexer.

(** ** The reader: fuel and derivations *)

Section ReaderRuns.

Ltac break_hyp H :=
  repeat match type of H with
    | context [match ?x with _ => _ end] => destruct x eqn:?
    | Some _ = Some _ => injection H as <-
    | None = Some _ => discriminate H
    end.

Ltac tidy_bools :=
  repeat match goal with
    | H : negb _ = true |- _ => apply negb_true_iff in H
    | H : negb _ = false |- _ => apply negb_false_iff in H
    end; subst.

Ltac fold_key :=
  repeat match goal with
    | H : unescape ?a ?b = (_, ?s) |- _ =>
        replace s with (snd (unescape a b)) in * by (rewrite H; reflexivity);
        clear H
    end.

Lemma read_fuel_sound : forall fuel,
    (forall g e r, read_fuel fuel g e = Some r -> Reads g e r)
    /\ (forall cur g e r,
           read_dict_loop fuel cur g e = Some r -> ReadsDict cur g e r)
    /\ (forall cur i g e r,
           read_list_loop fuel cur i g e = Some r -> ReadsList cur i g e r).
Proof.
  induction fuel as [|fuel (IHr & IHd & IHl)].
  { repeat split; intros; discriminate. }
  split; [|split].
  - intros g e r H. cbn [read_fuel] in H.
    break_hyp H; tidy_bools.
    + eapply Reads_dict_empty; eauto.
    + eapply Reads_dict; eauto.
    + eapply Reads_list_empty; eauto.
    + eapply Reads_list; eauto.
    + eapply Reads_atom_bad; eauto.
    + eapply Reads_atom; eauto.
  - intros cur g e r H. cbn [read_dict_loop] in H.
    break_hyp H; tidy_bools; fold_key.
    + eapply ReadsDict_key_bad; eauto.
    + eapply ReadsDict_colon_bad; eauto.
    + eapply ReadsDict_close; eauto.
    + eapply ReadsDict_comma_bad; eauto.
    + eapply ReadsDict_next; eauto.
    + eapply ReadsDict_value_bad; eauto.
  - intros cur i g e r H. cbn [read_list_loop] in H.
    break_hyp H; tidy_bools.
    + eapply ReadsList_close; eauto.
    + eapply ReadsList_comma_bad; eauto.
    + eapply ReadsList_next; eauto.
    + eapply ReadsList_value_bad; eauto.
Qed.

Ltac step_run :=
  cbn [read_fuel read_dict_loop read_list_loop negb];
  repeat (match goal with
          | H : ?x = _ |- context [?x] => rewrite H
          end; cbn [negb snd]).

Ltac enough_fuel :=
  repeat match goal with
    | H : exists _, _ |- _ => destruct H
    end;
  lazymatch goal with
  | H : forall f, ?a <= f -> @?P f, H' : forall f, ?b <= f -> @?Q f |- _ =>
      exists (S (a + b))
  | H : forall f, ?a <= f -> @?P f |- _ => exists (S a)
  | |- _ => exists 1
  end;
  intros [|f] Hf; [lia|]; step_run;
  repeat match goal with
    | H : forall f, _ <= f -> @?P f |- _ =>
        rewrite H by lia; step_run
    | |- context [match unescape ?a ?b with _ => _ end] =>
        rewrite (surjective_pairing (unescape a b)); step_run
    end;
  try reflexivity.

Lemma read_fuel_complete :
  (forall g e r, Reads g e r ->
                 exists f0, forall f, f0 <= f -> read_fuel f g e = Some r)
  /\ (forall cur g e r,
         ReadsDict cur g e r ->
         exists f0, forall f, f0 <= f -> read_dict_loop f cur g e = Some r)
  /\ (forall cur i g e r,
         ReadsList cur i g e r ->
         exists f0, forall f, f0 <= f -> read_list_loop f cur i g e = Some r).
Proof.
  apply Reads_mutind; intros; enough_fuel.
Qed.

(** More fuel does not change a result. *)
Lemma Reads_fun : forall g e r r', Reads g e r -> Reads g e r' -> r = r'.
Proof.
  intros g e r r' H H'.
  destruct (proj1 read_fuel_complete _ _ _ H) as [f0 Hf].
  destruct (proj1 read_fuel_complete _ _ _ H') as [f1 Hf'].
  specialize (Hf (f0 + f1) ltac:(lia)).
  specialize (Hf' (f0 + f1) ltac:(lia)). congruence.
Qed.

Lemma NextNonWS_loop_length : forall fuel g tok g',
    NextNonWS_loop fuel g = (tok, g') ->
    length (span tok) + length (remaining g') <= length (remaining g).
Proof.
  induction fuel as [|fuel IH]; intros g tok g' H; simpl in H;
    destruct (Next g) as [t g1] eqn:E; apply Next_split in E;
    destruct (TokenType_eqb (type t) WHITESPACE).
  - injection H as <- <-. rewrite E, length_app. lia.
  - injection H as <- <-. rewrite E, length_app. lia.
  - apply IH in H. rewrite E, length_app. lia.
  - injection H as <- <-. rewrite E, length_app. lia.
Qed.

Lemma NextNonWS_length : forall g tok g',
    NextNonWS g = (tok, g') ->
    length (span tok) + length (remaining g') <= length (remaining g).
Proof. intros g tok g'. apply NextNonWS_loop_length. Qed.

Lemma tok_eq_length : forall tok s,
    tok_eq tok s = true -> length (span tok) = length s.
Proof.
  intros tok s H. apply str_eqb_eq in H. rewrite H. reflexivity.
Qed.

(** Reading never moves the generator backwards. *)
Lemma Reads_length :
  (forall g e r, Reads g e r ->
                 length (remaining (snd (fst r))) <= length (remaining g))
  /\ (forall cur g e r,
         ReadsDict cur g e r ->
         length (remaining (snd (fst r))) <= length (remaining g))
  /\ (forall cur i g e r,
         ReadsList cur i g e r ->
         length (remaining (snd (fst r))) <= length (remaining g)).
Proof.
  apply Reads_mutind; intros; simpl in *;
    repeat match goal with
      | H : NextNonWS _ = _ |- _ => apply NextNonWS_length in H
      end; lia.
Qed.

(** The budget of [read_gen] is enough. *)
Lemma read_fuel_enough : forall fuel,
    (forall g e, 2 * length (remaining g) + 2 <= fuel ->
                 read_fuel fuel g e <> None)
    /\ (forall cur g e, 2 * length (remaining g) + 3 <= fuel ->
                        read_dict_loop fuel cur g e <> None)
    /\ (forall cur i g e, 2 * length (remaining g) + 3 <= fuel ->
                          read_list_loop fuel cur i g e <> None).
Proof.
  induction fuel as [|fuel (IHr & IHd & IHl)].
  { repeat split; intros; lia. }
  split; [|split].
  - intros g e Hf. cbn [read_fuel].
    destruct (NextNonWS g) as [tok g1] eqn:E1.
    pose proof (NextNonWS_length _ E1) as L1.
    destruct (tok_eq tok (lit "{")) eqn:Eb.
    { apply tok_eq_length in Eb. simpl in Eb.
      destruct (NextNonWS g1) as [peek g2].
      destruct (tok_eq peek (lit "}")); [discriminate|].
      apply IHd. lia. }
    destruct (tok_eq tok (lit "[")) eqn:Ek.
    { apply tok_eq_length in Ek. simpl in Ek.
      destruct (NextNonWS g1) as [peek g2].
      destruct (tok_eq peek (lit "]")); [discriminate|].
      apply IHl. lia. }
    destruct (fn_is_expected tok None e) as [[] e1]; discriminate.
  - intros cur g e Hf. cbn [read_dict_loop].
    destruct (NextNonWS g) as [k g1] eqn:E1.
    pose proof (NextNonWS_length _ E1) as L1.
    destruct (negb (TokenType_eqb (type k) STRING)); [discriminate|].
    destruct (NextNonWS g1) as [colon g2] eqn:E2.
    pose proof (NextNonWS_length _ E2) as L2.
    destruct (fn_is_expected colon (Some (lit ":")) e) as [[] e1];
      [|discriminate]. cbn [negb].
    destruct (read_fuel fuel g2 e1) as [[[[v|] g3] e2]|] eqn:E3;
      [| discriminate | exfalso; revert E3; apply IHr; lia].
    apply (proj1 (read_fuel_sound fuel)) in E3.
    apply (proj1 Reads_length) in E3. simpl in E3.
    destruct (unescape (tok_str k) []) as [b key_name].
    destruct (NextNonWS g3) as [comma g4] eqn:E4.
    pose proof (NextNonWS_length _ E4) as L4.
    destruct (tok_eq comma (lit "}")); [discriminate|].
    unfold fn_is_expected.
    destruct (tok_eq comma (lit ",")) eqn:Ec; [|discriminate]. cbn [negb].
    apply tok_eq_length in Ec. simpl in Ec. apply IHd. lia.
  - intros cur i g e Hf. cbn [read_list_loop].
    destruct (read_fuel fuel g e) as [[[[v|] g3] e2]|] eqn:E3;
      [| discriminate | exfalso; revert E3; apply IHr; lia].
    apply (proj1 (read_fuel_sound fuel)) in E3.
    apply (proj1 Reads_length) in E3. simpl in E3.
    destruct (NextNonWS g3) as [comma g4] eqn:E4.
    pose proof (NextNonWS_length _ E4) as L4.
    destruct (tok_eq comma (lit "]")); [discriminate|].
    unfold fn_is_expected.
    destruct (tok_eq comma (lit ",")) eqn:Ec; [|discriminate]. cbn [negb].
    apply tok_eq_length in Ec. simpl in Ec. apply IHl. lia.
Qed.

(** [read_gen] computes the run of [read], and there always is one. *)
Lemma read_gen_Reads : forall g e r, read_gen g e = Some r <-> Reads g e r.
Proof.
  intros g e r. unfold read_gen. split.
  - apply read_fuel_sound.
  - intros H.
    destruct (read_fuel (read_budget (span (meta_token_ g))) g e)
      as [r'|] eqn:E.
    + f_equal. apply (proj1 (read_fuel_sound _)) in E.
      eapply Reads_fun; eassumption.
    + exfalso. revert E. apply read_fuel_enough.
      unfold read_budget, remaining. lia.
Qed.

Lemma read_gen_total : forall g e, exists r, read_gen g e = Some r.
Proof.
  intros g e. destruct (read_gen g e) as [r|] eqn:E; [eauto|].
  exfalso. revert E. apply read_fuel_enough.
  unfold read_budget, remaining. lia.
Qed.

End ReaderRuns.

(** ** Invariants of the trees a caller can hold *)

Section TreeInvariants.

(** A property of nodes that every member keeps is a property of every
    node a caller can hold. *)
Section Invariant.
Variable Inv : Val -> Prop.
Hypothesis Inv_new : Inv Val_new.
Hypothesis Inv_reset : forall n, Inv (reset n).
Hypothesis Inv_set_dict : forall n, Inv n -> Inv (set_dict n).
Hypothesis Inv_set_list : forall n, Inv n -> Inv (set_list n).
Hypothesis Inv_val_assign : forall s n, Inv n -> Inv (val_assign s n).
Hypothesis Inv_index_key : forall x n, Inv n -> Inv (snd (index_key x n)).
Hypothesis Inv_index_pos : forall i n, Inv n -> Inv (snd (index_pos i n)).
Hypothesis Inv_assign_key : forall x v n,
    Inv n -> Inv v -> Inv (index_assign (index_key x) v n).
Hypothesis Inv_assign_pos : forall i v n,
    Inv n -> Inv v -> Inv (index_assign (index_pos i) v n).
Hypothesis Inv_child : forall s n c, Inv n -> slot_get s n = Some c -> Inv c.

Lemma Reads_invariant :
  (forall g e r, Reads g e r -> forall t, fst (fst r) = Some t -> Inv t)
  /\ (forall cur g e r, ReadsDict cur g e r ->
        Inv cur -> forall t, fst (fst r) = Some t -> Inv t)
  /\ (forall cur i g e r, ReadsList cur i g e r ->
        Inv cur -> forall t, fst (fst r) = Some t -> Inv t).
Proof.
  apply Reads_mutind; intros; cbn [fst snd] in *;
    try discriminate;
    try match goal with
      | H : Some _ = Some _ |- _ => injection H as <-
      end;
    eauto 6.
Qed.

Lemma read_invariant : forall input e t e',
    read input e = Some (Some t, e') -> Inv t.
Proof.
  intros input e t e' H. unfold read in H.
  destruct (read_gen (TokenGen_new input) e) as [[[r g] e1]|] eqn:E;
    [|discriminate].
  injection H as -> ->. apply read_gen_Reads in E.
  apply (proj1 Reads_invariant _ _ _ E). reflexivity.
Qed.

Lemma Reachable_invariant : forall n, Reachable n -> Inv n.
Proof. induction 1; eauto using read_invariant. Qed.

End Invariant.

Lemma Reachable_Flagged : forall n, Reachable n -> Flagged n.
Proof.
  apply Reachable_invariant;
    eauto using Flagged_new, Flagged_reset, Flagged_set_dict,
      Flagged_set_list, Flagged_val_assign, Flagged_index_key,
      Flagged_index_pos, Flagged_assign_key, Flagged_assign_pos,
      Flagged_child.
Qed.

Lemma KeysSorted_inv : forall n,
    KeysSorted n ->
    StronglySorted key_lt (dict_ n)
    /\ Forall (fun kv => KeysSorted (snd kv)) (dict_ n)
    /\ Forall KeysSorted (list_ n).
Proof. intros n H. inversion H; subst. auto. Qed.

(** Storing through [operator[]] keeps a [std::map] in key order. *)
Lemma map_set_sorted : forall d x v,
    StronglySorted key_lt d -> StronglySorted key_lt (map_set x v d).
Proof.
  induction d as [|[k w] d IH]; intros x v H; simpl.
  - repeat constructor.
  - apply StronglySorted_inv in H. destruct H as [Hd Hk].
    destruct (str_ltb x k) eqn:E1.
    + constructor; [constructor; assumption|].
      constructor; [exact E1|].
      eapply Forall_impl; [|exact Hk]. intros y Hy. unfold key_lt in *.
      cbn [fst] in *. eapply str_ltb_trans; eassumption.
    + destruct (str_ltb k x) eqn:E2.
      * constructor; [apply IH; assumption|].
        apply Forall_map_set; assumption.
      * constructor; assumption.
Qed.

Lemma KeysSorted_new : KeysSorted Val_new.
Proof. constructor; simpl; constructor. Qed.

Lemma KeysSorted_reset : forall n, KeysSorted (reset n).
Proof. intros n. constructor; simpl; constructor. Qed.

Lemma map_update_sorted : forall d x v,
    StronglySorted key_lt d -> StronglySorted key_lt (map_update x v d).
Proof.
  induction d as [|[k w] d IH]; intros x v H; simpl; [constructor|].
  apply StronglySorted_inv in H. destruct H as [Hs Hk].
  destruct (str_ltb k x) eqn:E1.
  - constructor; [apply IH; assumption|].
    apply Forall_map_update; [assumption | exact E1].
  - destruct (str_ltb x k) eqn:E2; constructor; assumption.
Qed.

Lemma KeysSorted_set_dict : forall n, KeysSorted n -> KeysSorted (set_dict n).
Proof.
  intros n H. destruct (KeysSorted_inv H) as (H1 & H2 & H3).
  constructor; assumption.
Qed.

Lemma KeysSorted_set_list : forall n, KeysSorted n -> KeysSorted (set_list n).
Proof.
  intros n H. destruct (KeysSorted_inv H) as (H1 & H2 & H3).
  constructor; assumption.
Qed.

Lemma KeysSorted_val_assign : forall s n,
    KeysSorted n -> KeysSorted (val_assign s n).
Proof.
  intros s n H. destruct (KeysSorted_inv H) as (H1 & H2 & H3).
  constructor; assumption.
Qed.

Lemma KeysSorted_slot_assign : forall s v n,
    KeysSorted n -> KeysSorted v -> KeysSorted (slot_assign s v n).
Proof.
  intros [x|i] v n H Hv; destruct (KeysSorted_inv H) as (H1 & H2 & H3);
    constructor; simpl; auto.
  - apply map_update_sorted; assumption.
  - apply Forall_map_update; assumption.
  - apply Forall_vec_set; assumption.
Qed.

Lemma KeysSorted_index_key : forall x n,
    KeysSorted n -> KeysSorted (snd (index_key x n)).
Proof.
  intros x n H. destruct (KeysSorted_inv H) as (H1 & H2 & H3).
  unfold index_key, set_dict. constructor; simpl; auto.
  - apply map_set_sorted; assumption.
  - apply Forall_map_set; [assumption | apply KeysSorted_new].
Qed.

Lemma KeysSorted_index_pos : forall i n,
    KeysSorted n -> KeysSorted (snd (index_pos i n)).
Proof.
  intros i n H. unfold index_pos. cbv zeta. unfold snd.
  destruct (KeysSorted_inv (KeysSorted_set_list H)) as (H1 & H2 & H3).
  constructor; simpl; auto.
  unfold push_until. apply Forall_app. split; [assumption|].
  apply Forall_forall. intros c Hc. apply repeat_spec in Hc. subst c.
  apply KeysSorted_new.
Qed.

Lemma KeysSorted_assign_key : forall x v n,
    KeysSorted n -> KeysSorted v ->
    KeysSorted (index_assign (index_key x) v n).
Proof.
  intros x v n Hn Hv. unfold index_assign.
  pose proof (KeysSorted_index_key x Hn) as H.
  unfold index_key in *. cbv zeta in *. unfold snd in *.
  apply KeysSorted_slot_assign; assumption.
Qed.

Lemma KeysSorted_assign_pos : forall i v n,
    KeysSorted n -> KeysSorted v ->
    KeysSorted (index_assign (index_pos i) v n).
Proof.
  intros i v n Hn Hv. unfold index_assign.
  pose proof (KeysSorted_index_pos i Hn) as H.
  unfold index_pos in *. cbv zeta in *. unfold snd in *.
  apply KeysSorted_slot_assign; assumption.
Qed.

Lemma KeysSorted_child : forall s n c,
    KeysSorted n -> slot_get s n = Some c -> KeysSorted c.
Proof.
  intros s n c Hn Hs. destruct (KeysSorted_inv Hn) as (_ & Hd & Hl).
  destruct s as [x|i]; simpl in Hs.
  - apply map_find_In in Hs. rewrite Forall_forall in Hd. apply (Hd _ Hs).
  - apply nth_error_In in Hs. rewrite Forall_forall in Hl. auto.
Qed.

(** The objects of every tree a caller can hold are in key order. *)
Lemma Reachable_KeysSorted : forall n, Reachable n -> KeysSorted n.
Proof.
  apply Reachable_invariant;
    eauto using KeysSorted_new, KeysSorted_reset, KeysSorted_set_dict,
      KeysSorted_set_list, KeysSorted_val_assign, KeysSorted_index_key,
      KeysSorted_index_pos, KeysSorted_assign_key, KeysSorted_assign_pos,
      KeysSorted_child.
Qed.

End TreeInvariants.




(** ** Positions *)

Section Positions.

Lemma advance_app : forall a b ln lp,
    advance (a ++ b) ln lp
    = advance b (fst (advance a ln lp)) (snd (advance a ln lp)).
Proof.
  induction a as [|c a IH]; intros b ln lp; simpl; [reflexivity|].
  destruct (Ascii.eqb c newline); apply IH.
Qed.

Lemma Next_positions : forall g tok g',
    Next g = (tok, g') ->
    line_num tok = line_num (meta_token_ g)
    /\ line_pos tok = line_pos (meta_token_ g)
    /\ (line_num (meta_token_ g'), line_pos (meta_token_ g'))
       = advance (span tok) (line_num tok) (line_pos tok).
Proof.
  intros g tok g' H. unfold Next in H.
  destruct (advance _ _ _) as [ln lp] eqn:Ea. injection H as <- <-.
  destruct (Next_classify_cases (meta_token_ g))
    as [(n & _ & Hc)|[(n & _ & _ & Hc)|[(n & _ & _ & _ & Hc)
       |[(n & _ & _ & _ & _ & Hc)|(_ & _ & _ & _ & Hc)]]]];
    rewrite Hc in *; simpl in *; auto.
Qed.

Lemma Next_located : forall input g tok g',
    located input g -> Next g = (tok, g') -> located input g'.
Proof.
  intros input g tok g' (pre & Hin & Hpos) H.
  pose proof (Next_split _ H) as Hs.
  destruct (Next_positions _ H) as (Hl & Hp & Ha).
  exists (pre ++ span tok). split.
  - rewrite Hin, Hs, app_assoc. reflexivity.
  - rewrite advance_app, Ha, Hl, Hp, <- Hpos. reflexivity.
Qed.

Lemma NextNonWS_loop_located : forall input fuel g tok g',
    located input g -> NextNonWS_loop fuel g = (tok, g') -> located input g'.
Proof.
  induction fuel as [|fuel IH]; intros g tok g' Hg H; simpl in H;
    destruct (Next g) as [t g1] eqn:E;
    pose proof (Next_located Hg E) as Hg1;
    destruct (TokenType_eqb (type t) WHITESPACE);
    try (injection H as <- <-; assumption).
  eapply IH; eassumption.
Qed.

Lemma NextNonWS_located : forall input g tok g',
    located input g -> NextNonWS g = (tok, g') -> located input g'.
Proof. intros input g tok g'. apply NextNonWS_loop_located. Qed.

Lemma TokenGen_new_located : forall input, located input (TokenGen_new input).
Proof. intros input. exists []. split; reflexivity. Qed.

Lemma fn_err_cut : forall tok expected,
    fn_err tok expected
    = lit "Error: L" ++ dec (line_num tok) ++ lit ":" ++ dec (line_pos tok)
        ++ lit ": Expected " ++ expected ++ lit ", got: " ++ [dquote]
        ++ firstn 20 (span tok) ++ [dquote] ++ lit ".".
Proof.
  intros tok expected. unfold fn_err, tok_str.
  destruct (20 <? length (span tok)) eqn:E; [reflexivity|].
  apply Nat.ltb_ge in E. rewrite firstn_all2 by assumption. reflexivity.
Qed.

Lemma fn_is_expected_shape : forall tok expected e e1,
    fn_is_expected tok expected e = (true, e1) -> e1 = e.
Proof.
  intros tok expected e e1 H. unfold fn_is_expected in H.
  destruct expected as [s|].
  - destruct (tok_eq tok s); [injection H as <-; reflexivity | discriminate].
  - destruct (negb (TokenType_eqb (type tok) MALFORMED));
      [injection H as <-; reflexivity | discriminate].
Qed.

(** A run stays inside the input, and leaves the error string alone when
    it succeeds. *)
Lemma Reads_shape :
  (forall g e r, Reads g e r ->
     forall input, located input g ->
       located input (snd (fst r))
       /\ (fst (fst r) <> None -> snd r = e))
  /\ (forall cur g e r, ReadsDict cur g e r ->
        forall input, located input g ->
          located input (snd (fst r))
          /\ (fst (fst r) <> None -> snd r = e))
  /\ (forall cur i g e r, ReadsList cur i g e r ->
        forall input, located input g ->
          located input (snd (fst r))
          /\ (fst (fst r) <> None -> snd r = e)).
Proof.
  apply Reads_mutind; intros; cbn [fst snd] in *;
    repeat match goal with
      | Hn : NextNonWS ?g = _, Hl : located ?i ?g |- _ =>
          let Hg := fresh "Hg" in
          pose proof (NextNonWS_located Hl Hn) as Hg; clear Hn
      | IH : forall input, located input ?g -> _, Hl : located ?i ?g |- _ =>
          let Hg := fresh "Hg" in
          let Hr := fresh "Hr" in
          destruct (IH _ Hl) as [Hg Hr]; clear IH; cbn [fst snd] in Hg, Hr
      | Hf : fn_is_expected _ _ _ = (true, _) |- _ =>
          apply fn_is_expected_shape in Hf; subst
      | Hr : Some _ <> None -> _ |- _ =>
          specialize (Hr ltac:(discriminate)); subst
      end;
    (split; [assumption|]); try congruence; auto.
Qed.

(** The reader always returns: the budget of [read] never runs out. *)
Lemma read_total : forall input e, exists r e', read input e = Some (r, e').
Proof.
  intros input e. unfold read.
  destruct (read_gen_total (TokenGen_new input) e) as [[[r g] e'] H].
  rewrite H. eauto.
Qed.

End Positions.

(** ** Atoms *)

Section Atoms.

Lemma span_len_skipn : forall p (s : str),
    span_len p (skipn (span_len p s) s) = 0.
Proof.
  induction s as [|c s IH]; simpl; [reflexivity|].
  destruct (p c) eqn:E; simpl; [assumption | rewrite E; reflexivity].
Qed.

Lemma gen_ok_Next : forall g tok g', Next g = (tok, g') -> gen_ok g -> gen_ok g'.
Proof.
  unfold gen_ok. intros g tok g' H Hg. rewrite (Next_meta_type _ H). exact Hg.
Qed.

(** The class of a token, and the regular expression that gave it. *)
Lemma Next_type : forall g tok g',
    Next g = (tok, g') -> gen_ok g ->
    match type tok with
    | WHITESPACE =>
        RE_WHITESPACE (remaining g) = Some (length (span tok))
    | STRING =>
        RE_WHITESPACE (remaining g) = None
        /\ RE_STRING (remaining g) = Some (length (span tok))
    | WORD =>
        RE_WHITESPACE (remaining g) = None /\ RE_STRING (remaining g) = None
        /\ RE_WORD (remaining g) = Some (length (span tok))
    | SYMBOL =>
        RE_WHITESPACE (remaining g) = None /\ RE_STRING (remaining g) = None
        /\ RE_WORD (remaining g) = None
        /\ RE_SYMBOL (remaining g) = Some (length (span tok))
    | MALFORMED =>
        RE_WHITESPACE (remaining g) = None /\ RE_STRING (remaining g) = None
        /\ RE_WORD (remaining g) = None /\ RE_SYMBOL (remaining g) = None
        /\ remaining g' = []
    end.
Proof.
  intros g tok g' H Hg. unfold Next in H.
  destruct (advance _ _ _) as [ln lp]. injection H as <- <-.
  unfold remaining, gen_ok in *.
  destruct (Next_classify_cases (meta_token_ g))
    as [(n & E & Hc)|[(n & E1 & E & Hc)|[(n & E1 & E2 & E & Hc)
       |[(n & E1 & E2 & E3 & E & Hc)|(E1 & E2 & E3 & E4 & Hc)]]]];
    rewrite Hc; simpl.
  - pose proof (re_plus_some _ _ E). rewrite length_firstn, Nat.min_l by lia.
    assumption.
  - pose proof (RE_STRING_some _ E). rewrite length_firstn, Nat.min_l by lia.
    auto.
  - pose proof (re_plus_some _ _ E). rewrite length_firstn, Nat.min_l by lia.
    auto.
  - pose proof (RE_SYMBOL_some _ E). rewrite length_firstn, Nat.min_l by lia.
    auto.
  - rewrite Hg. repeat split; auto. apply skipn_all.
Qed.

Lemma Next_after_ws : forall g tok g' tok2 g2,
    Next g = (tok, g') -> gen_ok g -> type tok = WHITESPACE ->
    Next g' = (tok2, g2) -> type tok2 <> WHITESPACE.
Proof.
  intros g tok g' tok2 g2 H Hg Hty H2 Hty2.
  pose proof (Next_type H Hg) as T. rewrite Hty in T.
  pose proof (Next_type H2 (gen_ok_Next H Hg)) as T2. rewrite Hty2 in T2.
  pose proof (Next_split _ H) as Hs.
  unfold RE_WHITESPACE, re_plus in T, T2.
  destruct (span_len is_ws (remaining g)) as [|n] eqn:E; [discriminate|].
  injection T as T.
  assert (Hr : remaining g' = skipn (span_len is_ws (remaining g)) (remaining g)).
  { rewrite E, T, Hs, skipn_app, skipn_all, Nat.sub_diag. reflexivity. }
  rewrite Hr, span_len_skipn in T2. discriminate.
Qed.

Lemma TokenType_eqb_eq : forall a b, TokenType_eqb a b = true <-> a = b.
Proof. intros [] []; simpl; split; congruence. Qed.

(** [NextNonWS] is one [Next], or two when the first token is
    whitespace. *)
Lemma NextNonWS_unfold : forall g,
    gen_ok g ->
    NextNonWS g
    = (if TokenType_eqb (type (fst (Next g))) WHITESPACE
       then Next (snd (Next g)) else Next g).
Proof.
  intros g Hg. unfold NextNonWS. cbn [NextNonWS_loop].
  destruct (Next g) as [t g1] eqn:E. cbn [fst snd].
  destruct (TokenType_eqb (type t) WHITESPACE) eqn:Ew; [|reflexivity].
  apply TokenType_eqb_eq in Ew.
  destruct (length (span (meta_token_ g))); cbn [NextNonWS_loop];
    destruct (Next g1) as [t2 g2] eqn:E2;
    pose proof (Next_after_ws E Hg Ew E2) as Hn;
    destruct (TokenType_eqb (type t2) WHITESPACE) eqn:Ew2;
    try reflexivity.
  apply TokenType_eqb_eq in Ew2. contradiction.
Qed.

Lemma NextNonWS_not_ws : forall g tok g',
    gen_ok g -> NextNonWS g = (tok, g') ->
    type tok <> WHITESPACE /\ gen_ok g'.
Proof.
  intros g tok g' Hg H. rewrite NextNonWS_unfold in H by assumption.
  destruct (Next g) as [t g1] eqn:E. cbn [fst snd] in H.
  destruct (TokenType_eqb (type t) WHITESPACE) eqn:Ew.
  - apply TokenType_eqb_eq in Ew. split.
    + apply (Next_after_ws E Hg Ew H).
    + apply (gen_ok_Next H). apply (gen_ok_Next E). exact Hg.
  - injection H as <- <-. split.
    + intros Hty. rewrite Hty in Ew. discriminate.
    + apply (gen_ok_Next E). exact Hg.
Qed.

Lemma read_gen_atom : forall g e tok g1,
    NextNonWS g = (tok, g1) ->
    tok_eq tok (lit "{") = false -> tok_eq tok (lit "[") = false ->
    read_gen g e
    = Some (if TokenType_eqb (type tok) MALFORMED
            then (None, g1, fn_err tok (lit "!MALFORMED"))
            else (Some (val_assign (tok_str tok) Val_new), g1, e)).
Proof.
  intros g e tok g1 H Hb Hk. apply read_gen_Reads.
  destruct (TokenType_eqb (type tok) MALFORMED) eqn:Em.
  - eapply Reads_atom_bad; eauto. unfold fn_is_expected. rewrite Em. reflexivity.
  - eapply Reads_atom; eauto. unfold fn_is_expected. rewrite Em. reflexivity.
Qed.

End Atoms.

(** C3 as it is stated does not hold: the input made of one colon is read
    as a scalar, and a colon is a Symbol token. *)
Lemma colon_is_read_as_a_scalar : ~ atoms_are_string_or_word.
Proof.
  intros H.
  specialize (H (lit ":")
                (mkToken (lit ":") 1 1 SYMBOL)
                (mkTokenGen (mkToken [] 1 2 MALFORMED))
                (val_assign (lit ":") Val_new) []
                eq_refl eq_refl eq_refl eq_refl).
  destruct H; discriminate.
Qed.

(** C3 (as amended). When the next non-whitespace token is neither an
    opening brace nor an opening bracket, [read] returns a scalar holding
    the text of the token for every token that is not Malformed: a STRING,
    a WORD, and a Symbol such as a colon, a comma or a closing bracket as
    well. It fails, with the message that a token other than a malformed
    one was expected, for a Malformed token only. *)
Theorem atom_accepted_unless_malformed : forall g e tok g1,
    gen_ok g ->
    NextNonWS g = (tok, g1) ->
    tok_eq tok (lit "{") = false -> tok_eq tok (lit "[") = false ->
    (type tok = STRING \/ type tok = WORD \/ type tok = SYMBOL
     \/ type tok = MALFORMED)
    /\ (type tok <> MALFORMED ->
        read_gen g e = Some (Some (val_assign (tok_str tok) Val_new), g1, e)
        /\ is_dict (val_assign (tok_str tok) Val_new) = false
        /\ is_list (val_assign (tok_str tok) Val_new) = false
        /\ val_ (val_assign (tok_str tok) Val_new) = tok_str tok)
    /\ (type tok = MALFORMED ->
        read_gen g e = Some (None, g1, fn_err tok (lit "!MALFORMED"))).
Proof.
  intros g e tok g1 Hg H Hb Hk.
  pose proof (@read_gen_atom g e tok g1 H Hb Hk) as R.
  destruct (NextNonWS_not_ws Hg H) as [Hws _].
  split; [|split].
  - destruct (type tok); auto. contradiction.
  - intros Hm. destruct (type tok); try contradiction; auto.
  - intros Hm. rewrite Hm in R. exact R.
Qed.

(** The theorem at the input made of a space and a closing bracket. *)
Lemma atom_accepted_unless_malformed_witness :
  read_gen (TokenGen_new (lit " ]")) []
  = Some (Some (val_assign (lit "]") Val_new),
          mkTokenGen (mkToken [] 1 3 MALFORMED), []).
Proof.
  refine (proj1 (proj1 (proj2 (@atom_accepted_unless_malformed
            (TokenGen_new (lit " ]")) []
            (mkToken (lit "]") 1 2 SYMBOL)
            (mkTokenGen (mkToken [] 1 3 MALFORMED))
            eq_refl eq_refl eq_refl eq_refl)) _)).
  discriminate.
Defined.

(** ** Tokens of a text *)

Section Tokens.

Lemma span_len_app : forall p (w r : str),
    forallb p w = true -> span_len p (w ++ r) = length w + span_len p r.
Proof.
  induction w as [|c w IH]; intros r H; simpl in *; [reflexivity|].
  apply andb_true_iff in H. destruct H as [Hc Hw]. rewrite Hc, IH by assumption.
  reflexivity.
Qed.

Lemma span_len_firstn : forall p (s : str),
    forallb p (firstn (span_len p s) s) = true.
Proof.
  induction s as [|c s IH]; simpl; [reflexivity|].
  destruct (p c) eqn:E; simpl; [rewrite E; assumption | reflexivity].
Qed.

Lemma re_string_body_app : forall s n r,
    re_string_body s = Some n -> re_string_body (s ++ r) = Some n.
Proof.
  intros s. remember (length s) as m eqn:Hm. revert s Hm.
  induction m as [m IH] using lt_wf_ind. intros s Hm n r H.
  destruct s as [|c s]; simpl in *; [discriminate|].
  destruct (Ascii.eqb c dquote); [assumption|].
  destruct (Ascii.eqb c backslash).
  - destruct s as [|d s]; [discriminate|]. simpl.
    destruct (is_dot d); [|discriminate].
    destruct (re_string_body s) as [k|] eqn:E; [|discriminate].
    rewrite (IH (length s) ltac:(simpl in Hm; lia) s eq_refl k r E).
    assumption.
  - destruct (re_string_body s) as [k|] eqn:E; [|discriminate].
    rewrite (IH (length s) ltac:(lia) s eq_refl k r E). assumption.
Qed.

Lemma re_string_body_firstn : forall s n,
    re_string_body s = Some n -> re_string_body (firstn n s) = Some n.
Proof.
  intros s. remember (length s) as m eqn:Hm. revert s Hm.
  induction m as [m IH] using lt_wf_ind. intros s Hm n H.
  destruct s as [|c s]; simpl in *; [discriminate|].
  destruct (Ascii.eqb c dquote) eqn:Eq.
  { injection H as <-. simpl. rewrite Eq. reflexivity. }
  destruct (Ascii.eqb c backslash) eqn:Eb.
  - destruct s as [|d s]; [discriminate|].
    destruct (is_dot d) eqn:Ed; [|discriminate].
    destruct (re_string_body s) as [k|] eqn:E; [|discriminate].
    injection H as <-. simpl. rewrite Eq, Eb, Ed.
    rewrite (IH (length s) ltac:(simpl in Hm; lia) s eq_refl k E).
    reflexivity.
  - destruct (re_string_body s) as [k|] eqn:E; [|discriminate].
    injection H as <-. simpl. rewrite Eq, Eb.
    rewrite (IH (length s) ltac:(lia) s eq_refl k E). reflexivity.
Qed.

Lemma RE_STRING_app : forall s n r,
    RE_STRING s = Some n -> RE_STRING (s ++ r) = Some n.
Proof.
  intros [|c s] n r H; simpl in *; [discriminate|].
  destruct (Ascii.eqb c dquote); [|discriminate].
  destruct (re_string_body s) as [k|] eqn:E; [|discriminate].
  rewrite (re_string_body_app _ r E). assumption.
Qed.

Lemma RE_STRING_firstn : forall s n,
    RE_STRING s = Some n -> RE_STRING (firstn n s) = Some n.
Proof.
  intros [|c s] n H; simpl in *; [discriminate|].
  destruct (Ascii.eqb c dquote) eqn:Eq; [|discriminate].
  destruct (re_string_body s) as [k|] eqn:E; [|discriminate].
  injection H as <-. simpl. rewrite Eq, (re_string_body_firstn _ E).
  reflexivity.
Qed.

Lemma adv_app : forall a b p, adv (a ++ b) p = adv b (adv a p).
Proof. intros a b p. unfold adv. apply advance_app. Qed.

Lemma gen_ok_shape : forall g, gen_ok g -> g = gen_at (remaining g) (gen_pos g).
Proof.
  intros [[s ln lp ty]] H. unfold gen_ok in H. simpl in H. subst ty.
  reflexivity.
Qed.

Lemma skipn_length_app : forall (x r : str), skipn (length x) (x ++ r) = r.
Proof.
  intros x r. rewrite skipn_app, skipn_all, Nat.sub_diag. reflexivity.
Qed.

Lemma firstn_length_app : forall (x r : str), firstn (length x) (x ++ r) = x.
Proof.
  intros x r. rewrite firstn_app, firstn_all, Nat.sub_diag. simpl.
  apply app_nil_r.
Qed.

Lemma re_plus_app : forall p (x r : str),
    x <> [] -> forallb p x = true -> span_len p r = 0 ->
    re_plus p (x ++ r) = Some (length x).
Proof.
  intros p x r Hx Hp Hr. unfold re_plus.
  rewrite span_len_app, Hr, Nat.add_0_r by assumption.
  destruct x; [congruence | reflexivity].
Qed.

Lemma re_plus_head : forall p c (s : str), p c = false -> re_plus p (c :: s) = None.
Proof. intros p c s H. unfold re_plus. simpl. rewrite H. reflexivity. Qed.

(** A text that is a token is lexed as that token. *)
Lemma Next_token : forall ty x r p,
    is_token ty x r ->
    Next (gen_at (x ++ r) p) = (tok_at x p ty, gen_at r (adv x p)).
Proof.
  intros ty x r p H. unfold Next, gen_at, tok_at, adv. cbn [meta_token_].
  assert (Hc : Next_classify (mkToken (x ++ r) (fst p) (snd p) MALFORMED)
               = mkToken x (fst p) (snd p) ty).
  { unfold Next_classify, next_token_from_regex, set_span, set_type.
    cbn [span line_num line_pos type].
    destruct ty; cbn [is_token] in H.
    - contradiction.
    - destruct H as (Hx & Hp & Hr).
      unfold RE_WHITESPACE. rewrite re_plus_app by assumption.
      rewrite firstn_length_app. reflexivity.
    - pose proof (RE_STRING_some _ H) as Hl.
      destruct x as [|c x]; [simpl in Hl; lia|].
      assert (Ec : Ascii.eqb c dquote = true).
      { simpl in H. destruct (Ascii.eqb c dquote); [reflexivity|discriminate]. }
      assert (Ews : is_ws c = false).
      { apply Ascii.eqb_eq in Ec. subst c. reflexivity. }
      unfold RE_WHITESPACE. cbn [app]. rewrite re_plus_head by assumption.
      change (c :: x ++ r) with ((c :: x) ++ r).
      rewrite (RE_STRING_app _ r H), firstn_length_app. reflexivity.
    - destruct H as (Hx & Hp & Hr).
      destruct x as [|c x]; [congruence|].
      assert (Ew : is_word c = true).
      { simpl in Hp. apply andb_true_iff in Hp. tauto. }
      destruct (word_char _ Ew) as (Ews & Eq).
      unfold RE_WHITESPACE. cbn [app]. rewrite re_plus_head by assumption.
      cbn [RE_STRING]. rewrite Eq.
      change (c :: x ++ r) with ((c :: x) ++ r).
      unfold RE_WORD. rewrite re_plus_app by assumption.
      rewrite firstn_length_app. reflexivity.
    - destruct H as (c & -> & Hs).
      destruct (symbol_char _ Hs) as (Ews & Ewd & Eq).
      unfold RE_WHITESPACE, RE_WORD. cbn [app].
      rewrite !re_plus_head by assumption.
      cbn [RE_STRING RE_SYMBOL]. rewrite Eq, Hs. reflexivity. }
  rewrite Hc. cbn [span line_num line_pos type].
  rewrite skipn_length_app.
  destruct (advance x (fst p) (snd p)) as [ln lp]. reflexivity.
Qed.

(** Every token that is not malformed is the token of its text. *)
Lemma Next_is_token : forall g tok g',
    Next g = (tok, g') -> gen_ok g -> type tok <> MALFORMED ->
    is_token (type tok) (span tok) (remaining g')
    /\ tok = tok_at (span tok) (gen_pos g) (type tok)
    /\ g' = gen_at (remaining g') (adv (span tok) (gen_pos g)).
Proof.
  intros g tok g' H Hg Hm.
  pose proof (Next_type H Hg) as T.
  pose proof (Next_split _ H) as Hs.
  destruct (Next_positions _ H) as (Hl & Hp & Ha).
  pose proof (gen_ok_Next H Hg) as Hg'.
  split; [|split].
  - destruct (type tok) eqn:Ety; cbn [is_token].
    + congruence.
    + unfold RE_WHITESPACE, re_plus in T.
      destruct (span_len is_ws (remaining g)) as [|n] eqn:E; [discriminate|].
      injection T as T.
      assert (Hx : span tok = firstn (span_len is_ws (remaining g)) (remaining g)).
      { rewrite E, T, Hs, firstn_length_app. reflexivity. }
      assert (Hr : remaining g' = skipn (span_len is_ws (remaining g)) (remaining g)).
      { rewrite E, T, Hs, skipn_length_app. reflexivity. }
      split; [|split].
      * intros Hn. rewrite Hn in T. discriminate.
      * rewrite Hx. apply span_len_firstn.
      * rewrite Hr. apply span_len_skipn.
    + destruct T as (_ & T). apply RE_STRING_firstn in T.
      rewrite Hs in T at 1. rewrite firstn_length_app in T. exact T.
    + destruct T as (_ & _ & T). unfold RE_WORD, re_plus in T.
      destruct (span_len is_word (remaining g)) as [|n] eqn:E; [discriminate|].
      injection T as T.
      assert (Hx : span tok = firstn (span_len is_word (remaining g)) (remaining g)).
      { rewrite E, T, Hs, firstn_length_app. reflexivity. }
      assert (Hr : remaining g' = skipn (span_len is_word (remaining g)) (remaining g)).
      { rewrite E, T, Hs, skipn_length_app. reflexivity. }
      split; [|split].
      * intros Hn. rewrite Hn in T. discriminate.
      * rewrite Hx. apply span_len_firstn.
      * rewrite Hr. apply span_len_skipn.
    + destruct T as (_ & _ & _ & T).
      destruct (remaining g) as [|c s] eqn:Er; simpl in T; [discriminate|].
      destruct (is_symbol c) eqn:Es; [|discriminate]. injection T as T.
      exists c. split; [|assumption].
      destruct (span tok) as [|d [|d' x]]; simpl in T; try discriminate.
      simpl in Hs. congruence.
  - destruct tok as [x ln lp ty]. unfold tok_at, gen_pos. simpl in *.
    congruence.
  - rewrite (gen_ok_shape Hg') at 1. f_equal. unfold gen_pos, adv.
    cbn [fst snd]. rewrite Ha, Hl, Hp. reflexivity.
Qed.

End Tokens.

Section SkippingWhitespace.

Lemma gen_at_ok : forall s p, gen_ok (gen_at s p).
Proof. reflexivity. Qed.

Lemma gen_pos_gen_at : forall s p, gen_pos (gen_at s p) = p.
Proof. intros s [ln lp]. reflexivity. Qed.

(** A token that is not whitespace does not begin with whitespace. *)
Lemma is_token_not_ws_start : forall ty x r,
    is_token ty x r -> ty <> WHITESPACE -> span_len is_ws (x ++ r) = 0.
Proof.
  intros ty x r H Hty.
  destruct ty; cbn [is_token] in H; try contradiction; try congruence.
  - pose proof (RE_STRING_some _ H) as Hl.
    destruct x as [|c x]; [simpl in Hl; lia|]. simpl in H.
    destruct (Ascii.eqb c dquote) eqn:E; [|discriminate].
    apply Ascii.eqb_eq in E. subst c. reflexivity.
  - destruct H as (Hx & Hp & _). destruct x as [|c x]; [congruence|].
    simpl in Hp. apply andb_true_iff in Hp. destruct Hp as [Hc _].
    destruct (word_char _ Hc) as [Hw _]. simpl. rewrite Hw. reflexivity.
  - destruct H as (c & -> & Hs).
    destruct (symbol_char _ Hs) as (Hw & _). simpl. rewrite Hw. reflexivity.
Qed.

(** Only the greedy classes look at what follows the token. *)
Lemma is_token_tail : forall ty x r r2,
    is_token ty x r -> ty <> WHITESPACE ->
    (ty = WORD -> span_len is_word r2 = 0) ->
    is_token ty x r2.
Proof.
  intros ty x r r2 H Hty Hw.
  destruct ty; cbn [is_token] in *; auto; try congruence.
  destruct H as (Hx & Hp & _). auto.
Qed.

(** [NextNonWS] on whitespace followed by a token. *)
Lemma NextNonWS_token : forall ws ty x r p,
    forallb is_ws ws = true -> is_token ty x r -> ty <> WHITESPACE ->
    NextNonWS (gen_at (ws ++ x ++ r) p)
    = (tok_at x (adv ws p) ty, gen_at r (adv (ws ++ x) p)).
Proof.
  intros ws ty x r p Hws Htok Hty.
  rewrite NextNonWS_unfold by apply gen_at_ok.
  destruct ws as [|c ws].
  - cbn [app]. rewrite (Next_token _ _ _ p Htok). cbn [fst snd tok_at type].
    destruct (TokenType_eqb ty WHITESPACE) eqn:E.
    + apply TokenType_eqb_eq in E. contradiction.
    + reflexivity.
  - assert (Hw : is_token WHITESPACE (c :: ws) (x ++ r)).
    { cbn [is_token]. split; [discriminate|]. split; [assumption|].
      eapply is_token_not_ws_start; eassumption. }
    rewrite (Next_token _ _ _ p Hw). cbn [fst snd tok_at type TokenType_eqb].
    rewrite (Next_token _ _ _ _ Htok), adv_app. reflexivity.
Qed.

(** What [NextNonWS] returned, when it is not a malformed token, is
    whitespace followed by the token of its text. *)
Lemma NextNonWS_is_token : forall g tok g',
    NextNonWS g = (tok, g') -> gen_ok g -> type tok <> MALFORMED ->
    exists ws,
      forallb is_ws ws = true
      /\ remaining g = ws ++ span tok ++ remaining g'
      /\ is_token (type tok) (span tok) (remaining g')
      /\ type tok <> WHITESPACE
      /\ tok = tok_at (span tok) (adv ws (gen_pos g)) (type tok)
      /\ g' = gen_at (remaining g') (adv (ws ++ span tok) (gen_pos g)).
Proof.
  intros g tok g' H Hg Hm.
  destruct (NextNonWS_not_ws Hg H) as [Hws Hg'].
  rewrite NextNonWS_unfold in H by assumption.
  destruct (Next g) as [t g1] eqn:E. cbn [fst snd] in H.
  destruct (TokenType_eqb (type t) WHITESPACE) eqn:Ew.
  - apply TokenType_eqb_eq in Ew.
    assert (Hm1 : type t <> MALFORMED) by congruence.
    destruct (Next_is_token E Hg Hm1) as (T1 & Ht1 & Hg1).
    pose proof (gen_ok_Next E Hg) as Hok1.
    destruct (Next_is_token H Hok1 Hm) as (T2 & Ht2 & Hg2).
    rewrite Ew in T1. cbn [is_token] in T1. destruct T1 as (_ & Hall & _).
    assert (Hp1 : gen_pos g1 = adv (span t) (gen_pos g))
      by (rewrite Hg1; apply gen_pos_gen_at).
    rewrite Hp1 in Ht2, Hg2.
    exists (span t). repeat split; try assumption.
    + rewrite (Next_split _ E), (Next_split _ H). reflexivity.
    + rewrite adv_app. assumption.
  - injection H as -> ->.
    destruct (Next_is_token E Hg Hm) as (T1 & Ht1 & Hg1).
    exists []. repeat split; try assumption.
    apply (Next_split _ E).
Qed.

End SkippingWhitespace.

(** ** Writing and reading back *)

Section RoundTrip.

Lemma Val_nested_ind : forall P : Val -> Prop,
    (forall d isd l isl v,
        Forall (fun kv => P (snd kv)) d -> Forall P l ->
        P (mkVal d isd l isl v)) ->
    forall t, P t.
Proof.
  intros P H. fix IH 1. intros [d isd l isl v]. apply H.
  - revert d. fix IHd 1. intros [|kv d].
    + constructor.
    + constructor; [apply IH | apply IHd].
  - revert l. fix IHl 1. intros [|c l].
    + constructor.
    + constructor; [apply IH | apply IHl].
Qed.

Lemma write_dict : forall t indent,
    is_dict_ t = true ->
    write t indent
    = lit "{" ++ match dict_ t with
                 | [] => lit "}"
                 | _ :: _ =>
                     entries_text (indent ++ lit "   ") (dict_ t) false
                       ++ [newline] ++ indent ++ lit "}"
                 end.
Proof.
  intros [d isd l isl v] indent H. simpl in H. subst isd.
  cbn [write is_dict is_dict_ dict_].
  destruct d as [|kv d]; [reflexivity|].
  match goal with
  | |- context [?f d true] =>
      assert (Hloop : forall kvs b,
                 f kvs b = entries_text (indent ++ lit "   ") kvs b)
  end.
  { induction kvs as [|kv' kvs IH]; intros b; [reflexivity|].
    cbn [entries_text]. unfold entry_text. rewrite <- IH.
    rewrite <- !app_assoc. reflexivity. }
  rewrite Hloop. cbn [entries_text]. unfold entry_text.
  rewrite <- !app_assoc. reflexivity.
Qed.

Lemma write_list : forall t indent,
    is_dict_ t = false -> is_list_ t = true ->
    write t indent
    = lit "[" ++ match list_ t with
                 | [] => lit "]"
                 | _ :: _ =>
                     elems_text (indent ++ lit "   ") (list_ t) false
                       ++ [newline] ++ indent ++ lit "]"
                 end.
Proof.
  intros [d isd l isl v] indent H1 H2. simpl in H1, H2. subst isd isl.
  cbn [write is_dict is_list is_dict_ is_list_ list_].
  destruct l as [|c l]; [reflexivity|].
  match goal with
  | |- context [?f l true] =>
      assert (Hloop : forall vs b,
                 f vs b = elems_text (indent ++ lit "   ") vs b)
  end.
  { induction vs as [|c' vs IH]; intros b; [reflexivity|].
    cbn [elems_text]. unfold elem_text. rewrite <- IH.
    rewrite <- !app_assoc. reflexivity. }
  rewrite Hloop. cbn [elems_text]. unfold elem_text.
  rewrite <- !app_assoc. reflexivity.
Qed.

Lemma write_scalar : forall t indent,
    is_dict_ t = false -> is_list_ t = false -> write t indent = val_ t.
Proof.
  intros [d isd l isl v] indent H1 H2. simpl in H1, H2. subst isd isl.
  reflexivity.
Qed.

Lemma escape_body_string : forall k,
    re_string_body (escape_body k ++ [dquote])
    = Some (S (length (escape_body k))).
Proof.
  induction k as [|c k IH]; [reflexivity|].
  cbn [escape_body].
  destruct (Ascii.eqb c dquote) eqn:Eq.
  { apply Ascii.eqb_eq in Eq. subst c. cbn [orb app].
    cbn [re_string_body]. change (Ascii.eqb backslash dquote) with false.
    change (Ascii.eqb backslash backslash) with true.
    change (is_dot dquote) with true. cbv iota. rewrite IH. reflexivity. }
  destruct (Ascii.eqb c backslash) eqn:Eb.
  { apply Ascii.eqb_eq in Eb. subst c. cbn [orb app].
    cbn [re_string_body]. change (Ascii.eqb backslash dquote) with false.
    change (Ascii.eqb backslash backslash) with true.
    change (is_dot backslash) with true. cbv iota. rewrite IH. reflexivity. }
  cbn [orb app]. cbn [re_string_body]. rewrite Eq, Eb, IH. reflexivity.
Qed.

(** An escaped key is one STRING token, whatever follows it. *)
Lemma escape_is_token : forall k r, is_token STRING (escape k) r.
Proof.
  intros k r. cbn [is_token]. unfold escape. cbn [RE_STRING].
  change (Ascii.eqb dquote dquote) with true. cbv iota.
  rewrite escape_body_string. cbn [option_map length].
  rewrite length_app. cbn [length]. f_equal. lia.
Qed.

Lemma unescape_loop_escape : forall k w,
    unescape_loop (escape_body k) false w = (false, w ++ k).
Proof.
  induction k as [|c k IH]; intros w; simpl.
  - rewrite app_nil_r. reflexivity.
  - destruct (Ascii.eqb c dquote) eqn:Eq.
    { apply Ascii.eqb_eq in Eq. subst c. simpl.
      rewrite IH, <- app_assoc. reflexivity. }
    destruct (Ascii.eqb c backslash) eqn:Eb; simpl.
    + apply Ascii.eqb_eq in Eb. subst c. simpl.
      rewrite IH, <- app_assoc. reflexivity.
    + rewrite Eb. simpl. rewrite IH, <- app_assoc. reflexivity.
Qed.

(** Unescaping an escaped text gives the text back. *)
Lemma unescape_escape : forall k out, unescape (escape k) out = (true, k).
Proof.
  intros k out. unfold unescape.
  assert (Hlen : length (escape k) = S (S (length (escape_body k)))).
  { unfold escape. simpl. rewrite length_app. simpl. lia. }
  rewrite Hlen. cbn [Nat.ltb Nat.leb].
  assert (Hlast : nth (S (S (length (escape_body k))) - 1) (escape k) zero
                  = dquote).
  { unfold escape. simpl. apply nth_middle. }
  rewrite Hlast. cbn [nth escape]. change (Ascii.eqb dquote dquote) with true.
  cbn [negb orb].
  assert (Hint : interior (escape k) = escape_body k).
  { unfold interior, escape. cbn [tl]. apply removelast_last. }
  rewrite Hint, unescape_loop_escape. reflexivity.
Qed.

Lemma map_set_append : forall (A : Type) (d : list (str * A)) k v,
    Forall (fun x => str_ltb (fst x) k = true) d ->
    map_set k v d = d ++ [(k, v)].
Proof.
  induction d as [|[k' w] d IH]; intros k v H; [reflexivity|].
  inversion H as [|? ? Hk Hd]; subst. simpl in Hk. simpl.
  rewrite (str_ltb_asym _ _ Hk), Hk, IH by assumption. reflexivity.
Qed.

Lemma vec_set_append : forall (A : Type) (l : list A) v w,
    vec_set (length l) v (l ++ [w]) = l ++ [v].
Proof.
  induction l as [|c l IH]; intros v w; simpl; [reflexivity|].
  rewrite IH. reflexivity.
Qed.

(** Storing under a key above all the keys adds the entry at the end. *)
Lemma dict_store_append : forall k v entries,
    Forall (fun x => str_ltb (fst x) k = true) entries ->
    index_assign (index_key (snd (unescape (escape k) []))) v
                 (mkVal entries true [] false [])
    = mkVal (entries ++ [(k, v)]) true [] false [].
Proof.
  intros k v entries H. rewrite unescape_escape.
  unfold index_assign, index_key, set_dict, slot_assign.
  cbn [snd is_dict_ dict_ list_ is_list_ val_].
  rewrite map_update_set, map_set_append by assumption. reflexivity.
Qed.

(** Storing at the index that is the size adds the element at the end. *)
Lemma list_store_append : forall v elems,
    index_assign (index_pos (length elems)) v (mkVal [] false elems true [])
    = mkVal [] false (elems ++ [v]) true [].
Proof.
  intros v elems. unfold index_assign, index_pos, set_list, slot_assign.
  cbn [is_dict_ dict_ list_ is_list_ val_]. unfold push_until.
  replace (S (length elems) - length elems) with 1 by lia.
  cbn [repeat]. rewrite vec_set_append. reflexivity.
Qed.

Lemma symbol_is_token : forall c r, is_symbol c = true -> is_token SYMBOL [c] r.
Proof. intros c r H. exists c. split; [reflexivity | assumption]. Qed.

Lemma indent_plus_ws : forall indent,
    forallb is_ws indent = true ->
    forallb is_ws (newline :: indent ++ lit "   ") = true.
Proof.
  intros indent H. cbn [forallb]. rewrite forallb_app, H. reflexivity.
Qed.

Lemma closing_ws : forall indent,
    forallb is_ws indent = true -> forallb is_ws (newline :: indent) = true.
Proof. intros indent H. cbn [forallb]. rewrite H. reflexivity. Qed.

Lemma entries_text_cons : forall ip kv todo T,
    entries_text ip (kv :: todo) true ++ T
    = lit "," ++ [newline] ++ ip ++ escape (fst kv) ++ lit ": "
        ++ write (snd kv) ip ++ entries_text ip todo true ++ T.
Proof.
  intros ip kv todo T. cbn [entries_text]. unfold entry_text.
  rewrite <- !app_assoc. reflexivity.
Qed.

Lemma elems_text_cons : forall ip v todo T,
    elems_text ip (v :: todo) true ++ T
    = lit "," ++ [newline] ++ ip ++ write v ip ++ elems_text ip todo true ++ T.
Proof.
  intros ip v todo T. cbn [elems_text]. unfold elem_text.
  rewrite <- !app_assoc. reflexivity.
Qed.

(** The loop of [read] over the entries that [write] sent. *)
Lemma ReadsDict_entries : forall todo kv entries indent rest p e,
    Forall (fun kv => reads_back (snd kv)) (kv :: todo) ->
    StronglySorted key_lt (kv :: todo) ->
    Forall (fun x => key_lt x kv) entries ->
    forallb is_ws indent = true ->
    exists p',
      ReadsDict (mkVal entries true [] false [])
        (gen_at ([newline] ++ (indent ++ lit "   ") ++ escape (fst kv)
                   ++ lit ": " ++ write (snd kv) (indent ++ lit "   ")
                   ++ entries_text (indent ++ lit "   ") todo true
                   ++ [newline] ++ indent ++ lit "}" ++ rest) p) e
        (Some (mkVal (entries
                        ++ map (fun kv => (fst kv, norm (snd kv))) (kv :: todo))
                     true [] false []),
         gen_at rest p', e).
Proof.
  induction todo as [|kv' todo IH];
    intros [k v] entries indent rest p e Hrb Hsorted Hlt Hind;
    cbn [fst snd] in *.
  - inversion Hrb as [|? ? Hv _]; subst. cbn [snd] in Hv.
    set (ip := indent ++ lit "   ") in *.
    pose (R3 := [newline] ++ indent ++ lit "}" ++ rest).
    pose (R2 := space :: write v ip ++ R3).
    pose (R1 := lit ":" ++ R2).
    pose proof (@NextNonWS_token (newline :: ip) STRING (escape k) R1 p
                  (indent_plus_ws _ Hind) (escape_is_token k R1)
                  ltac:(discriminate)) as E1.
    pose proof (@NextNonWS_token [] SYMBOL (lit ":") R2
                  (adv ((newline :: ip) ++ escape k) p)
                  eq_refl (symbol_is_token ":" R2 eq_refl)
                  ltac:(discriminate)) as E2.
    destruct (Hv [space] ip R3 (adv ([] ++ lit ":") (adv ((newline :: ip) ++ escape k) p)) e
                 eq_refl ltac:(subst ip; rewrite forallb_app, Hind; reflexivity)
                 eq_refl) as [[p3 Hread] _].
    pose proof (@NextNonWS_token (newline :: indent) SYMBOL (lit "}") rest p3
                  (closing_ws _ Hind) (symbol_is_token "}" rest eq_refl)
                  ltac:(discriminate)) as E3.
    eexists.
    cbn [map fst snd]. rewrite <- (dict_store_append k (norm v) Hlt).
    eapply ReadsDict_close
      with (k := tok_at (escape k) (adv (newline :: ip) p) STRING).
    + exact E1.
    + reflexivity.
    + exact E2.
    + reflexivity.
    + exact Hread.
    + exact E3.
    + reflexivity.
  - inversion Hrb as [|? ? Hv Hrb']; subst. cbn [snd] in Hv.
    apply StronglySorted_inv in Hsorted. destruct Hsorted as [Hsorted' Hk].
    set (ip := indent ++ lit "   ") in *.
    rewrite entries_text_cons.
    pose (R4 := [newline] ++ ip ++ escape (fst kv') ++ lit ": "
                  ++ write (snd kv') ip ++ entries_text ip todo true
                  ++ [newline] ++ indent ++ lit "}" ++ rest).
    pose (R3 := lit "," ++ R4).
    pose (R2 := space :: write v ip ++ R3).
    pose (R1 := lit ":" ++ R2).
    pose proof (@NextNonWS_token (newline :: ip) STRING (escape k) R1 p
                  (indent_plus_ws _ Hind) (escape_is_token k R1)
                  ltac:(discriminate)) as E1.
    pose proof (@NextNonWS_token [] SYMBOL (lit ":") R2
                  (adv ((newline :: ip) ++ escape k) p)
                  eq_refl (symbol_is_token ":" R2 eq_refl)
                  ltac:(discriminate)) as E2.
    destruct (Hv [space] ip R3 (adv ([] ++ lit ":") (adv ((newline :: ip) ++ escape k) p)) e
                 eq_refl ltac:(subst ip; rewrite forallb_app, Hind; reflexivity)
                 eq_refl) as [[p3 Hread] _].
    pose proof (@NextNonWS_token [] SYMBOL (lit ",") R4 p3
                  eq_refl (symbol_is_token "," R4 eq_refl)
                  ltac:(discriminate)) as E3.
    assert (Hlt' : Forall (fun x => key_lt x kv') (entries ++ [(k, norm v)])).
    { inversion Hk as [|? ? Hkk _]; subst. apply Forall_app. split.
      - eapply Forall_impl; [|exact Hlt]. intros x Hx. unfold key_lt in *.
        eapply str_ltb_trans; eassumption.
      - constructor; [exact Hkk | constructor]. }
    destruct (IH kv' (entries ++ [(k, norm v)]) indent rest
                 (adv ([] ++ lit ",") p3) e Hrb' Hsorted' Hlt' Hind)
      as [p' Hloop].
    exists p'.
    rewrite <- (app_assoc entries [(k, norm v)]) in Hloop.
    rewrite <- (dict_store_append k (norm v) Hlt) in Hloop.
    eapply ReadsDict_next
      with (k := tok_at (escape k) (adv (newline :: ip) p) STRING).
    + exact E1.
    + reflexivity.
    + exact E2.
    + reflexivity.
    + exact Hread.
    + exact E3.
    + reflexivity.
    + reflexivity.
    + exact Hloop.
Qed.

(** The loop of [read] over the elements that [write] sent. *)
Lemma ReadsList_elems : forall todo v elems indent rest p e,
    Forall reads_back (v :: todo) ->
    forallb is_ws indent = true ->
    exists p',
      ReadsList (mkVal [] false elems true []) (length elems)
        (gen_at ([newline] ++ (indent ++ lit "   ")
                   ++ write v (indent ++ lit "   ")
                   ++ elems_text (indent ++ lit "   ") todo true
                   ++ [newline] ++ indent ++ lit "]" ++ rest) p) e
        (Some (mkVal [] false (elems ++ map norm (v :: todo)) true []),
         gen_at rest p', e).
Proof.
  induction todo as [|v' todo IH]; intros v elems indent rest p e Hrb Hind.
  - inversion Hrb as [|? ? Hv _]; subst.
    set (ip := indent ++ lit "   ") in *.
    pose (R3 := [newline] ++ indent ++ lit "]" ++ rest).
    destruct (Hv (newline :: ip) ip R3 p e
                 (indent_plus_ws _ Hind)
                 ltac:(subst ip; rewrite forallb_app, Hind; reflexivity)
                 eq_refl) as [[p3 Hread] _].
    pose proof (@NextNonWS_token (newline :: indent) SYMBOL (lit "]") rest p3
                  (closing_ws _ Hind) (symbol_is_token "]" rest eq_refl)
                  ltac:(discriminate)) as E3.
    eexists. cbn [map]. rewrite <- (list_store_append (norm v) elems).
    eapply ReadsList_close.
    + exact Hread.
    + exact E3.
    + reflexivity.
  - inversion Hrb as [|? ? Hv Hrb']; subst.
    set (ip := indent ++ lit "   ") in *.
    rewrite elems_text_cons.
    pose (R4 := [newline] ++ ip ++ write v' ip ++ elems_text ip todo true
                  ++ [newline] ++ indent ++ lit "]" ++ rest).
    pose (R3 := lit "," ++ R4).
    destruct (Hv (newline :: ip) ip R3 p e
                 (indent_plus_ws _ Hind)
                 ltac:(subst ip; rewrite forallb_app, Hind; reflexivity)
                 eq_refl) as [[p3 Hread] _].
    pose proof (@NextNonWS_token [] SYMBOL (lit ",") R4 p3
                  eq_refl (symbol_is_token "," R4 eq_refl)
                  ltac:(discriminate)) as E3.
    destruct (IH v' (elems ++ [norm v]) indent rest
                 (adv ([] ++ lit ",") p3) e Hrb' Hind) as [p' Hloop].
    exists p'.
    rewrite <- (app_assoc elems [norm v]) in Hloop.
    rewrite length_app in Hloop. cbn [length] in Hloop.
    rewrite <- (list_store_append (norm v) elems) in Hloop.
    eapply ReadsList_next.
    + exact Hread.
    + exact E3.
    + reflexivity.
    + reflexivity.
    + exact Hloop.
Qed.

Lemma word_not_bracket : forall c,
    is_word c = true ->
    Ascii.eqb c "{"%char = false /\ Ascii.eqb c "["%char = false
    /\ Ascii.eqb c "]"%char = false /\ Ascii.eqb c "}"%char = false.
Proof.
  intros [[] [] [] [] [] [] [] []]; vm_compute; repeat split; congruence.
Qed.

Ltac same_text :=
  cbn [dict_ list_ entries_text elems_text]; unfold entry_text, elem_text;
  repeat rewrite <- app_assoc; reflexivity.

(** The text of an atom is none of the brackets that [read] looks for. *)
Lemma atom_not_bracket : forall ty s r,
    is_token ty s r -> ty = STRING \/ ty = WORD ->
    str_eqb s (lit "{") = false /\ str_eqb s (lit "[") = false
    /\ str_eqb s (lit "]") = false /\ str_eqb s (lit "}") = false.
Proof.
  intros ty s r H [-> | ->]; cbn [is_token] in H.
  - pose proof (RE_STRING_some _ H) as Hl.
    destruct s as [|c s]; [simpl in Hl; lia|]. simpl in H.
    destruct (Ascii.eqb c dquote) eqn:E; [|discriminate].
    apply Ascii.eqb_eq in E. subst c. repeat split; reflexivity.
  - destruct H as (Hx & Hp & _). destruct s as [|c s]; [congruence|].
    simpl in Hp. apply andb_true_iff in Hp. destruct Hp as [Hc _].
    destruct (word_not_bracket _ Hc) as (H1 & H2 & H3 & H4).
    simpl. rewrite H1, H2, H3, H4. repeat split; reflexivity.
Qed.

(** Every well-formed tree is read back from its text. *)
Lemma Wellformed_reads_back : forall t, Wellformed t -> reads_back t.
Proof.
  induction t as [d isd l isl v IHd IHl] using Val_nested_ind.
  intros Hwf. inversion Hwf as [n Hdict Hlist Hatom]; subst.
  cbn [is_dict_ is_list_ dict_ list_ val_] in *.
  intros ws indent rest p e Hws Hind Hrest.
  destruct isd; [|destruct isl].
  - destruct (Hdict eq_refl) as [Hsorted Hall].
    pose proof (@NextNonWS_token ws SYMBOL (lit "{")) as Eopen.
    destruct d as [|kv todo].
    + specialize (Eopen (lit "}" ++ rest) p Hws
                        (symbol_is_token "{" _ eq_refl) ltac:(discriminate)).
      pose proof (@NextNonWS_token [] SYMBOL (lit "}") rest
                    (adv (ws ++ lit "{") p) eq_refl
                    (symbol_is_token "}" rest eq_refl)
                    ltac:(discriminate)) as Eclose.
      rewrite write_dict by reflexivity. cbn [dict_].
      rewrite <- app_assoc.
      split; [|rewrite Eopen; reflexivity].
      eexists. eapply Reads_dict_empty.
      * exact Eopen.
      * reflexivity.
      * exact Eclose.
      * reflexivity.
    + assert (Hrb : Forall (fun kv => reads_back (snd kv)) (kv :: todo)).
      { rewrite Forall_forall in *. intros x Hx. apply IHd; auto. }
      destruct (@ReadsDict_entries todo kv [] indent rest
                  (adv (ws ++ lit "{") p) e Hrb Hsorted
                  (Forall_nil _) Hind) as [p' Hloop].
      match type of Hloop with
      | ReadsDict _ (gen_at ?T _) _ _ =>
          specialize (Eopen T p Hws (symbol_is_token "{" _ eq_refl)
                            ltac:(discriminate));
          pose proof (@NextNonWS_token (newline :: indent ++ lit "   ") STRING
                        (escape (fst kv)) 
                        (lit ": " ++ write (snd kv) (indent ++ lit "   ")
                           ++ entries_text (indent ++ lit "   ") todo true
                           ++ [newline] ++ indent ++ lit "}" ++ rest)
                        (adv (ws ++ lit "{") p)
                        (indent_plus_ws _ Hind) (escape_is_token _ _)
                        ltac:(discriminate)) as Epeek;
          assert (Htext : ws ++ write (mkVal (kv :: todo) true l isl v) indent
                             ++ rest
                          = ws ++ lit "{" ++ T)
      end.
      { rewrite write_dict by reflexivity. same_text. }
      rewrite Htext. split; [|rewrite Eopen; reflexivity].
      exists p'. eapply Reads_dict.
      * exact Eopen.
      * reflexivity.
      * exact Epeek.
      * reflexivity.
      * exact Hloop.
  - specialize (Hlist eq_refl eq_refl).
    pose proof (@NextNonWS_token ws SYMBOL (lit "[")) as Eopen.
    destruct l as [|c todo].
    + specialize (Eopen (lit "]" ++ rest) p Hws
                        (symbol_is_token "[" _ eq_refl) ltac:(discriminate)).
      pose proof (@NextNonWS_token [] SYMBOL (lit "]") rest
                    (adv (ws ++ lit "[") p) eq_refl
                    (symbol_is_token "]" rest eq_refl)
                    ltac:(discriminate)) as Eclose.
      rewrite write_list by reflexivity. cbn [list_].
      rewrite <- app_assoc.
      split; [|rewrite Eopen; reflexivity].
      eexists. eapply Reads_list_empty.
      * exact Eopen.
      * reflexivity.
      * reflexivity.
      * exact Eclose.
      * reflexivity.
    + assert (Hrb : Forall reads_back (c :: todo)).
      { rewrite Forall_forall in *. intros x Hx. apply IHl; auto. }
      destruct (@ReadsList_elems todo c [] indent rest
                  (adv (ws ++ lit "[") p) e Hrb Hind) as [p' Hloop].
      inversion Hrb as [|? ? Hc _]; subst.
      match type of Hloop with
      | ReadsList _ _ (gen_at ?T _) _ _ =>
          specialize (Eopen T p Hws (symbol_is_token "[" _ eq_refl)
                            ltac:(discriminate));
          destruct (Hc (newline :: indent ++ lit "   ") (indent ++ lit "   ")
                       (elems_text (indent ++ lit "   ") todo true
                          ++ [newline] ++ indent ++ lit "]" ++ rest)
                       (adv (ws ++ lit "[") p) e
                       (indent_plus_ws _ Hind)
                       ltac:(rewrite forallb_app, Hind; reflexivity)
                       ltac:(destruct todo; reflexivity)) as [_ Hpeek];
          assert (Htext : ws ++ write (mkVal d false (c :: todo) true v) indent
                             ++ rest
                          = ws ++ lit "[" ++ T)
      end.
      { rewrite write_list by reflexivity. same_text. }
      rewrite Htext. split; [|rewrite Eopen; reflexivity].
      exists p'.
      match type of Hpeek with
      | tok_eq (fst (NextNonWS ?g)) _ = _ =>
          destruct (NextNonWS g) as [peek g2] eqn:Epeek
      end.
      cbn [fst] in Hpeek.
      eapply Reads_list.
      * exact Eopen.
      * reflexivity.
      * reflexivity.
      * exact Epeek.
      * exact Hpeek.
      * exact Hloop.
  - specialize (Hatom eq_refl eq_refl).
    rewrite write_scalar by reflexivity. cbn [val_].
    assert (Hty : exists ty, (ty = STRING \/ ty = WORD) /\ is_token ty v rest).
    { destruct Hatom as [H|H].
      - exists STRING. split; [auto|]. exact H.
      - exists WORD. split; [auto|]. cbn [is_token] in *.
        destruct H as (Hx & Hp & _). auto. }
    destruct Hty as (ty & Hty & Htok).
    assert (Hnws : ty <> WHITESPACE) by (destruct Hty; subst; discriminate).
    pose proof (@NextNonWS_token ws ty v rest p Hws Htok Hnws) as Eatom.
    destruct (@atom_not_bracket ty v rest Htok Hty) as (Hb1 & Hb2 & Hb3 & _).
    split; [|rewrite Eatom; exact Hb3].
    eexists. eapply Reads_atom with (tok := tok_at v (adv ws p) ty).
    + exact Eatom.
    + exact Hb1.
    + exact Hb2.
    + unfold fn_is_expected. cbn [tok_at type].
      destruct Hty; subst; reflexivity.
Qed.

Lemma entries_text_norm : forall ip kvs b,
    Forall (fun kv => forall indent,
                write (norm (snd kv)) indent = write (snd kv) indent) kvs ->
    entries_text ip (map (fun kv => (fst kv, norm (snd kv))) kvs) b
    = entries_text ip kvs b.
Proof.
  intros ip kvs b H. revert b.
  induction H as [|kv kvs Hkv _ IH]; intros b; [reflexivity|].
  cbn [map entries_text]. unfold entry_text. cbn [fst snd].
  rewrite Hkv, IH. reflexivity.
Qed.

Lemma elems_text_norm : forall ip vs b,
    Forall (fun v => forall indent, write (norm v) indent = write v indent) vs ->
    elems_text ip (map norm vs) b = elems_text ip vs b.
Proof.
  intros ip vs b H. revert b.
  induction H as [|c vs Hc _ IH]; intros b; [reflexivity|].
  cbn [map elems_text]. unfold elem_text. rewrite Hc, IH. reflexivity.
Qed.

(** [write] does not see the difference between a tree and the tree read
    back from its text. *)
Lemma write_norm : forall t indent, write (norm t) indent = write t indent.
Proof.
  induction t as [d isd l isl v IHd IHl] using Val_nested_ind.
  intros indent. destruct isd; [|destruct isl].
  - rewrite !write_dict by reflexivity. cbn [norm is_dict_ dict_].
    rewrite entries_text_norm by assumption.
    destruct d; reflexivity.
  - rewrite !write_list by reflexivity. cbn [norm is_dict_ is_list_ list_].
    rewrite elems_text_norm by assumption.
    destruct l; reflexivity.
  - reflexivity.
Qed.

Lemma Wellformed_intro : forall n,
    (is_dict_ n = true ->
     StronglySorted key_lt (dict_ n)
     /\ Forall (fun kv => Wellformed (snd kv)) (dict_ n)) ->
    (is_dict_ n = false -> is_list_ n = true -> Forall Wellformed (list_ n)) ->
    (is_dict_ n = false -> is_list_ n = false -> atom_text (val_ n)) ->
    Wellformed n.
Proof. intros. constructor; assumption. Qed.

(** A tree in key order whose scalars are atoms is well-formed. *)
Lemma sorted_atoms_Wellformed : forall t,
    KeysSorted t -> AtomTexts t -> Wellformed t.
Proof.
  induction t as [d isd l isl v IHd IHl] using Val_nested_ind.
  intros Hs Ha. destruct (KeysSorted_inv Hs) as (Hsd & Hsk & Hsl).
  inversion Ha as [n Had Hal Hav]; subst.
  cbn [dict_ list_ val_ is_dict_ is_list_] in *.
  apply Wellformed_intro; cbn [dict_ list_ val_ is_dict_ is_list_].
  - intros E. split; [assumption|]. specialize (Had E).
    rewrite Forall_forall in *. intros kv Hin. apply IHd; auto.
  - intros E1 E2. specialize (Hal E1 E2).
    rewrite Forall_forall in *. intros c Hin. apply IHl; auto.
  - assumption.
Qed.

End RoundTrip.

(** C1 as it is stated does not hold: a newly constructed node is written
    as the empty text, on which [read] fails. *)
Lemma empty_scalar_is_not_read_back : ~ rewrite_is_identical.
Proof.
  intros H. destruct (H Val_new [] Reach_new) as (t' & e & Hr & _).
  vm_compute in Hr. discriminate.
Qed.

(** C1 (as amended). For every tree a caller can hold (built with the
    members or returned by [read]) whose scalars each hold the text of one
    STRING or WORD token, and every base indentation made of whitespace
    only: reading the text that [write] produced succeeds without an error,
    and writing the tree that was read, with the same base indentation,
    gives the same text byte for byte. *)
Theorem write_read_write : forall t indent,
    Reachable t -> AtomTexts t -> forallb is_ws indent = true ->
    exists t',
      read (write t indent) [] = Some (Some t', [])
      /\ write t' indent = write t indent.
Proof.
  intros t indent Hreach Hatoms Hind.
  pose proof (sorted_atoms_Wellformed (Reachable_KeysSorted Hreach) Hatoms)
    as Hwf.
  exists (norm t). split; [|apply write_norm].
  destruct (Wellformed_reads_back Hwf [] indent [] (1%N, 1%N) []
              eq_refl Hind eq_refl) as [[p' Hread] _].
  cbn [app] in Hread. rewrite app_nil_r in Hread.
  apply read_gen_Reads in Hread. unfold read.
  change (TokenGen_new (write t indent)) with (gen_at (write t indent) (1%N, 1%N)).
  rewrite Hread. reflexivity.
Qed.

(** The theorem at an object built with the accessors, holding an array
    of a word and a string under one key and an empty object under
    another, written with a base indentation of two spaces. *)
Lemma write_read_write_witness :
  let one := val_assign (lit "1") Val_new in
  let x := val_assign (jlit "'x'") Val_new in
  let arr := index_assign (index_pos 1) x
               (index_assign (index_pos 0) one Val_new) in
  let t := index_assign (index_key (lit "a")) arr
             (index_assign (index_key (lit "b")) (set_dict Val_new) Val_new) in
  exists t',
    read (write t (lit "  ")) [] = Some (Some t', [])
    /\ write t' (lit "  ") = write t (lit "  ").
Proof.
  intros one x arr t.
  assert (Hone : Reachable one /\ AtomTexts one).
  { split; [apply Reach_val_assign, Reach_new|].
    constructor; cbn; try discriminate. intros _ _. right.
    cbn. repeat split. discriminate. }
  assert (Hx : Reachable x /\ AtomTexts x).
  { split; [apply Reach_val_assign, Reach_new|].
    constructor; cbn; try discriminate. intros _ _. left. reflexivity. }
  destruct Hone as [Ro Ao]. destruct Hx as [Rx Ax].
  apply write_read_write; [| |reflexivity].
  - apply Reach_assign_key.
    + apply Reach_assign_key; [apply Reach_new|].
      apply Reach_set_dict, Reach_new.
    + apply Reach_assign_pos; [|exact Rx].
      apply Reach_assign_pos; [apply Reach_new | exact Ro].
  - constructor; cbn; try discriminate. intros _.
    constructor; [|constructor; [|constructor]]; cbn.
    + constructor; cbn; try discriminate. intros _ _.
      constructor; [exact Ao|]. constructor; [exact Ax | constructor].
    + constructor; cbn; try discriminate. intros _. constructor.
Defined.

(** ** Text after a value *)

Section TrailingText.

(** A malformed token is all the input that was left, and no regular
    expression matches it. *)
Lemma NextNonWS_malformed : forall g tok g',
    NextNonWS g = (tok, g') -> gen_ok g -> type tok = MALFORMED ->
    RE_STRING (span tok) = None /\ RE_WORD (span tok) = None
    /\ RE_SYMBOL (span tok) = None.
Proof.
  intros g tok g' H Hg Hm. rewrite NextNonWS_unfold in H by assumption.
  destruct (Next g) as [t g1] eqn:E. cbn [fst snd] in H.
  assert (Hcase : forall g0 tok0 g0',
             Next g0 = (tok0, g0') -> gen_ok g0 -> type tok0 = MALFORMED ->
             RE_STRING (span tok0) = None /\ RE_WORD (span tok0) = None
             /\ RE_SYMBOL (span tok0) = None).
  { intros g0 tok0 g0' H0 Hg0 Hm0.
    pose proof (Next_type H0 Hg0) as T. rewrite Hm0 in T.
    destruct T as (_ & T2 & T3 & T4 & Hr).
    pose proof (Next_split _ H0) as Hs. rewrite Hr, app_nil_r in Hs.
    rewrite <- Hs. auto. }
  destruct (TokenType_eqb (type t) WHITESPACE).
  - apply (Hcase _ _ _ H (gen_ok_Next E Hg) Hm).
  - injection H as <- <-. apply (Hcase _ _ _ E Hg Hm).
Qed.

(** A token that is the text of a symbol is not malformed. *)
Lemma tok_eq_symbol : forall g tok g' c,
    NextNonWS g = (tok, g') -> gen_ok g ->
    tok_eq tok [c] = true -> is_symbol c = true ->
    type tok <> MALFORMED.
Proof.
  intros g tok g' c H Hg He Hs Hm.
  destruct (NextNonWS_malformed H Hg Hm) as (_ & _ & Hsym).
  apply str_eqb_eq in He. rewrite He in Hsym. simpl in Hsym.
  rewrite Hs in Hsym. discriminate.
Qed.

Lemma fn_is_expected_true : forall g tok g' c e e1,
    NextNonWS g = (tok, g') -> gen_ok g ->
    fn_is_expected tok (Some [c]) e = (true, e1) -> is_symbol c = true ->
    type tok <> MALFORMED /\ tok_eq tok [c] = true /\ e1 = e.
Proof.
  intros g tok g' c e e1 H Hg Hf Hs. unfold fn_is_expected in Hf.
  destruct (tok_eq tok [c]) eqn:E; [|discriminate].
  injection Hf as <-. split; [|auto].
  eapply tok_eq_symbol; eassumption.
Qed.

Ltac all_lengths :=
  repeat match goal with
    | H : NextNonWS _ = _ |- _ =>
        apply NextNonWS_length in H
    | H : Reads _ _ _ |- _ =>
        apply (proj1 Reads_length) in H; cbn [fst snd] in H
    | H : ReadsDict _ _ _ _ |- _ =>
        apply (proj1 (proj2 Reads_length)) in H; cbn [fst snd] in H
    | H : ReadsList _ _ _ _ _ |- _ =>
        apply (proj2 (proj2 Reads_length)) in H; cbn [fst snd] in H
    end.

(** The first token of a run that gives a tree is not malformed, and the
    run ends at or after the end of that token. *)
Lemma Reads_first_token :
  (forall g e r, Reads g e r ->
     gen_ok g -> fst (fst r) <> None ->
     forall tok g1, NextNonWS g = (tok, g1) ->
       type tok <> MALFORMED
       /\ length (remaining (snd (fst r))) <= length (remaining g1))
  /\ (forall cur g e r, ReadsDict cur g e r ->
        gen_ok g -> fst (fst r) <> None ->
        forall tok g1, NextNonWS g = (tok, g1) ->
          type tok <> MALFORMED
          /\ length (remaining (snd (fst r))) <= length (remaining g1))
  /\ (forall cur i g e r, ReadsList cur i g e r ->
        gen_ok g -> fst (fst r) <> None ->
        forall tok g1, NextNonWS g = (tok, g1) ->
          type tok <> MALFORMED
          /\ length (remaining (snd (fst r))) <= length (remaining g1)).
Proof.
  apply Reads_mutind; intros; cbn [fst snd] in *; try congruence;
    repeat match goal with
      | H1 : NextNonWS ?g = _, H2 : NextNonWS ?g = _ |- _ =>
          rewrite H1 in H2; injection H2 as <- <-
      end;
    repeat match goal with
      | IH : gen_ok ?g -> _ -> forall tok g1, NextNonWS ?g = _ -> _,
        Hg : gen_ok ?g, Hn : NextNonWS ?g = _ |- _ =>
          let Ht := fresh "Ht" in
          let Hl := fresh "Hl" in
          destruct (IH Hg ltac:(first [assumption | discriminate]) _ _ Hn)
            as [Ht Hl]; clear IH; cbn [fst snd] in Hl
      end;
    (split; [| all_lengths; lia]); try assumption;
    try (eapply tok_eq_symbol; eauto; fail);
    try (intros Hm; rewrite Hm in *; discriminate).
  unfold fn_is_expected in *.
  destruct (TokenType_eqb (type tok) MALFORMED) eqn:E; [discriminate|].
  intros Hm. rewrite Hm in E. discriminate.
Qed.

Lemma split_suffix : forall (a X c Y : str),
    a ++ X = c ++ Y -> length Y <= length X ->
    exists c1, c = a ++ c1 /\ X = c1 ++ Y.
Proof.
  induction a as [|x a IH]; intros X c Y H Hl; cbn [app] in *.
  - exists c. auto.
  - destruct c as [|y c]; cbn [app] in *.
    + subst Y. cbn [length] in Hl. rewrite length_app in Hl. lia.
    + injection H as -> H. destruct (@IH _ _ _ H Hl) as (c1 & -> & ->).
      exists c1. auto.
Qed.

Lemma span_len_head_app : forall p (l x y : str),
    l <> [] -> span_len p (l ++ x) = 0 -> span_len p (l ++ y) = 0.
Proof.
  intros p [|a l] x y Hl H; [congruence|]. cbn [app span_len] in *.
  destruct (p a); [discriminate | reflexivity].
Qed.

Lemma stops_nil : forall r, stops [] r.
Proof. intros r. right. reflexivity. Qed.

Lemma stops_suffix : forall a c1 r, stops (a ++ c1) r -> c1 <> [] -> stops c1 r.
Proof.
  intros a c1 r [H|H] Hc; [left; assumption|]. right.
  rewrite rev_app_distr in H.
  rewrite <- (app_nil_r (rev c1)).
  apply (@span_len_head_app is_word (rev c1) (rev a) []); [|assumption].
  intros Hn. apply Hc. rewrite <- (rev_involutive c1), Hn. reflexivity.
Qed.

Lemma stops_lift : forall a c1 r, stops c1 r -> c1 <> [] -> stops (a ++ c1) r.
Proof.
  intros a c1 r [H|H] Hc; [left; assumption|]. right.
  rewrite rev_app_distr.
  rewrite <- (app_nil_r (rev c1)) in H.
  apply (@span_len_head_app is_word (rev c1) [] (rev a)); [|assumption].
  intros Hn. apply Hc. rewrite <- (rev_involutive c1), Hn. reflexivity.
Qed.

Lemma stops_retail : forall c c3 r tail,
    stops c (c3 ++ r) -> c3 <> [] -> stops c (c3 ++ tail).
Proof.
  intros c c3 r tail [H|H] Hc; [left | right; assumption].
  eapply span_len_head_app; eassumption.
Qed.

(** A STRING token ends with its closing quote. *)
Lemma re_string_body_last : forall s,
    re_string_body s = Some (length s) -> exists s', s = s' ++ [dquote].
Proof.
  intros s. remember (length s) as m eqn:Hm. revert s Hm.
  induction m as [m IH] using lt_wf_ind. intros s Hm H.
  destruct s as [|c s]; simpl in *; [discriminate|].
  destruct (Ascii.eqb c dquote) eqn:Eq.
  { apply Ascii.eqb_eq in Eq. subst c m. injection H as H.
    destruct s; [|discriminate]. exists []. reflexivity. }
  destruct (Ascii.eqb c backslash).
  - destruct s as [|d s]; [discriminate|].
    destruct (is_dot d); [|discriminate].
    destruct (re_string_body s) as [k|] eqn:E; [|discriminate].
    simpl in Hm. subst m. injection H as H. subst k.
    destruct (IH (length s) ltac:(lia) s eq_refl E) as [s' ->].
    exists (c :: d :: s'). reflexivity.
  - destruct (re_string_body s) as [k|] eqn:E; [|discriminate].
    subst m. injection H as H. subst k.
    destruct (IH (length s) ltac:(lia) s eq_refl E) as [s' ->].
    exists (c :: s'). reflexivity.
Qed.

(** A token is at least one character long, and either its last character
    is not a word character or the text after it does not begin with
    one. *)
Lemma is_token_end : forall ty x r ws,
    is_token ty x r -> ty <> WHITESPACE ->
    x <> [] /\ stops (ws ++ x) r.
Proof.
  intros ty x r ws H Hty.
  destruct ty; cbn [is_token] in H; try contradiction; try congruence.
  - pose proof (RE_STRING_some _ H) as Hl.
    destruct x as [|c x]; [simpl in Hl; lia|]. split; [discriminate|].
    simpl in H. destruct (Ascii.eqb c dquote); [|discriminate].
    destruct (re_string_body x) as [k|] eqn:E; [|discriminate].
    injection H as H. subst k.
    destruct (re_string_body_last _ E) as [x' ->].
    right. change (c :: x' ++ [dquote]) with ((c :: x') ++ [dquote]).
    rewrite app_assoc, rev_app_distr. reflexivity.
  - destruct H as (Hx & _ & Hr). split; [assumption|]. left. assumption.
  - destruct H as (c & -> & Hs). split; [discriminate|]. right.
    rewrite rev_app_distr. simpl.
    destruct (symbol_char _ Hs) as (_ & Hw & _). rewrite Hw. reflexivity.
Qed.

(** A WORD token ends with a word character. *)
Lemma word_end : forall x ws,
    x <> [] -> forallb is_word x = true -> span_len is_word (rev (ws ++ x)) <> 0.
Proof.
  intros x ws Hx Hp. rewrite rev_app_distr.
  destruct x as [|c x] using rev_ind; [congruence|].
  rewrite rev_app_distr. simpl.
  rewrite forallb_app in Hp. apply andb_true_iff in Hp.
  destruct Hp as [_ Hc]. simpl in Hc. rewrite andb_true_r in Hc.
  rewrite Hc. discriminate.
Qed.

(** One token of a run, with other text after the value. *)
Lemma step_extend : forall g tok g1 c R,
    gen_ok g -> NextNonWS g = (tok, g1) -> type tok <> MALFORMED ->
    remaining g = c ++ R -> length R <= length (remaining g1) ->
    exists a c1,
      c = a ++ c1 /\ a <> [] /\ remaining g1 = c1 ++ R /\ gen_ok g1
      /\ (c1 = [] -> stops c R)
      /\ forall tail,
          stops c tail ->
          stops c1 tail
          /\ NextNonWS (gen_at (c ++ tail) (gen_pos g))
             = (tok, gen_at (c1 ++ tail) (gen_pos g1)).
Proof.
  intros g tok g1 c R Hg H Hm Hrem Hlen.
  destruct (NextNonWS_is_token H Hg Hm)
    as (ws & Hws & Hr & T & Hty & Ht & Hg1).
  rewrite Hrem, app_assoc in Hr. symmetry in Hr.
  destruct (@split_suffix _ _ _ _ Hr Hlen) as (c1 & Hc & Hr1).
  destruct (@is_token_end _ _ _ ws T Hty) as [Hx Hstop].
  exists (ws ++ span tok), c1. split; [assumption|].
  split; [destruct ws; [cbn [app]; assumption | discriminate]|].
  split; [assumption|].
  split; [rewrite Hg1; apply gen_at_ok|].
  split.
  { intros ->. rewrite app_nil_r in Hc. rewrite Hc.
    cbn [app] in Hr1. rewrite <- Hr1. assumption. }
  intros tail Hst.
  assert (Hst1 : stops c1 tail).
  { destruct c1 as [|x c1]; [apply stops_nil|].
    rewrite Hc in Hst. eapply stops_suffix; [eassumption | discriminate]. }
  split; [assumption|].
  assert (Hw : type tok = WORD -> span_len is_word (c1 ++ tail) = 0).
  { intros Hword. rewrite Hword in T. cbn [is_token] in T.
    destruct T as (_ & Hp & Hz).
    destruct c1 as [|x c1].
    - cbn [app]. rewrite Hc, app_nil_r in Hst. destruct Hst as [Hs|Hs];
        [assumption|]. exfalso. revert Hs. apply word_end; assumption.
    - rewrite Hr1 in Hz.
      eapply span_len_head_app; [discriminate | eassumption]. }
  pose proof (@NextNonWS_token ws (type tok) (span tok) (c1 ++ tail)
                (gen_pos g) Hws (@is_token_tail _ _ _ (c1 ++ tail) T Hty Hw) Hty)
    as E.
  rewrite Hc, <- !app_assoc, E, <- Ht. f_equal. f_equal.
  rewrite Hg1. symmetry. apply gen_pos_gen_at.
Qed.

Lemma NextNonWS_suffix : forall g tok g',
    NextNonWS g = (tok, g') -> exists a, remaining g = a ++ remaining g'.
Proof.
  intros g tok g'. unfold NextNonWS.
  generalize (S (length (span (meta_token_ g)))). intros fuel. revert g.
  induction fuel as [|fuel IH]; intros g H; simpl in H;
    destruct (Next g) as [t g1] eqn:E; apply Next_split in E;
    destruct (TokenType_eqb (type t) WHITESPACE);
    try (injection H as <- <-; eauto).
  destruct (IH _ H) as [a Ha]. exists (span t ++ a).
  rewrite E, Ha, app_assoc. reflexivity.
Qed.

(** What a run leaves is a suffix of what it started from. *)
Lemma Reads_suffix :
  (forall g e r, Reads g e r ->
                 exists c, remaining g = c ++ remaining (snd (fst r)))
  /\ (forall cur g e r, ReadsDict cur g e r ->
                        exists c, remaining g = c ++ remaining (snd (fst r)))
  /\ (forall cur i g e r, ReadsList cur i g e r ->
                          exists c, remaining g = c ++ remaining (snd (fst r))).
Proof.
  apply Reads_mutind; intros; cbn [fst snd] in *;
    repeat match goal with
      | H : NextNonWS _ = _ |- _ =>
          apply NextNonWS_suffix in H; destruct H
      | H : exists _, _ |- _ => destruct H
      end;
    repeat match goal with
      | H : remaining ?x = _ |- context [remaining ?x] =>
          rewrite H; clear H
      end;
    eexists; rewrite ?app_assoc; reflexivity.
Qed.

(** A value in the middle of a run, with other text after the run. *)
Lemma subrun_extend : forall g e v g3 e2 c R,
    extends_to Reads g e (Some v, g3, e2) ->
    Reads g e (Some v, g3, e2) -> gen_ok g ->
    remaining g = c ++ R -> length R < length (remaining g3) ->
    exists a c3,
      c = a ++ c3 /\ c3 <> [] /\ remaining g3 = c3 ++ R /\ gen_ok g3
      /\ forall tail,
          Reads (gen_at (c ++ tail) (gen_pos g)) e
                (Some v, gen_at (c3 ++ tail) (gen_pos g3), e2).
Proof.
  intros g e v g3 e2 c R IH Hrun Hg Hrem Hlen.
  destruct (proj1 Reads_suffix _ _ _ Hrun) as [a Ha]. cbn [fst snd] in Ha.
  rewrite Hrem in Ha. symmetry in Ha.
  destruct (@split_suffix _ _ _ _ Ha ltac:(lia)) as (c3 & Hc & Hr3).
  destruct (IH v g3 e2 eq_refl Hg a) as (_ & Hg3 & Hstop & Hext).
  { rewrite Hrem, Hc, Hr3, app_assoc. reflexivity. }
  assert (Hc3 : c3 <> []).
  { intros ->. cbn [app] in Hr3. rewrite Hr3 in Hlen. lia. }
  exists a, c3. repeat split; try assumption.
  intros tail. rewrite Hc, <- app_assoc. apply Hext.
  rewrite Hr3 in Hstop. eapply stops_retail; eassumption.
Qed.

Lemma fn_is_expected_tok_eq : forall tok s e e1,
    fn_is_expected tok (Some s) e = (true, e1) ->
    tok_eq tok s = true /\ e1 = e.
Proof.
  intros tok s e e1 H. unfold fn_is_expected in H.
  destruct (tok_eq tok s); [|discriminate]. injection H as <-. auto.
Qed.

Lemma STRING_not_malformed : forall k,
    TokenType_eqb (type k) STRING = true -> type k <> MALFORMED.
Proof. intros k H Hm. rewrite Hm in H. discriminate. Qed.

Lemma app_eq_self : forall (c r : str), r = c ++ r -> c = [].
Proof.
  intros c r H. apply (f_equal (@length ascii)) in H.
  rewrite length_app in H. destruct c; [reflexivity | simpl in H; lia].
Qed.

Lemma app_not_nil : forall (a c : str), a <> [] -> a ++ c <> [].
Proof. intros [|x a] c H; [congruence | discriminate]. Qed.


Lemma Reads_extend :
  (forall g e r, Reads g e r -> extends_to Reads g e r)
  /\ (forall cur g e r, ReadsDict cur g e r -> extends_to (ReadsDict cur) g e r)
  /\ (forall cur i g e r,
         ReadsList cur i g e r -> extends_to (ReadsList cur i) g e r).
Proof.
  apply Reads_mutind; intros; intros t g' e' Heq Hg c Hrem;
    try discriminate; try (injection Heq as <- <- <-); subst.
  - (* an empty object *)
    pose proof (@tok_eq_symbol _ _ _ _ H Hg H0 eq_refl) as Hm.
    pose proof (NextNonWS_length _ H1) as L1.
    destruct (@step_extend _ _ _ _ _ Hg H Hm Hrem ltac:(lia))
      as (a & c1 & Hc & Ha & Hr1 & Hg1 & _ & Hext1).
    pose proof (@tok_eq_symbol _ _ _ _ H1 Hg1 H2 eq_refl) as Hm1.
    destruct (@step_extend _ _ _ _ _ Hg1 H1 Hm1 Hr1 (le_n _))
      as (a2 & c2 & Hc2 & Ha2 & Hr2 & Hg2 & Hfin & Hext2).
    apply app_eq_self in Hr2. subst c2. rewrite app_nil_r in Hc2. subst c1.
    split; [subst c; apply app_not_nil; assumption|].
    split; [assumption|].
    split; [subst c; apply stops_lift; auto|].
    intros tail Hst. destruct (Hext1 tail Hst) as [Hst1 E1].
    destruct (Hext2 tail Hst1) as [_ E2].
    eapply Reads_dict_empty; eassumption.
  - (* an object with entries *)
    pose proof (@tok_eq_symbol _ _ _ _ H Hg H0 eq_refl) as Hm.
    pose proof (proj1 (proj2 Reads_length) _ _ _ _ H3) as L3.
    cbn [fst snd] in L3.
    destruct (@step_extend _ _ _ _ _ Hg H Hm Hrem L3)
      as (a & c1 & Hc & Ha & Hr1 & Hg1 & _ & Hext1).
    destruct (proj1 (proj2 Reads_first_token) _ _ _ _ H3 Hg1
                    ltac:(discriminate) _ _ H1) as [Hmp Lp].
    cbn [fst snd] in Lp.
    destruct (@step_extend _ _ _ _ _ Hg1 H1 Hmp Hr1 Lp)
      as (ap & cp & _ & _ & _ & _ & _ & Hextp).
    destruct (H4 _ _ _ eq_refl Hg1 c1 Hr1) as (Hc1 & Hg' & Hstop & Hextd).
    split; [subst c; apply app_not_nil; assumption|].
    split; [assumption|].
    split; [subst c; apply stops_lift; auto|].
    intros tail Hst. destruct (Hext1 tail Hst) as [Hst1 E1].
    destruct (Hextp tail Hst1) as [_ Ep].
    eapply Reads_dict; [exact E1 | assumption | exact Ep | assumption |].
    apply Hextd. assumption.
  - (* an empty array *)
    pose proof (@tok_eq_symbol _ _ _ _ H Hg H1 eq_refl) as Hm.
    pose proof (NextNonWS_length _ H2) as L1.
    destruct (@step_extend _ _ _ _ _ Hg H Hm Hrem ltac:(lia))
      as (a & c1 & Hc & Ha & Hr1 & Hg1 & _ & Hext1).
    pose proof (@tok_eq_symbol _ _ _ _ H2 Hg1 H3 eq_refl) as Hm1.
    destruct (@step_extend _ _ _ _ _ Hg1 H2 Hm1 Hr1 (le_n _))
      as (a2 & c2 & Hc2 & Ha2 & Hr2 & Hg2 & Hfin & Hext2).
    apply app_eq_self in Hr2. subst c2. rewrite app_nil_r in Hc2. subst c1.
    split; [subst c; apply app_not_nil; assumption|].
    split; [assumption|].
    split; [subst c; apply stops_lift; auto|].
    intros tail Hst. destruct (Hext1 tail Hst) as [Hst1 E1].
    destruct (Hext2 tail Hst1) as [_ E2].
    eapply Reads_list_empty; eassumption.
  - (* an array with elements *)
    pose proof (@tok_eq_symbol _ _ _ _ H Hg H1 eq_refl) as Hm.
    pose proof (proj2 (proj2 Reads_length) _ _ _ _ _ H4) as L3.
    cbn [fst snd] in L3.
    destruct (@step_extend _ _ _ _ _ Hg H Hm Hrem L3)
      as (a & c1 & Hc & Ha & Hr1 & Hg1 & _ & Hext1).
    destruct (proj2 (proj2 Reads_first_token) _ _ _ _ _ H4 Hg1
                    ltac:(discriminate) _ _ H2) as [Hmp Lp].
    cbn [fst snd] in Lp.
    destruct (@step_extend _ _ _ _ _ Hg1 H2 Hmp Hr1 Lp)
      as (ap & cp & _ & _ & _ & _ & _ & Hextp).
    destruct (H5 _ _ _ eq_refl Hg1 c1 Hr1) as (Hc1 & Hg' & Hstop & Hextd).
    split; [subst c; apply app_not_nil; assumption|].
    split; [assumption|].
    split; [subst c; apply stops_lift; auto|].
    intros tail Hst. destruct (Hext1 tail Hst) as [Hst1 E1].
    destruct (Hextp tail Hst1) as [_ Ep].
    eapply Reads_list;
      [exact E1 | assumption | assumption | exact Ep | assumption |].
    apply Hextd. assumption.
  - (* an atom *)
    assert (Hm : type tok <> MALFORMED).
    { unfold fn_is_expected in H2.
      destruct (TokenType_eqb (type tok) MALFORMED) eqn:E; [discriminate|].
      intros Hm. rewrite Hm in E. discriminate. }
    destruct (@step_extend _ _ _ _ _ Hg H Hm Hrem (le_n _))
      as (a & c1 & Hc & Ha & Hr1 & Hg1 & Hfin & Hext1).
    apply app_eq_self in Hr1. subst c1. rewrite app_nil_r in Hc. subst c.
    split; [assumption|]. split; [assumption|]. split; [auto|].
    intros tail Hst. destruct (Hext1 tail Hst) as [_ E1].
    eapply Reads_atom; eassumption.
  - (* the last entry of an object *)
    pose proof (STRING_not_malformed _ H0) as Hm.
    pose proof (NextNonWS_length _ H1) as L1.
    pose proof (proj1 Reads_length _ _ _ H3) as L3. cbn [fst snd] in L3.
    pose proof (NextNonWS_length _ H5) as L5.
    pose proof (tok_eq_length _ _ H6) as L6. simpl in L6.
    destruct (@step_extend _ _ _ _ _ Hg H Hm Hrem ltac:(lia))
      as (a1 & c1 & Hc & Ha & Hr1 & Hg1 & _ & Hext1).
    destruct (@fn_is_expected_true _ _ _ _ _ _ H1 Hg1 H2 eq_refl)
      as (Hm1 & _ & _).
    destruct (@step_extend _ _ _ _ _ Hg1 H1 Hm1 Hr1 ltac:(lia))
      as (a2 & c2 & Hc2 & Ha2 & Hr2 & Hg2 & _ & Hext2).
    destruct (@subrun_extend _ _ _ _ _ _ _ H4 H3 Hg2 Hr2 ltac:(lia))
      as (av & c3 & Hc3 & Hne3 & Hr3 & Hg3 & Hextv).
    pose proof (@tok_eq_symbol _ _ _ _ H5 Hg3 H6 eq_refl) as Hm3.
    destruct (@step_extend _ _ _ _ _ Hg3 H5 Hm3 Hr3 (le_n _))
      as (a4 & c4 & Hc4 & Ha4 & Hr4 & Hg4 & Hfin & Hext4).
    apply app_eq_self in Hr4. subst c4. rewrite app_nil_r in Hc4.
    split; [subst c; apply app_not_nil; assumption|].
    split; [assumption|].
    split.
    { subst c c1 c2. rewrite !app_assoc. apply stops_lift; auto. }
    intros tail Hst. destruct (Hext1 tail Hst) as [Hst1 E1].
    destruct (Hext2 tail Hst1) as [Hst2 E2].
    assert (Hst3 : stops c3 tail).
    { rewrite Hc3 in Hst2. eapply stops_suffix; eassumption. }
    destruct (Hext4 tail Hst3) as [_ E4].
    eapply ReadsDict_close;
      [exact E1 | assumption | exact E2 | eassumption | apply Hextv
      | exact E4 | assumption].
  - (* an entry followed by another *)
    pose proof (STRING_not_malformed _ H0) as Hm.
    pose proof (NextNonWS_length _ H1) as L1.
    pose proof (proj1 Reads_length _ _ _ H3) as L3. cbn [fst snd] in L3.
    pose proof (NextNonWS_length _ H5) as L5.
    pose proof (proj1 (proj2 Reads_length) _ _ _ _ H8) as L8.
    cbn [fst snd] in L8.
    destruct (@step_extend _ _ _ _ _ Hg H Hm Hrem ltac:(lia))
      as (a1 & c1 & Hc & Ha & Hr1 & Hg1 & _ & Hext1).
    destruct (@fn_is_expected_true _ _ _ _ _ _ H1 Hg1 H2 eq_refl)
      as (Hm1 & _ & _).
    destruct (@step_extend _ _ _ _ _ Hg1 H1 Hm1 Hr1 ltac:(lia))
      as (a2 & c2 & Hc2 & Ha2 & Hr2 & Hg2 & _ & Hext2).
    destruct (fn_is_expected_tok_eq _ _ _ H7) as [Hcomma _].
    pose proof (tok_eq_length _ _ Hcomma) as L7. simpl in L7.
    destruct (@subrun_extend _ _ _ _ _ _ _ H4 H3 Hg2 Hr2 ltac:(lia))
      as (av & c3 & Hc3 & Hne3 & Hr3 & Hg3 & Hextv).
    pose proof (@tok_eq_symbol _ _ _ _ H5 Hg3 Hcomma eq_refl) as Hm3.
    destruct (@step_extend _ _ _ _ _ Hg3 H5 Hm3 Hr3 L8)
      as (a4 & c4 & Hc4 & Ha4 & Hr4 & Hg4 & _ & Hext4).
    destruct (H9 _ _ _ eq_refl Hg4 c4 Hr4) as (Hne4 & Hg' & Hstop & Hextd).
    split; [subst c; apply app_not_nil; assumption|].
    split; [assumption|].
    split.
    { subst c c1 c2 c3. rewrite !app_assoc. apply stops_lift; auto. }
    intros tail Hst. destruct (Hext1 tail Hst) as [Hst1 E1].
    destruct (Hext2 tail Hst1) as [Hst2 E2].
    assert (Hst3 : stops c3 tail).
    { rewrite Hc3 in Hst2. eapply stops_suffix; eassumption. }
    destruct (Hext4 tail Hst3) as [Hst4 E4].
    eapply ReadsDict_next;
      [exact E1 | assumption | exact E2 | eassumption | apply Hextv
      | exact E4 | assumption | eassumption | apply Hextd; assumption].
  - (* the last element of an array *)
    pose proof (NextNonWS_length _ H1) as L2.
    pose proof (tok_eq_length _ _ H2) as L3. simpl in L3.
    destruct (@subrun_extend _ _ _ _ _ _ _ H0 H Hg Hrem ltac:(lia))
      as (av & c3 & Hc3 & Hne3 & Hr3 & Hg3 & Hextv).
    pose proof (@tok_eq_symbol _ _ _ _ H1 Hg3 H2 eq_refl) as Hm3.
    destruct (@step_extend _ _ _ _ _ Hg3 H1 Hm3 Hr3 (le_n _))
      as (a4 & c4 & Hc4 & Ha4 & Hr4 & Hg4 & Hfin & Hext4).
    apply app_eq_self in Hr4. subst c4. rewrite app_nil_r in Hc4.
    split; [subst c; intros Hn; apply app_eq_nil in Hn; tauto|].
    split; [assumption|].
    split; [subst c; apply stops_lift; auto|].
    intros tail Hst.
    assert (Hst3 : stops c3 tail).
    { rewrite Hc3 in Hst. eapply stops_suffix; eassumption. }
    destruct (Hext4 tail Hst3) as [_ E4].
    eapply ReadsList_close; [apply Hextv | exact E4 | assumption].
  - (* an element followed by another *)
    pose proof (NextNonWS_length _ H1) as L2.
    pose proof (proj2 (proj2 Reads_length) _ _ _ _ _ H4) as L5.
    cbn [fst snd] in L5.
    destruct (fn_is_expected_tok_eq _ _ _ H3) as [Hcomma _].
    pose proof (tok_eq_length _ _ Hcomma) as L4. simpl in L4.
    destruct (@subrun_extend _ _ _ _ _ _ _ H0 H Hg Hrem ltac:(lia))
      as (av & c3 & Hc3 & Hne3 & Hr3 & Hg3 & Hextv).
    pose proof (@tok_eq_symbol _ _ _ _ H1 Hg3 Hcomma eq_refl) as Hm3.
    destruct (@step_extend _ _ _ _ _ Hg3 H1 Hm3 Hr3 L5)
      as (a4 & c4 & Hc4 & Ha4 & Hr4 & Hg4 & _ & Hext4).
    destruct (H5 _ _ _ eq_refl Hg4 c4 Hr4) as (Hne4 & Hg' & Hstop & Hextd).
    split; [subst c; intros Hn; apply app_eq_nil in Hn; tauto|].
    split; [assumption|].
    split.
    { subst c c3. rewrite !app_assoc. apply stops_lift; auto. }
    intros tail Hst.
    assert (Hst3 : stops c3 tail).
    { rewrite Hc3 in Hst. eapply stops_suffix; eassumption. }
    destruct (Hext4 tail Hst3) as [Hst4 E4].
    eapply ReadsList_next;
      [apply Hextv | exact E4 | assumption | eassumption
      | apply Hextd; assumption].
Qed.

Lemma Reads_gen_ok : forall g e t g' e',
    Reads g e (Some t, g', e') -> gen_ok g -> gen_ok g'.
Proof.
  intros g e t g' e' H Hg.
  destruct (proj1 Reads_suffix _ _ _ H) as [c Hc]. cbn [fst snd] in Hc.
  destruct (proj1 Reads_extend _ _ _ H _ _ _ eq_refl Hg c Hc) as (_ & ? & _).
  assumption.
Qed.






End TrailingText.



(** ** The message of a failed read *)

Section ErrorMessages.

(** What [NextNonWS] takes from the input: whitespace and the text of the
    token it returns, which carries the position after the whitespace. *)
Lemma NextNonWS_consumes : forall g tok g',
    gen_ok g -> NextNonWS g = (tok, g') ->
    exists ws,
      forallb is_ws ws = true
      /\ remaining g = ws ++ span tok ++ remaining g'
      /\ (line_num tok, line_pos tok) = adv ws (gen_pos g).
Proof.
  intros g tok g' Hg H. rewrite NextNonWS_unfold in H by assumption.
  destruct (Next g) as [t g1] eqn:E. cbn [fst snd] in H.
  destruct (Next_positions _ E) as (El & Ep & Ea).
  destruct (TokenType_eqb (type t) WHITESPACE) eqn:Ew.
  - apply TokenType_eqb_eq in Ew.
    assert (Hm : type t <> MALFORMED) by (rewrite Ew; discriminate).
    destruct (Next_is_token E Hg Hm) as (T & _). rewrite Ew in T.
    destruct T as (_ & Hws & _).
    destruct (Next_positions _ H) as (Hl & Hp & _).
    exists (span t). split; [exact Hws|]. split.
    + rewrite (Next_split _ E), (Next_split _ H). reflexivity.
    + rewrite Hl, Hp, Ea, El, Ep. reflexivity.
  - injection H as <- <-. exists []. split; [reflexivity|]. split.
    + apply (Next_split _ E).
    + rewrite El, Ep. reflexivity.
Qed.

(** The message that [fn_err] makes for the token that [NextNonWS] just
    returned is the message for the token on which the reader stops. *)
Lemma token_error : forall input g tok g' expected,
    located input g -> gen_ok g -> NextNonWS g = (tok, g') ->
    rejected tok expected ->
    positioned_error input g' (fn_err tok expected).
Proof.
  intros input g tok g' expected (pre & Hin & Hpos) Hg H Hrej.
  destruct (NextNonWS_consumes Hg H) as (ws & Hws & Hr & Hp).
  assert (Hat : (line_num tok, line_pos tok) = advance (pre ++ ws) 1 1).
  { rewrite Hp, advance_app, <- Hpos. reflexivity. }
  exists pre, ws, tok, expected.
  split; [rewrite Hin, Hr; reflexivity|].
  split; [exact Hws|]. split.
  { rewrite <- Hr.
    replace (advance pre 1 1) with (gen_pos g) by exact Hpos.
    rewrite <- (gen_ok_shape Hg). exact H. }
  split; [exact Hat|]. split; [exact Hrej|].
  rewrite fn_err_cut. unfold error_message. rewrite <- Hat. reflexivity.
Qed.

Lemma rejected_symbol : forall tok s e e1,
    s = lit ":" \/ s = lit "," ->
    fn_is_expected tok (Some s) e = (false, e1) ->
    rejected tok ([dquote] ++ s ++ [dquote])
    /\ e1 = fn_err tok ([dquote] ++ s ++ [dquote]).
Proof.
  intros tok s e e1 Hs H. unfold fn_is_expected in H.
  destruct (tok_eq tok s) eqn:E; [discriminate|]. injection H as <-.
  split; [|reflexivity]. right. right. exists s.
  split; [exact Hs|]. split; [reflexivity|].
  intros Heq. unfold tok_eq in E. rewrite Heq in E.
  assert (str_eqb s s = true) by (apply str_eqb_eq; reflexivity).
  congruence.
Qed.

Lemma Reads_error :
  (forall g e r, Reads g e r -> fails_at_token g r)
  /\ (forall cur g e r, ReadsDict cur g e r -> fails_at_token g r)
  /\ (forall cur i g e r, ReadsList cur i g e r -> fails_at_token g r).
Proof.
  apply Reads_mutind; intros; intros Hg input Hin g' msg Heq;
    try discriminate; try (injection Heq as <- <-); subst.
  - (* an object with entries *)
    destruct (NextNonWS_not_ws Hg H) as [_ Hg1].
    apply (H4 Hg1 _ (NextNonWS_located Hin H) _ _ eq_refl).
  - (* an array with elements *)
    destruct (NextNonWS_not_ws Hg H) as [_ Hg1].
    apply (H5 Hg1 _ (NextNonWS_located Hin H) _ _ eq_refl).
  - (* a malformed atom *)
    unfold fn_is_expected in H2.
    destruct (TokenType_eqb (type tok) MALFORMED) eqn:Em;
      cbn [negb] in H2; [|discriminate].
    injection H2 as <-. apply TokenType_eqb_eq in Em.
    apply (token_error Hin Hg H). right. left. auto.
  - (* a key that is not a string *)
    apply (token_error Hin Hg H). left. split; [reflexivity|].
    intros Hs. rewrite Hs in H0. discriminate.
  - (* no colon after the key *)
    destruct (NextNonWS_not_ws Hg H) as [_ Hg1].
    destruct (@rejected_symbol colon (lit ":") e e1 (or_introl eq_refl) H2)
      as [Hrej ->].
    apply (token_error (NextNonWS_located Hin H) Hg1 H1 Hrej).
  - (* the value of an entry fails *)
    destruct (NextNonWS_not_ws Hg H) as [_ Hg1].
    destruct (NextNonWS_not_ws Hg1 H1) as [_ Hg2].
    apply (H4 Hg2 _ (NextNonWS_located (NextNonWS_located Hin H) H1)
              _ _ eq_refl).
  - (* neither a comma nor a brace after an entry *)
    destruct (NextNonWS_not_ws Hg H) as [_ Hg1].
    destruct (NextNonWS_not_ws Hg1 H1) as [_ Hg2].
    pose proof (NextNonWS_located (NextNonWS_located Hin H) H1) as Hin2.
    pose proof (Reads_gen_ok H3 Hg2) as Hg3.
    destruct (proj1 Reads_shape _ _ _ H3 _ Hin2) as [Hin3 _].
    cbn [fst snd] in Hin3.
    destruct (@rejected_symbol comma (lit ",") e2 e3 (or_intror eq_refl) H7)
      as [Hrej ->].
    apply (token_error Hin3 Hg3 H5 Hrej).
  - (* a later entry fails *)
    destruct (NextNonWS_not_ws Hg H) as [_ Hg1].
    destruct (NextNonWS_not_ws Hg1 H1) as [_ Hg2].
    pose proof (NextNonWS_located (NextNonWS_located Hin H) H1) as Hin2.
    pose proof (Reads_gen_ok H3 Hg2) as Hg3.
    destruct (proj1 Reads_shape _ _ _ H3 _ Hin2) as [Hin3 _].
    cbn [fst snd] in Hin3.
    destruct (NextNonWS_not_ws Hg3 H5) as [_ Hg4].
    apply (H9 Hg4 _ (NextNonWS_located Hin3 H5) _ _ eq_refl).
  - (* an element fails *)
    apply (H0 Hg _ Hin _ _ eq_refl).
  - (* neither a comma nor a bracket after an element *)
    pose proof (Reads_gen_ok H Hg) as Hg3.
    destruct (proj1 Reads_shape _ _ _ H _ Hin) as [Hin3 _].
    cbn [fst snd] in Hin3.
    destruct (@rejected_symbol comma (lit ",") e2 e3 (or_intror eq_refl) H3)
      as [Hrej ->].
    apply (token_error Hin3 Hg3 H1 Hrej).
  - (* a later element fails *)
    pose proof (Reads_gen_ok H Hg) as Hg3.
    destruct (proj1 Reads_shape _ _ _ H _ Hin) as [Hin3 _].
    cbn [fst snd] in Hin3.
    destruct (NextNonWS_not_ws Hg3 H1) as [_ Hg4].
    apply (H5 Hg4 _ (NextNonWS_located Hin3 H1) _ _ eq_refl).
Qed.

Lemma error_message_not_empty : forall pre text expected,
    error_message pre text expected <> [].
Proof. intros pre text expected. discriminate. Qed.

End ErrorMessages.

(** C4 as it is stated does not hold: [read] does not empty the error
    string, so that a tree comes with the text that the caller passed. *)
Lemma tree_with_stale_error : ~ tree_with_empty_error.
Proof.
  intros H. destruct (H (lit "1") (lit "stale")) as (r & e & Hr & Hm).
  vm_compute in Hr. injection Hr as <- <-. discriminate Hm.
Qed.

(** C4 (as amended). For every input and every content of the error
    string at entry, [read] returns either a tree and leaves the error
    string as it was at entry, so empty when it was passed empty, or no
    tree and an error message that is not empty. The message is the one
    for the token on which the reader stopped, the last token taken from
    the input: it gives the line and the column of the first character of
    that token, what the reader expected and the token is not, and the text
    of the token cut to at most 20 characters. *)
Theorem read_tree_or_positioned_error : forall input out_err,
    exists r g' e,
      read_gen (TokenGen_new input) out_err = Some (r, g', e)
      /\ read input out_err = Some (r, e)
      /\ match r with
         | Some _ => e = out_err
         | None => e <> [] /\ positioned_error input g' e
         end.
Proof.
  intros input out_err.
  destruct (read_gen_total (TokenGen_new input) out_err) as [[[r g'] e] H].
  exists r, g', e. split; [exact H|].
  split; [unfold read; rewrite H; reflexivity|].
  apply read_gen_Reads in H. destruct r as [t|].
  - destruct (proj1 Reads_shape _ _ _ H input (TokenGen_new_located input))
      as [_ He].
    apply He. discriminate.
  - pose proof (proj1 Reads_error _ _ _ H eq_refl input
                      (TokenGen_new_located input) _ _ eq_refl) as Hp.
    split; [|exact Hp].
    destruct Hp as (before & skipped & tok & expected & _ & _ & _ & _ & _ & ->).
    apply error_message_not_empty.
Qed.

(** ** The number of a scalar *)

Section Numbers.

Import PrimFloat.

(** C9. [as_number] on a node whose scalar text is [3.14] returns success
    and stores the double nearest to 3.14, whatever the global locale of
    the program is; on [12abc] it returns success and stores 12, the
    number that begins the text, and leaves the characters after it; on
    [abc], which no number begins, it returns failure and stores
    nothing. *)
Theorem as_number_examples : forall global d bd l bl out ret,
    as_number global (mkVal d bd l bl (lit "3.14")) out ret
    = (true, 0x1.91eb851eb851fp+1%float)
    /\ nearest_double 314 100 0x1.91eb851eb851fp+1%float
    /\ as_number global (mkVal d bd l bl (lit "12abc")) out ret
       = (true, 12%float)
    /\ nearest_double 12 1 12%float
    /\ as_number global (mkVal d bd l bl (lit "abc")) out ret = (false, out).
Proof.
  intros global d bd l bl out ret.
  split; [vm_compute; reflexivity|].
  split; [vm_compute; repeat split|].
  split; [vm_compute; reflexivity|].
  split; [vm_compute; repeat split|].
  vm_compute. reflexivity.
Qed.

End Numbers.

(* ================================================================== *)
(** * Further properties of the code *)

(** ** The escaper and the STRING tokens *)

Section EscaperAndStrings.

(** The loop of [unescape] accepts what [RE_STRING] matched between the
    quotes. *)
Lemma re_string_body_unescape : forall n s w,
    length s <= n ->
    re_string_body (s ++ [dquote]) = Some (S (length s)) ->
    exists t, unescape_loop s false w = (false, w ++ t).
Proof.
  induction n as [|n IH]; intros s w Hn H.
  - destruct s; [|simpl in Hn; lia]. exists []. rewrite app_nil_r. reflexivity.
  - destruct s as [|c s].
    { exists []. rewrite app_nil_r. reflexivity. }
    cbn [app re_string_body length] in H. cbn [unescape_loop negb andb].
    destruct (Ascii.eqb c dquote) eqn:Eq.
    { injection H as H. destruct s; discriminate. }
    destruct (Ascii.eqb c backslash) eqn:Eb.
    + destruct s as [|d s]; cbn [app] in H.
      { cbn in H. discriminate. }
      destruct (is_dot d); [|discriminate].
      destruct (re_string_body (s ++ [dquote])) as [k|] eqn:E; [|discriminate].
      cbn [option_map length] in H. injection H as H. subst k.
      cbn [unescape_loop negb andb].
      destruct (IH s (w ++ [d]) ltac:(simpl in Hn; lia) E) as [t Ht].
      exists (d :: t). rewrite Ht, <- app_assoc. reflexivity.
    + destruct (re_string_body (s ++ [dquote])) as [k|] eqn:E; [|discriminate].
      cbn [option_map] in H. injection H as H. subst k.
      destruct (IH s (w ++ [c]) ltac:(simpl in Hn; lia) E) as [t Ht].
      exists (c :: t). rewrite Ht, <- app_assoc. reflexivity.
Qed.

Lemma interior_quoted : forall body,
    interior (dquote :: body ++ [dquote]) = body.
Proof. intros body. unfold interior. cbn [tl]. apply removelast_last. Qed.

Lemma unescape_quoted : forall body out,
    unescape (dquote :: body ++ [dquote]) out
    = (let '(in_escape, wip) := unescape_loop body false [] in
       if in_escape then (false, out) else (true, wip)).
Proof.
  intros body out. unfold unescape.
  rewrite interior_quoted.
  assert (Hl : length (dquote :: body ++ [dquote]) = S (S (length body))).
  { cbn [length]. rewrite length_app. cbn [length]. lia. }
  rewrite Hl. cbn [Nat.ltb Nat.leb].
  replace (S (S (length body)) - 1) with (S (length body)) by lia.
  cbn [nth]. rewrite app_nth2 by lia. rewrite Nat.sub_diag. cbn [nth].
  reflexivity.
Qed.

Lemma RE_STRING_unescape : forall s out,
    RE_STRING s = Some (length s) ->
    exists text, unescape s out = (true, text).
Proof.
  intros s out H. destruct s as [|c s]; [discriminate|].
  cbn [RE_STRING] in H. destruct (Ascii.eqb c dquote) eqn:Eq; [|discriminate].
  apply Ascii.eqb_eq in Eq. subst c.
  destruct (re_string_body s) as [k|] eqn:E; [|discriminate].
  cbn [option_map length] in H. injection H as H. subst k.
  destruct (re_string_body_last _ E) as [body ->].
  rewrite length_app in E. cbn [length] in E.
  replace (length body + 1) with (S (length body)) in E by lia.
  destruct (@re_string_body_unescape (length body) body [] (le_n _) E)
    as [t Ht].
  exists t. rewrite unescape_quoted, Ht. reflexivity.
Qed.

End EscaperAndStrings.

(** X1. What [escape] produces is read back by [unescape] as the text that
    was escaped, whatever [*out] held; it is matched by [RE_STRING] as one
    token that ends at its closing quote, whatever text follows it; and two
    texts with the same escaped form are the same text. *)
Theorem escape_round_trip : forall s,
    (forall out, unescape (escape s) out = (true, s))
    /\ (forall r, RE_STRING (escape s ++ r) = Some (length (escape s)))
    /\ (forall s', escape s = escape s' -> s = s').
Proof.
  intros s. split; [|split].
  - intros out. apply unescape_escape.
  - intros r. apply RE_STRING_app. exact (escape_is_token s []).
  - intros s' H.
    pose proof (unescape_escape s []) as H1. rewrite H in H1.
    rewrite unescape_escape in H1. congruence.
Qed.

(** X2. The text of every token that the tokenizer classifies as a STRING
    is accepted by [unescape]: the result that [read] discards when it
    unescapes a key is always [true]. *)
Theorem string_token_unescapes : forall g k g' out,
    gen_ok g -> NextNonWS g = (k, g') -> type k = STRING ->
    exists text, unescape (tok_str k) out = (true, text).
Proof.
  intros g k g' out Hg H Hty.
  assert (Hm : type k <> MALFORMED) by (rewrite Hty; discriminate).
  destruct (NextNonWS_is_token H Hg Hm) as (ws & _ & _ & T & _).
  rewrite Hty in T. cbn [is_token] in T.
  apply RE_STRING_unescape. exact T.
Qed.

(** The theorem at a key in which a quote and a backslash are escaped. *)
Lemma string_token_unescapes_witness :
  exists text,
    unescape (tok_str (fst (NextNonWS (TokenGen_new (jlit " 'a\'b\\' : 1")))))
             (lit "old")
    = (true, text).
Proof.
  apply (@string_token_unescapes
           (TokenGen_new (jlit " 'a\'b\\' : 1")) _
           (snd (NextNonWS (TokenGen_new (jlit " 'a\'b\\' : 1"))))
           (lit "old") eq_refl).
  - reflexivity.
  - reflexivity.
Defined.

(** ** The tokenizer *)

Section TokenizerSteps.

(** What [Next] returns, by the first regular expression that matches. *)
Lemma Next_gen_at : forall s p,
    Next (gen_at s p)
    = (let ret := Next_classify (mkToken s (fst p) (snd p) MALFORMED) in
       (ret, gen_at (skipn (length (span ret)) s) (adv (span ret) p))).
Proof.
  intros s p. unfold Next, gen_at, adv. cbn [meta_token_ span line_num line_pos type].
  destruct (Next_classify_cases (mkToken s (fst p) (snd p) MALFORMED))
    as [(n & _ & ->) | [(n & _ & _ & ->) | [(n & _ & _ & _ & ->)
       | [(n & _ & _ & _ & _ & ->) | (_ & _ & _ & _ & ->)]]]];
    cbn [span line_num line_pos];
    destruct (advance _ (fst p) (snd p)); reflexivity.
Qed.

Lemma Next_unmatched : forall s p,
    RE_WHITESPACE s = None -> RE_STRING s = None -> RE_WORD s = None ->
    RE_SYMBOL s = None ->
    Next (gen_at s p) = (tok_at s p MALFORMED, gen_at [] (adv s p)).
Proof.
  intros s p H1 H2 H3 H4. rewrite Next_gen_at.
  unfold Next_classify, next_token_from_regex. cbn [span].
  rewrite H1, H2, H3, H4. cbn [span]. rewrite skipn_all. reflexivity.
Qed.

End TokenizerSteps.

(** X3. [Next] never loses input and never stalls: the text of the token
    followed by what the generator has left is what the generator had,
    the token is at least one character long unless the input is exhausted,
    and at the end of the input [Next] returns an empty token and leaves the
    generator as it was. *)
Theorem Next_consumes : forall g,
    remaining g = span (fst (Next g)) ++ remaining (snd (Next g))
    /\ (remaining g <> [] -> span (fst (Next g)) <> [])
    /\ (remaining g = [] -> Next g = (meta_token_ g, g)).
Proof.
  intros g. destruct (Next g) as [tok g'] eqn:E. cbn [fst snd].
  split; [apply Next_split; exact E|]. split.
  - intros Hne Hs. unfold Next in E.
    destruct (advance _ _ _) as [ln lp]. injection E as E _.
    rewrite <- E in Hs. clear E.
    destruct (Next_classify_cases (meta_token_ g))
      as [(n & R & C) | [(n & _ & R & C) | [(n & _ & _ & R & C)
         | [(n & _ & _ & _ & R & C) | (_ & _ & _ & _ & C)]]]];
      rewrite C in Hs; cbn [span] in Hs.
    + apply re_plus_some in R. unfold remaining in Hne.
      destruct (span (meta_token_ g)); [congruence|].
      destruct n; [lia | discriminate].
    + apply RE_STRING_some in R. unfold remaining in Hne.
      destruct (span (meta_token_ g)); [congruence|].
      destruct n; [lia | discriminate].
    + apply re_plus_some in R. unfold remaining in Hne.
      destruct (span (meta_token_ g)); [congruence|].
      destruct n; [lia | discriminate].
    + apply RE_SYMBOL_some in R. destruct R as [-> _]. unfold remaining in Hne.
      destruct (span (meta_token_ g)); [congruence | discriminate].
    + exact (Hne Hs).
  - intros Hr. rewrite <- E. destruct g as [[s ln lp ty]].
    unfold remaining in Hr. cbn [meta_token_ span] in Hr. subst s.
    reflexivity.
Qed.

(** X4. The first character decides the class of the token, and the token
    of a greedy class is the longest run of its characters: whitespace
    gives a WHITESPACE token, a word character a WORD token, one of the six
    symbols a SYMBOL token of that character alone; a double quote gives a
    STRING token when [RE_STRING] matches and otherwise, like any other
    character, a MALFORMED token that is all the input left. *)
Theorem Next_by_first_char : forall c s p,
    let input := c :: s in
    let tok := fst (Next (gen_at input p)) in
    (is_ws c = true ->
     tok = tok_at (firstn (span_len is_ws input) input) p WHITESPACE)
    /\ (is_word c = true ->
        tok = tok_at (firstn (span_len is_word input) input) p WORD)
    /\ (is_symbol c = true -> tok = tok_at [c] p SYMBOL)
    /\ (c = dquote ->
        match RE_STRING input with
        | Some n => tok = tok_at (firstn n input) p STRING
        | None => tok = tok_at input p MALFORMED
        end)
    /\ (is_ws c = false -> is_word c = false -> is_symbol c = false ->
        c <> dquote -> tok = tok_at input p MALFORMED).
Proof.
  intros c s p input tok. subst tok. rewrite Next_gen_at. cbn [fst].
  unfold Next_classify, next_token_from_regex, RE_WHITESPACE, RE_WORD, re_plus.
  subst input. cbn [span RE_SYMBOL RE_STRING span_len].
  repeat split.
  - intros Hc. rewrite Hc. reflexivity.
  - intros Hc. destruct (word_char _ Hc) as [Hw Hq]. rewrite Hw, Hq, Hc.
    reflexivity.
  - intros Hc. destruct (symbol_char _ Hc) as (Hw & Hd & Hq).
    rewrite Hw, Hq, Hd, Hc. reflexivity.
  - intros ->. cbn [is_ws Ascii.eqb].
    change (is_ws dquote) with false. change (Ascii.eqb dquote dquote) with true.
    change (is_word dquote) with false. change (is_symbol dquote) with false.
    cbv iota.
    destruct (re_string_body s) as [k|]; reflexivity.
  - intros Hw Hd Hs Hq. rewrite Hw, Hd, Hs.
    destruct (Ascii.eqb c dquote) eqn:E; [|reflexivity].
    apply Ascii.eqb_eq in E. contradiction.
Qed.

Section LineAndColumn.

Local Open Scope N_scope.

Lemma u64_succ_lt : forall x, u64_succ x < 2 ^ 64.
Proof. intros x. unfold u64_succ. apply N.mod_lt. discriminate. Qed.

Lemma advance_line : forall s ln lp,
    ln < 2 ^ 64 ->
    fst (advance s ln lp)
    = (ln + N.of_nat (count_occ ascii_dec s newline)) mod 2 ^ 64.
Proof.
  induction s as [|c s IH]; intros ln lp Hln.
  - cbn. rewrite N.add_0_r, N.mod_small by assumption. reflexivity.
  - cbn [advance]. destruct (Ascii.eqb c newline) eqn:E.
    + apply Ascii.eqb_eq in E. subst c.
      rewrite count_occ_cons_eq by reflexivity.
      rewrite IH by apply u64_succ_lt. unfold u64_succ.
      rewrite N.Div0.add_mod_idemp_l. f_equal. lia.
    + apply Ascii.eqb_neq in E.
      rewrite count_occ_cons_neq by assumption. apply IH. assumption.
Qed.

Lemma advance_column : forall s ln lp,
    lp < 2 ^ 64 -> ~ In newline s ->
    snd (advance s ln lp) = (lp + N.of_nat (length s)) mod 2 ^ 64.
Proof.
  induction s as [|c s IH]; intros ln lp Hlp Hn.
  - cbn. rewrite N.add_0_r, N.mod_small by assumption. reflexivity.
  - cbn [advance]. destruct (Ascii.eqb c newline) eqn:E.
    + apply Ascii.eqb_eq in E. subst c. exfalso. apply Hn. left. reflexivity.
    + rewrite IH; [|apply u64_succ_lt | intros Hin; apply Hn; right; exact Hin].
      unfold u64_succ. rewrite N.Div0.add_mod_idemp_l. f_equal.
      cbn [length]. lia.
Qed.

End LineAndColumn.

(** X5. The line and column that the loop of [Next] computes, as 64-bit
    counters: the line goes up by the number of newline characters; on a
    text without a newline the column goes up by the length of the text;
    after a newline the column is one more than the number of characters
    that follow the last newline, so that the first character of a line is
    at column 1. Tabs and carriage returns count as one column. *)
Theorem advance_line_column : forall s ln lp,
    (ln < 2 ^ 64)%N -> (lp < 2 ^ 64)%N ->
    fst (advance s ln lp)
    = ((ln + N.of_nat (count_occ ascii_dec s newline)) mod 2 ^ 64)%N
    /\ (~ In newline s ->
        snd (advance s ln lp) = ((lp + N.of_nat (length s)) mod 2 ^ 64)%N)
    /\ (forall a b,
           s = a ++ newline :: b -> ~ In newline b ->
           snd (advance s ln lp) = ((1 + N.of_nat (length b)) mod 2 ^ 64)%N).
Proof.
  intros s ln lp Hln Hlp. split; [apply advance_line; assumption|].
  split; [intros Hn; apply advance_column; assumption|].
  intros a b -> Hb. rewrite advance_app. cbn [advance].
  change (Ascii.eqb newline newline) with true. cbv iota.
  rewrite advance_column; [reflexivity | apply u64_succ_lt | assumption].
Qed.

(** The theorem at a text of two lines. *)
Lemma advance_line_column_witness :
  advance (lit "ab" ++ newline :: lit "cde") 1 1 = (2%N, 4%N).
Proof.
  destruct (@advance_line_column (lit "ab" ++ newline :: lit "cde") 1 1
              eq_refl eq_refl) as (Hl & _ & Hc).
  specialize (Hc (lit "ab") (lit "cde") eq_refl).
  rewrite (surjective_pairing (advance _ 1 1)), Hl, Hc; [reflexivity|].
  cbn. intros [H|[H|[H|[]]]]; discriminate.
Defined.

Section LeadingWhitespace.

Lemma gen_at_eta : forall s p, gen_at s (fst p, snd p) = gen_at s p.
Proof. reflexivity. Qed.

Lemma adv_nil : forall p, adv [] p = (fst p, snd p).
Proof. reflexivity. Qed.

(** Without whitespace at the start of the input, [NextNonWS] is [Next]. *)
Lemma NextNonWS_no_ws : forall s p,
    span_len is_ws s = 0 -> NextNonWS (gen_at s p) = Next (gen_at s p).
Proof.
  intros s p H. rewrite NextNonWS_unfold by apply gen_at_ok.
  destruct (Next (gen_at s p)) as [tok g'] eqn:E. cbn [fst snd].
  destruct (TokenType_eqb (type tok) WHITESPACE) eqn:Ew; [|reflexivity].
  apply TokenType_eqb_eq in Ew.
  pose proof (Next_type E (gen_at_ok s p)) as T. rewrite Ew in T.
  unfold RE_WHITESPACE, re_plus, remaining in T. cbn [gen_at meta_token_ span] in T.
  rewrite H in T. discriminate.
Qed.

(** Whitespace before the input is skipped: the token and the generator
    are those of the input read from the position after the whitespace. *)
Lemma NextNonWS_skip_ws : forall ws s p,
    forallb is_ws ws = true ->
    NextNonWS (gen_at (ws ++ s) p) = NextNonWS (gen_at s (adv ws p)).
Proof.
  intros ws s p Hws.
  set (n := span_len is_ws s).
  assert (Hs : s = firstn n s ++ skipn n s) by (symmetry; apply firstn_skipn).
  assert (Hf : forallb is_ws (firstn n s) = true) by apply span_len_firstn.
  assert (Hk : span_len is_ws (skipn n s) = 0) by apply span_len_skipn.
  assert (Hskip : forall w q,
             w <> [] -> forallb is_ws w = true ->
             NextNonWS (gen_at (w ++ skipn n s) q)
             = Next (gen_at (skipn n s) (adv w q))).
  { intros w q Hne Hw.
    assert (T : is_token WHITESPACE w (skipn n s)) by (cbn; auto).
    rewrite NextNonWS_unfold by apply gen_at_ok.
    rewrite (Next_token _ _ _ q T). reflexivity. }
  destruct ws as [|c ws]; [reflexivity|].
  rewrite Hs at 1. rewrite app_assoc.
  rewrite Hskip; [|discriminate | rewrite forallb_app, Hws, Hf; reflexivity].
  rewrite adv_app.
  destruct (firstn n s) as [|d w] eqn:Ew.
  - cbn [app] in Hs. rewrite adv_nil, gen_at_eta.
    rewrite Hs at 2. rewrite NextNonWS_no_ws by assumption. reflexivity.
  - rewrite Hs at 2.
    rewrite Hskip; [reflexivity | discriminate | assumption].
Qed.

End LeadingWhitespace.

(** X6. An input that is empty or blank, or whose first character after
    the leading whitespace begins no token (a character outside the four
    classes, or a quote that opens no complete string), is rejected: [read]
    returns no tree, whatever [*out_err] held, and the message gives the
    position after the whitespace, the expectation "!MALFORMED" and the
    first 20 characters of all the input that was left. *)
Theorem read_rejects_unlexable : forall ws x e,
    forallb is_ws ws = true ->
    RE_WHITESPACE x = None -> RE_STRING x = None -> RE_WORD x = None ->
    RE_SYMBOL x = None ->
    read (ws ++ x) e
    = Some (None,
            lit "Error: L" ++ dec (fst (advance ws 1 1)) ++ lit ":"
              ++ dec (snd (advance ws 1 1)) ++ lit ": Expected !MALFORMED, got: "
              ++ [dquote] ++ firstn 20 x ++ [dquote] ++ lit ".").
Proof.
  intros ws x e Hws H1 H2 H3 H4.
  assert (E : NextNonWS (TokenGen_new (ws ++ x))
              = (tok_at x (adv ws (1%N, 1%N)) MALFORMED,
                 gen_at [] (adv x (adv ws (1%N, 1%N))))).
  { change (TokenGen_new (ws ++ x)) with (gen_at (ws ++ x) (1%N, 1%N)).
    rewrite NextNonWS_skip_ws by assumption.
    rewrite NextNonWS_no_ws.
    - apply Next_unmatched; assumption.
    - unfold RE_WHITESPACE, re_plus in H1.
      destruct (span_len is_ws x); [reflexivity | discriminate]. }
  assert (Hb : forall c, is_symbol c = true ->
                         tok_eq (tok_at x (adv ws (1%N, 1%N)) MALFORMED) [c]
                         = false).
  { intros c Hc. destruct (tok_eq _ [c]) eqn:Eq; [|reflexivity].
    apply str_eqb_eq in Eq. cbn [tok_at span] in Eq. subst x.
    cbn [RE_SYMBOL] in H4. rewrite Hc in H4. discriminate. }
  unfold read.
  rewrite (@read_gen_atom _ e _ _ E (Hb "{"%char eq_refl) (Hb "["%char eq_refl)).
  cbn [tok_at type TokenType_eqb]. rewrite fn_err_cut.
  cbn [tok_at line_num line_pos span adv fst snd].
  repeat rewrite <- app_assoc. reflexivity.
Qed.

(** The theorem at a comment after a blank line. *)
Lemma read_rejects_unlexable_witness :
  read ([space; newline] ++ lit "# no comments in this format") (lit "old")
  = Some (None, jlit "Error: L2:1: Expected !MALFORMED, got: '# no comments in thi'.").
Proof.
  exact (@read_rejects_unlexable [space; newline]
           (lit "# no comments in this format") (lit "old")
           eq_refl eq_refl eq_refl eq_refl eq_refl).
Defined.

(** X7. After the opening brace of an object, a token that is neither a
    STRING nor the closing brace is rejected: an unquoted key, a symbol,
    a malformed token or the end of the input make [read] return no tree,
    with a message that expects STRING at that token. *)
Theorem read_rejects_unquoted_key : forall ws rest k g2 e,
    forallb is_ws ws = true ->
    NextNonWS (gen_at rest (adv (ws ++ lit "{") (1%N, 1%N))) = (k, g2) ->
    type k <> STRING -> tok_eq k (lit "}") = false ->
    read (ws ++ lit "{" ++ rest) e = Some (None, fn_err k (lit "STRING")).
Proof.
  intros ws rest k g2 e Hws Hk Hty Hclose.
  pose proof (@NextNonWS_token ws SYMBOL (lit "{") rest (1%N, 1%N) Hws
                (symbol_is_token "{" rest eq_refl) ltac:(discriminate))
    as Eopen.
  assert (Hrun : read_gen (TokenGen_new (ws ++ lit "{" ++ rest)) e
                 = Some (None, g2, fn_err k (lit "STRING"))).
  { apply read_gen_Reads.
    eapply Reads_dict; [exact Eopen | reflexivity | exact Hk | exact Hclose |].
    apply ReadsDict_key_bad; [exact Hk|].
    destruct (type k); try reflexivity. congruence. }
  unfold read. rewrite Hrun. reflexivity.
Qed.

(** The theorem at an object with a bare word as its key. *)
Lemma read_rejects_unquoted_key_witness :
  read (lit "{ key: 1 }") []
  = Some (None, jlit "Error: L1:3: Expected STRING, got: 'key'.").
Proof.
  refine (@read_rejects_unquoted_key [] (lit " key: 1 }")
            (fst (NextNonWS (gen_at (lit " key: 1 }") (adv (lit "{") (1%N, 1%N)))))
            (snd (NextNonWS (gen_at (lit " key: 1 }") (adv (lit "{") (1%N, 1%N)))))
            [] eq_refl eq_refl _ eq_refl).
  discriminate.
Defined.

(** ** Storing through the accessors and looking up *)

Section StoreAndLookup.

Lemma vec_set_length : forall (A : Type) (l : list A) i v,
    length (vec_set i v l) = length l.
Proof.
  induction l as [|w l IH]; intros [|i] v; cbn [vec_set length];
    try rewrite IH; reflexivity.
Qed.

Lemma vec_set_nth_same : forall (A : Type) (l : list A) i v,
    i < length l -> nth_error (vec_set i v l) i = Some v.
Proof.
  induction l as [|w l IH]; intros [|i] v H; cbn [length] in H;
    cbn [vec_set nth_error]; try lia; [reflexivity|].
  apply IH. lia.
Qed.

Lemma vec_set_nth_other : forall (A : Type) (l : list A) i j v,
    j <> i -> nth_error (vec_set i v l) j = nth_error l j.
Proof.
  induction l as [|w l IH]; intros [|i] [|j] v H;
    cbn [vec_set nth_error]; try reflexivity; try congruence.
  apply IH. congruence.
Qed.

Lemma vec_set_vec_set : forall (A : Type) (l : list A) i v w,
    vec_set i w (vec_set i v l) = vec_set i w l.
Proof.
  induction l as [|u l IH]; intros [|i] v w; cbn [vec_set];
    try rewrite IH; reflexivity.
Qed.

Lemma push_until_length : forall i l,
    length (push_until i l) = Nat.max (length l) (S i).
Proof.
  intros i l. unfold push_until. rewrite length_app, repeat_length. lia.
Qed.

Lemma push_until_enough : forall i l, i < length l -> push_until i l = l.
Proof.
  intros i l H. unfold push_until.
  replace (S i - length l) with 0 by lia. apply app_nil_r.
Qed.

Lemma dict_after_store : forall x v n,
    dict_ (index_assign (index_key x) v n) = map_set x v (dict_ (set_dict n)).
Proof.
  intros x v n. unfold index_assign, index_key, slot_assign.
  cbn [dict_]. apply map_update_set.
Qed.

Lemma list_after_store : forall i v n,
    list_ (index_assign (index_pos i) v n)
    = vec_set i v (push_until i (list_ (set_list n))).
Proof. reflexivity. Qed.

Lemma store_key_fields : forall x v n,
    index_assign (index_key x) v n
    = mkVal (map_set x v (dict_ (set_dict n))) (is_dict_ (set_dict n))
            (list_ (set_dict n)) (is_list_ (set_dict n)) (val_ (set_dict n)).
Proof.
  intros x v n. unfold index_assign, index_key, slot_assign.
  cbn [dict_ is_dict_ list_ is_list_ val_].
  rewrite map_update_set. reflexivity.
Qed.

Lemma store_pos_fields : forall i v n,
    index_assign (index_pos i) v n
    = mkVal (dict_ (set_list n)) (is_dict_ (set_list n))
            (vec_set i v (push_until i (list_ (set_list n))))
            (is_list_ (set_list n)) (val_ (set_list n)).
Proof. reflexivity. Qed.

Lemma const_at_key_find : forall x n,
    const_at_key x n
    = match map_find x (dict_ n) with Some v => v | None => INVALID end.
Proof.
  intros x n. unfold const_at_key, index_key_const.
  destruct (map_find x (dict_ n)) eqn:E; cbn [fst deref slot_get];
    [rewrite E|]; reflexivity.
Qed.

Lemma const_at_pos_nth : forall i n,
    const_at_pos i n
    = match nth_error (list_ n) i with Some v => v | None => INVALID end.
Proof.
  intros i n. unfold const_at_pos, index_pos_const.
  destruct (length (list_ n) <=? i) eqn:E; cbn [fst deref slot_get].
  - apply Nat.leb_le in E. apply nth_error_None in E. rewrite E. reflexivity.
  - reflexivity.
Qed.

End StoreAndLookup.

(** X8. Storing a node under a key and looking the key up: after
    [n[x] = v], the read-only [n[x]] is [v] and the node is an Object; any
    other key gives what it gave in the node once promoted to an Object, so
    in a node that was an Object already the other entries are untouched. *)
Theorem key_store_then_lookup : forall n x v,
    let n' := index_assign (index_key x) v n in
    const_at_key x n' = v
    /\ is_dict n' = true
    /\ (forall y, y <> x -> const_at_key y n' = const_at_key y (set_dict n))
    /\ (is_dict n = true ->
        forall y, y <> x -> const_at_key y n' = const_at_key y n).
Proof.
  intros n x v n'. subst n'.
  assert (Hother : forall y, y <> x ->
             const_at_key y (index_assign (index_key x) v n)
             = const_at_key y (set_dict n)).
  { intros y Hy. rewrite !const_at_key_find, dict_after_store.
    rewrite map_find_set_other by assumption. reflexivity. }
  split; [|split; [|split]].
  - rewrite const_at_key_find, dict_after_store, map_find_set_same.
    reflexivity.
  - unfold index_assign, index_key, slot_assign, is_dict. cbn [is_dict_].
    apply is_dict_set_dict.
  - exact Hother.
  - intros Hd y Hy. rewrite Hother by assumption.
    rewrite !const_at_key_find. reflexivity.
Qed.

(** X9. Storing a node at an index and looking positions up: after
    [n[i] = v], the read-only [n[i]] is [v]; the array is as long as it
    was, or just long enough to hold position [i]; the other positions it
    had are untouched, and the positions that were added to reach [i] hold
    newly constructed nodes. *)
Theorem index_store_then_lookup : forall n i v,
    let n' := index_assign (index_pos i) v n in
    let old := list_ (set_list n) in
    const_at_pos i n' = v
    /\ is_list n' = true
    /\ length (list_ n') = Nat.max (length old) (S i)
    /\ (forall j, j <> i -> j < length old ->
                  nth_error (list_ n') j = nth_error old j)
    /\ (forall j, length old <= j < i -> nth_error (list_ n') j = Some Val_new).
Proof.
  intros n i v n' old. subst n'.
  assert (Hlen : length (push_until i old) = Nat.max (length old) (S i))
    by apply push_until_length.
  split; [|split; [|split; [|split]]].
  - rewrite const_at_pos_nth, list_after_store. fold old.
    rewrite vec_set_nth_same by lia. reflexivity.
  - unfold index_assign, index_pos, slot_assign, is_list. cbn [is_list_].
    apply is_list_set_list.
  - rewrite list_after_store, vec_set_length. exact Hlen.
  - intros j Hj Hlt. rewrite list_after_store. fold old.
    rewrite vec_set_nth_other by assumption.
    unfold push_until. apply nth_error_app1. assumption.
  - intros j [Hge Hlt]. rewrite list_after_store. fold old.
    rewrite vec_set_nth_other by lia.
    unfold push_until. rewrite nth_error_app2 by assumption.
    apply nth_error_repeat. lia.
Qed.

(** X10. The last store wins: storing twice under the same key, or twice
    at the same index, leaves the node that the second store alone would
    have made. *)
Theorem second_store_wins : forall n v w,
    (forall x,
        index_assign (index_key x) w (index_assign (index_key x) v n)
        = index_assign (index_key x) w n)
    /\ (forall i,
           index_assign (index_pos i) w (index_assign (index_pos i) v n)
           = index_assign (index_pos i) w n).
Proof.
  intros n v w. split.
  - intros x. rewrite (store_key_fields x w (index_assign _ v n)).
    rewrite (store_key_fields x v n), (store_key_fields x w n).
    rewrite is_dict_set_dict.
    change (set_dict (mkVal ?d true ?l ?b ?s)) with (mkVal d true l b s).
    cbn [is_dict_ dict_ list_ is_list_ val_].
    rewrite map_set_set_same. reflexivity.
  - intros i. rewrite (store_pos_fields i w (index_assign _ v n)).
    rewrite (store_pos_fields i v n), (store_pos_fields i w n).
    rewrite is_list_set_list.
    change (set_list (mkVal ?d ?b ?l true ?s)) with (mkVal d b l true s).
    cbn [is_dict_ dict_ list_ is_list_ val_].
    rewrite (@push_until_enough i (vec_set i v _))
      by (rewrite vec_set_length, push_until_length; lia).
    rewrite vec_set_vec_set. reflexivity.
Qed.

(** X11. The read-only accessors do not look at the mode of the node, and
    they need not: in every node a caller can hold, a key lookup on a node
    that is not an Object and an index lookup on a node that is not an
    Array find nothing and return the sentinel, and the node is as it
    was. *)
Theorem const_lookup_in_other_mode : forall n,
    Reachable n ->
    (is_dict n = false -> forall x, index_key_const x n = (RefInvalid, n))
    /\ (is_list n = false -> forall i, index_pos_const i n = (RefInvalid, n)).
Proof.
  intros n Hn.
  destruct (Flagged_inv (Reachable_Flagged Hn)) as (Hd & Hl & _).
  split.
  - intros E x. unfold index_key_const. rewrite (Hd E). reflexivity.
  - intros E i. unfold index_pos_const. rewrite (Hl E). reflexivity.
Qed.

(** The theorem at a scalar that was an array before. *)
Lemma const_lookup_in_other_mode_witness :
  let n := val_assign (lit "1")
             (reset (index_assign (index_pos 0) Val_new Val_new)) in
  (forall x, index_key_const x n = (RefInvalid, n))
  /\ (forall i, index_pos_const i n = (RefInvalid, n)).
Proof.
  intros n.
  destruct (@const_lookup_in_other_mode n) as [Hk Hi].
  - apply Reach_val_assign, Reach_reset, Reach_assign_pos; apply Reach_new.
  - split; [apply Hk | apply Hi]; reflexivity.
Defined.

(** ** The shape of the trees that [read] returns *)

Section ReadTrees.

Lemma store_key_in_dict : forall key v d,
    index_assign (index_key key) v (mkVal d true [] false [])
    = mkVal (map_set key v d) true [] false [].
Proof.
  intros key v d. unfold index_assign, index_key, slot_assign, set_dict.
  cbn [is_dict_ dict_ list_ is_list_ val_].
  rewrite map_update_set. reflexivity.
Qed.

Lemma dict_so_far_store : forall cur key v,
    dict_so_far cur -> ReadTree v ->
    dict_so_far (index_assign (index_key key) v cur).
Proof.
  intros cur key v (d & -> & Hs & Hall) Hv.
  exists (map_set key v d). split; [apply store_key_in_dict|].
  split; [apply map_set_sorted; assumption|].
  apply Forall_map_set; assumption.
Qed.

Lemma list_so_far_store : forall cur i v,
    list_so_far cur i -> ReadTree v ->
    (i = 0 -> v <> closing_scalar) ->
    list_so_far (index_assign (index_pos i) v cur) (i + 1).
Proof.
  intros cur i v (l & -> & Hlen & Hall & Hhd) Hv Hfirst. subst i.
  exists (l ++ [v]). split; [apply list_store_append|].
  split; [rewrite length_app; reflexivity|].
  split; [apply Forall_app; auto|].
  destruct l as [|x l]; cbn [app hd_error] in *.
  - intros H. injection H as H. exact (Hfirst eq_refl H).
  - exact Hhd.
Qed.

Lemma is_token_at_end : forall ty s r,
    is_token ty s r -> ty <> WHITESPACE -> is_token ty s [].
Proof.
  intros ty s r H Hty. apply (@is_token_tail ty s r [] H Hty).
  reflexivity.
Qed.

Lemma Reads_ReadTree :
  (forall g e r, Reads g e r -> gives_ReadTree g r)
  /\ (forall cur g e r, ReadsDict cur g e r -> keeps_dict cur g r)
  /\ (forall cur i g e r, ReadsList cur i g e r -> keeps_list cur i g r).
Proof.
  apply Reads_mutind; intros.
  1-6: intros Hg t g' e' Heq.
  7-12: intros Hg Hcur t g' e' Heq.
  13-16: intros Hg Hcur Hfirst t g' e' Heq.
  all: try discriminate; try (injection Heq as <- <- <-); subst.
  - (* an empty object *)
    split; [|discriminate]. apply ReadTree_dict; constructor.
  - (* an object with entries *)
    destruct (NextNonWS_not_ws Hg H) as [_ Hg1].
    destruct (H4 Hg1 ltac:(exists []; repeat constructor) _ _ _ eq_refl)
      as (d & -> & Hs & Hall).
    split; [|discriminate]. apply ReadTree_dict; assumption.
  - (* an empty array *)
    split; [|discriminate]. apply ReadTree_list; [constructor|discriminate].
  - (* an array with elements *)
    destruct (NextNonWS_not_ws Hg H) as [_ Hg1].
    destruct (H5 Hg1) with (t := t) (g' := g') (e' := e')
      as (j & l & -> & _ & Hall & Hhd).
    + exists []. repeat split; try constructor. discriminate.
    + intros _. rewrite H2. exact H3.
    + reflexivity.
    + split; [|discriminate]. apply ReadTree_list; assumption.
  - (* an atom *)
    assert (Hm : type tok <> MALFORMED).
    { unfold fn_is_expected in H2. intros Hm. rewrite Hm in H2. discriminate. }
    destruct (NextNonWS_is_token H Hg Hm) as (ws & _ & _ & T & Hty & _).
    split.
    + apply ReadTree_scalar. exists (type tok).
      split; [assumption|]. split; [eapply is_token_at_end; eassumption|].
      split; assumption.
    + intros Hc. rewrite H. cbn [fst]. unfold closing_scalar in Hc.
      injection Hc as Hc. unfold tok_eq. unfold tok_str in Hc. rewrite Hc.
      reflexivity.
  - (* the last entry *)
    destruct (NextNonWS_not_ws Hg H) as [_ Hg1].
    destruct (NextNonWS_not_ws Hg1 H1) as [_ Hg2].
    destruct (H4 Hg2 _ _ _ eq_refl) as [Hv _].
    apply dict_so_far_store; assumption.
  - (* an entry followed by another *)
    destruct (NextNonWS_not_ws Hg H) as [_ Hg1].
    destruct (NextNonWS_not_ws Hg1 H1) as [_ Hg2].
    destruct (H4 Hg2 _ _ _ eq_refl) as [Hv _].
    pose proof (Reads_gen_ok H3 Hg2) as Hg3.
    destruct (NextNonWS_not_ws Hg3 H5) as [_ Hg4].
    apply (H9 Hg4 (dict_so_far_store _ Hcur Hv) _ _ _ eq_refl).
  - (* the last element *)
    destruct (H0 Hg _ _ _ eq_refl) as [Hv Hc].
    exists (i + 1). apply list_so_far_store; try assumption.
    intros Hi Hv0. rewrite (Hfirst Hi) in Hc. specialize (Hc Hv0).
    discriminate.
  - (* an element followed by another *)
    destruct (H0 Hg _ _ _ eq_refl) as [Hv Hc].
    pose proof (Reads_gen_ok H Hg) as Hg3.
    destruct (NextNonWS_not_ws Hg3 H1) as [_ Hg4].
    apply (H5 Hg4) with (g' := g') (e' := e'); [| |reflexivity].
    + apply list_so_far_store; try assumption.
      intros Hi Hv0. rewrite (Hfirst Hi) in Hc. specialize (Hc Hv0).
      discriminate.
    + intros Hi. lia.
Qed.

Lemma read_ReadTree : forall input e t e',
    read input e = Some (Some t, e') -> ReadTree t.
Proof.
  intros input e t e' H. unfold read in H.
  destruct (read_gen (TokenGen_new input) e) as [[[r g] e1]|] eqn:E;
    [|discriminate].
  injection H as -> ->. apply read_gen_Reads in E.
  apply (proj1 Reads_ReadTree _ _ _ E eq_refl _ _ _ eq_refl).
Qed.

End ReadTrees.

Section ReadingBack.

Lemma ReadTree_inv : forall t,
    ReadTree t ->
    (exists d, t = mkVal d true [] false []
               /\ StronglySorted key_lt d
               /\ Forall (fun kv => ReadTree (snd kv)) d)
    \/ (exists l, t = mkVal [] false l true []
                  /\ Forall ReadTree l /\ hd_error l <> Some closing_scalar)
    \/ (exists s, t = mkVal [] false [] false s /\ scalar_text s).
Proof.
  intros t H. destruct H as [d Hs Hall | l Hall Hhd | s Hs].
  - left. exists d. auto.
  - right. left. exists l. auto.
  - right. right. exists s. auto.
Qed.

(** The loop of [read] over the entries that [write] sent, for children
    that are read back as themselves. *)
Lemma ReadsDict_entries_first : forall todo kv entries indent rest p e,
    Forall (fun kv => reads_first (snd kv)) (kv :: todo) ->
    StronglySorted key_lt (kv :: todo) ->
    Forall (fun x => key_lt x kv) entries ->
    forallb is_ws indent = true ->
    exists p',
      ReadsDict (mkVal entries true [] false [])
        (gen_at ([newline] ++ (indent ++ lit "   ") ++ escape (fst kv)
                   ++ lit ": " ++ write (snd kv) (indent ++ lit "   ")
                   ++ entries_text (indent ++ lit "   ") todo true
                   ++ [newline] ++ indent ++ lit "}" ++ rest) p) e
        (Some (mkVal (entries ++ kv :: todo) true [] false []),
         gen_at rest p', e).
Proof.
  induction todo as [|kv' todo IH];
    intros [k v] entries indent rest p e Hrb Hsorted Hlt Hind;
    cbn [fst snd] in *.
  - inversion Hrb as [|? ? Hv _]; subst. cbn [snd] in Hv.
    set (ip := indent ++ lit "   ") in *.
    pose (R3 := [newline] ++ indent ++ lit "}" ++ rest).
    pose (R2 := space :: write v ip ++ R3).
    pose (R1 := lit ":" ++ R2).
    pose proof (@NextNonWS_token (newline :: ip) STRING (escape k) R1 p
                  (indent_plus_ws _ Hind) (escape_is_token k R1)
                  ltac:(discriminate)) as E1.
    pose proof (@NextNonWS_token [] SYMBOL (lit ":") R2
                  (adv ((newline :: ip) ++ escape k) p)
                  eq_refl (symbol_is_token ":" R2 eq_refl)
                  ltac:(discriminate)) as E2.
    destruct (Hv [space] ip R3
                 (adv ([] ++ lit ":") (adv ((newline :: ip) ++ escape k) p)) e
                 eq_refl ltac:(subst ip; rewrite forallb_app, Hind; reflexivity)
                 eq_refl) as [p3 Hread].
    pose proof (@NextNonWS_token (newline :: indent) SYMBOL (lit "}") rest p3
                  (closing_ws _ Hind) (symbol_is_token "}" rest eq_refl)
                  ltac:(discriminate)) as E3.
    eexists.
    rewrite <- (dict_store_append k v Hlt).
    eapply ReadsDict_close
      with (k := tok_at (escape k) (adv (newline :: ip) p) STRING);
      [exact E1 | reflexivity | exact E2 | reflexivity | exact Hread
      | exact E3 | reflexivity].
  - inversion Hrb as [|? ? Hv Hrb']; subst. cbn [snd] in Hv.
    apply StronglySorted_inv in Hsorted. destruct Hsorted as [Hsorted' Hk].
    set (ip := indent ++ lit "   ") in *.
    rewrite entries_text_cons.
    pose (R4 := [newline] ++ ip ++ escape (fst kv') ++ lit ": "
                  ++ write (snd kv') ip ++ entries_text ip todo true
                  ++ [newline] ++ indent ++ lit "}" ++ rest).
    pose (R3 := lit "," ++ R4).
    pose (R2 := space :: write v ip ++ R3).
    pose (R1 := lit ":" ++ R2).
    pose proof (@NextNonWS_token (newline :: ip) STRING (escape k) R1 p
                  (indent_plus_ws _ Hind) (escape_is_token k R1)
                  ltac:(discriminate)) as E1.
    pose proof (@NextNonWS_token [] SYMBOL (lit ":") R2
                  (adv ((newline :: ip) ++ escape k) p)
                  eq_refl (symbol_is_token ":" R2 eq_refl)
                  ltac:(discriminate)) as E2.
    destruct (Hv [space] ip R3
                 (adv ([] ++ lit ":") (adv ((newline :: ip) ++ escape k) p)) e
                 eq_refl ltac:(subst ip; rewrite forallb_app, Hind; reflexivity)
                 eq_refl) as [p3 Hread].
    pose proof (@NextNonWS_token [] SYMBOL (lit ",") R4 p3
                  eq_refl (symbol_is_token "," R4 eq_refl)
                  ltac:(discriminate)) as E3.
    assert (Hlt' : Forall (fun x => key_lt x kv') (entries ++ [(k, v)])).
    { inversion Hk as [|? ? Hkk _]; subst. apply Forall_app. split.
      - eapply Forall_impl; [|exact Hlt]. intros x Hx. unfold key_lt in *.
        eapply str_ltb_trans; eassumption.
      - constructor; [exact Hkk | constructor]. }
    destruct (IH kv' (entries ++ [(k, v)]) indent rest
                 (adv ([] ++ lit ",") p3) e Hrb' Hsorted' Hlt' Hind)
      as [p' Hloop].
    exists p'.
    rewrite <- (app_assoc entries [(k, v)]) in Hloop. cbn [app] in Hloop.
    rewrite <- (dict_store_append k v Hlt) in Hloop.
    eapply ReadsDict_next
      with (k := tok_at (escape k) (adv (newline :: ip) p) STRING);
      [exact E1 | reflexivity | exact E2 | reflexivity | exact Hread
      | exact E3 | reflexivity | reflexivity | exact Hloop].
Qed.

(** The loop of [read] over the elements that [write] sent, for children
    that are read back as themselves. *)
Lemma ReadsList_elems_first : forall todo v elems indent rest p e,
    Forall reads_first (v :: todo) ->
    forallb is_ws indent = true ->
    exists p',
      ReadsList (mkVal [] false elems true []) (length elems)
        (gen_at ([newline] ++ (indent ++ lit "   ")
                   ++ write v (indent ++ lit "   ")
                   ++ elems_text (indent ++ lit "   ") todo true
                   ++ [newline] ++ indent ++ lit "]" ++ rest) p) e
        (Some (mkVal [] false (elems ++ v :: todo) true []),
         gen_at rest p', e).
Proof.
  induction todo as [|v' todo IH]; intros v elems indent rest p e Hrb Hind.
  - inversion Hrb as [|? ? Hv _]; subst.
    set (ip := indent ++ lit "   ") in *.
    pose (R3 := [newline] ++ indent ++ lit "]" ++ rest).
    destruct (Hv (newline :: ip) ip R3 p e
                 (indent_plus_ws _ Hind)
                 ltac:(subst ip; rewrite forallb_app, Hind; reflexivity)
                 eq_refl) as [p3 Hread].
    pose proof (@NextNonWS_token (newline :: indent) SYMBOL (lit "]") rest p3
                  (closing_ws _ Hind) (symbol_is_token "]" rest eq_refl)
                  ltac:(discriminate)) as E3.
    eexists. rewrite <- (list_store_append v elems).
    eapply ReadsList_close; [exact Hread | exact E3 | reflexivity].
  - inversion Hrb as [|? ? Hv Hrb']; subst.
    set (ip := indent ++ lit "   ") in *.
    rewrite elems_text_cons.
    pose (R4 := [newline] ++ ip ++ write v' ip ++ elems_text ip todo true
                  ++ [newline] ++ indent ++ lit "]" ++ rest).
    pose (R3 := lit "," ++ R4).
    destruct (Hv (newline :: ip) ip R3 p e
                 (indent_plus_ws _ Hind)
                 ltac:(subst ip; rewrite forallb_app, Hind; reflexivity)
                 eq_refl) as [p3 Hread].
    pose proof (@NextNonWS_token [] SYMBOL (lit ",") R4 p3
                  eq_refl (symbol_is_token "," R4 eq_refl)
                  ltac:(discriminate)) as E3.
    destruct (IH v' (elems ++ [v]) indent rest
                 (adv ([] ++ lit ",") p3) e Hrb' Hind) as [p' Hloop].
    exists p'.
    rewrite <- (app_assoc elems [v]) in Hloop. cbn [app] in Hloop.
    rewrite length_app in Hloop. cbn [length] in Hloop.
    rewrite <- (list_store_append v elems) in Hloop.
    eapply ReadsList_next;
      [exact Hread | exact E3 | reflexivity | reflexivity | exact Hloop].
Qed.

(** The first token of the text of a tree is a closing bracket only for
    the scalar that holds one. *)
Lemma first_token_of_text : forall t ws indent rest p,
    ReadTree t -> t <> closing_scalar ->
    forallb is_ws ws = true -> span_len is_word rest = 0 ->
    tok_eq (fst (NextNonWS (gen_at (ws ++ write t indent ++ rest) p)))
           (lit "]") = false.
Proof.
  intros t ws indent rest p Ht Hne Hws Hrest.
  destruct (ReadTree_inv Ht)
    as [(d & -> & _) | [(l & -> & _) | (s & -> & ty & Hty & T & _)]].
  - rewrite write_dict by reflexivity. rewrite <- app_assoc.
    rewrite (@NextNonWS_token ws SYMBOL (lit "{") _ p Hws
               (symbol_is_token "{" _ eq_refl) ltac:(discriminate)).
    reflexivity.
  - rewrite write_list by reflexivity. rewrite <- app_assoc.
    rewrite (@NextNonWS_token ws SYMBOL (lit "[") _ p Hws
               (symbol_is_token "[" _ eq_refl) ltac:(discriminate)).
    reflexivity.
  - rewrite write_scalar by reflexivity. cbn [val_].
    assert (T' : is_token ty s rest).
    { apply (@is_token_tail ty s [] rest T Hty). intros _. exact Hrest. }
    rewrite (@NextNonWS_token ws ty s rest p Hws T' Hty).
    cbn [fst]. unfold tok_eq. cbn [tok_at span].
    destruct (str_eqb s (lit "]")) eqn:E; [|reflexivity].
    apply str_eqb_eq in E. subst s. exfalso. apply Hne. reflexivity.
Qed.

Ltac same_text :=
  cbn [dict_ list_ entries_text elems_text]; unfold entry_text, elem_text;
  repeat rewrite <- app_assoc; reflexivity.

(** Every tree of the shape that [read] builds is read back as itself from
    its text. *)
Lemma ReadTree_reads_first : forall t, ReadTree t -> reads_first t.
Proof.
  induction t as [d isd l isl v IHd IHl] using Val_nested_ind.
  intros Ht ws indent rest p e Hws Hind Hrest.
  destruct (ReadTree_inv Ht)
    as [(d' & Heq & Hsorted & Hall)
       | [(l' & Heq & Hall & Hhd) | (s & Heq & ty & Hty & T & Hb1 & Hb2)]];
    injection Heq as -> -> -> -> ->.
  - (* an object *)
    pose proof (@NextNonWS_token ws SYMBOL (lit "{")) as Eopen.
    destruct d' as [|kv todo].
    + specialize (Eopen (lit "}" ++ rest) p Hws
                        (symbol_is_token "{" _ eq_refl) ltac:(discriminate)).
      pose proof (@NextNonWS_token [] SYMBOL (lit "}") rest
                    (adv (ws ++ lit "{") p) eq_refl
                    (symbol_is_token "}" rest eq_refl)
                    ltac:(discriminate)) as Eclose.
      rewrite write_dict by reflexivity. cbn [dict_]. rewrite <- app_assoc.
      eexists.
      eapply Reads_dict_empty;
        [exact Eopen | reflexivity | exact Eclose | reflexivity].
    + assert (Hrb : Forall (fun kv => reads_first (snd kv)) (kv :: todo)).
      { rewrite Forall_forall in *. intros x Hx. apply IHd; auto. }
      destruct (@ReadsDict_entries_first todo kv [] indent rest
                  (adv (ws ++ lit "{") p) e Hrb Hsorted
                  (Forall_nil _) Hind) as [p' Hloop].
      match type of Hloop with
      | ReadsDict _ (gen_at ?T _) _ _ =>
          specialize (Eopen T p Hws (symbol_is_token "{" _ eq_refl)
                            ltac:(discriminate));
          pose proof (@NextNonWS_token (newline :: indent ++ lit "   ") STRING
                        (escape (fst kv))
                        (lit ": " ++ write (snd kv) (indent ++ lit "   ")
                           ++ entries_text (indent ++ lit "   ") todo true
                           ++ [newline] ++ indent ++ lit "}" ++ rest)
                        (adv (ws ++ lit "{") p)
                        (indent_plus_ws _ Hind) (escape_is_token _ _)
                        ltac:(discriminate)) as Epeek;
          assert (Htext : ws ++ write (mkVal (kv :: todo) true [] false [])
                                      indent ++ rest
                          = ws ++ lit "{" ++ T)
      end.
      { rewrite write_dict by reflexivity. same_text. }
      rewrite Htext. exists p'.
      eapply Reads_dict;
        [exact Eopen | reflexivity | exact Epeek | reflexivity | exact Hloop].
  - (* an array *)
    pose proof (@NextNonWS_token ws SYMBOL (lit "[")) as Eopen.
    destruct l' as [|c todo].
    + specialize (Eopen (lit "]" ++ rest) p Hws
                        (symbol_is_token "[" _ eq_refl) ltac:(discriminate)).
      pose proof (@NextNonWS_token [] SYMBOL (lit "]") rest
                    (adv (ws ++ lit "[") p) eq_refl
                    (symbol_is_token "]" rest eq_refl)
                    ltac:(discriminate)) as Eclose.
      rewrite write_list by reflexivity. cbn [list_]. rewrite <- app_assoc.
      eexists.
      eapply Reads_list_empty;
        [exact Eopen | reflexivity | reflexivity | exact Eclose | reflexivity].
    + assert (Hrb : Forall reads_first (c :: todo)).
      { rewrite Forall_forall in *. intros x Hx. apply IHl; auto. }
      destruct (@ReadsList_elems_first todo c [] indent rest
                  (adv (ws ++ lit "[") p) e Hrb Hind) as [p' Hloop].
      assert (Hc : ReadTree c) by (inversion Hall; assumption).
      assert (Hnc : c <> closing_scalar).
      { intros ->. apply Hhd. reflexivity. }
      match type of Hloop with
      | ReadsList _ _ (gen_at ?T _) _ _ =>
          specialize (Eopen T p Hws (symbol_is_token "[" _ eq_refl)
                            ltac:(discriminate));
          pose proof (@first_token_of_text c
                        (newline :: indent ++ lit "   ") (indent ++ lit "   ")
                        (elems_text (indent ++ lit "   ") todo true
                           ++ [newline] ++ indent ++ lit "]" ++ rest)
                        (adv (ws ++ lit "[") p) Hc Hnc
                        (indent_plus_ws _ Hind)
                        ltac:(destruct todo; reflexivity)) as Hpeek;
          assert (Htext : ws ++ write (mkVal [] false (c :: todo) true [])
                                      indent ++ rest
                          = ws ++ lit "[" ++ T)
      end.
      { rewrite write_list by reflexivity. same_text. }
      rewrite Htext. exists p'.
      match type of Hpeek with
      | tok_eq (fst (NextNonWS ?g)) _ = _ =>
          destruct (NextNonWS g) as [peek g2] eqn:Epeek
      end.
      cbn [fst] in Hpeek.
      eapply Reads_list;
        [exact Eopen | reflexivity | reflexivity | exact Epeek | exact Hpeek
        | exact Hloop].
  - (* a scalar *)
    rewrite write_scalar by reflexivity. cbn [val_].
    assert (T' : is_token ty s rest).
    { apply (@is_token_tail ty s [] rest T Hty). intros _. exact Hrest. }
    pose proof (@NextNonWS_token ws ty s rest p Hws T' Hty) as Eatom.
    eexists. eapply Reads_atom with (tok := tok_at s (adv ws p) ty);
      [exact Eatom | exact Hb1 | exact Hb2 |].
    unfold fn_is_expected. cbn [tok_at type].
    destruct ty; try reflexivity. contradiction.
Qed.

End ReadingBack.

(** X12. Every tree that the recursive [read] returns has the shape
    [ReadTree], wherever the generator stood: an Object holds its entries
    in strictly increasing key order and neither elements nor text, an
    Array holds its elements and neither entries nor text, and a scalar
    holds the text of one STRING, WORD or SYMBOL token, never an empty text
    and never an opening bracket. The tree is the scalar of a closing
    bracket only if that bracket was the first token. *)
Theorem read_gen_gives_ReadTree : forall g e t g' e',
    gen_ok g -> read_gen g e = Some (Some t, g', e') ->
    ReadTree t
    /\ (is_dict t = false -> is_list t = false -> val_ t <> [])
    /\ (t = closing_scalar -> tok_eq (fst (NextNonWS g)) (lit "]") = true).
Proof.
  intros g e t g' e' Hg H. apply read_gen_Reads in H.
  destruct (proj1 Reads_ReadTree _ _ _ H Hg _ _ _ eq_refl) as [Ht Hc].
  split; [exact Ht|]. split; [|exact Hc].
  destruct (ReadTree_inv Ht)
    as [(d & -> & _) | [(l & -> & _) | (s & -> & ty & Hty & T & _)]];
    cbn [is_dict is_list is_dict_ is_list_ val_]; try discriminate.
  intros _ _. exact (proj1 (@is_token_end ty s [] [] T Hty)).
Qed.

(** The theorem at an array in an object, with keys out of order. *)
Lemma read_gen_gives_ReadTree_witness :
  ReadTree (mkVal [(lit "a", mkVal [] false
                               [val_assign (lit "1") Val_new;
                                val_assign (lit ":") Val_new] true []);
                   (lit "b", val_assign (jlit "'x'") Val_new)]
                  true [] false []).
Proof.
  refine (proj1 (@read_gen_gives_ReadTree
                   (TokenGen_new (jlit "{'b': 'x', 'a': [1, :]}")) [] _
                   (gen_at [] (1%N, 24%N)) [] eq_refl _)).
  reflexivity.
Defined.

(** X13. What [read] returned is written and read back as the same tree:
    for every tree that [read] gives on some input, and every base
    indentation made of whitespace, [read] on the text that [write] sends
    gives that tree again, and leaves [*out_err] alone. *)
Theorem read_write_read : forall input e t e' indent e0,
    read input e = Some (Some t, e') ->
    forallb is_ws indent = true ->
    read (write t indent) e0 = Some (Some t, e0).
Proof.
  intros input e t e' indent e0 H Hind.
  destruct (ReadTree_reads_first (read_ReadTree _ _ H) [] indent [] (1%N, 1%N) e0
              eq_refl Hind eq_refl) as [p' Hr].
  cbn [app] in Hr. rewrite app_nil_r in Hr.
  apply read_gen_Reads in Hr. unfold read.
  change (TokenGen_new (write t indent)) with (gen_at (write t indent) (1%N, 1%N)).
  rewrite Hr. reflexivity.
Qed.

(** The theorem at an array read from a text with symbols as scalars. *)
Lemma read_write_read_witness :
  read (write (mkVal [] false
                 [val_assign (lit ":") Val_new;
                  mkVal [(lit "k", closing_scalar)] true [] false []]
                 true []) (lit "  ")) []
  = Some (Some (mkVal [] false
                  [val_assign (lit ":") Val_new;
                   mkVal [(lit "k", closing_scalar)] true [] false []]
                  true []), []).
Proof.
  apply (@read_write_read (jlit "[:, {'k': ]}]") [] _ [] (lit "  ") []);
    reflexivity.
Defined.

(** ** Positions and the error string do not steer the reader *)

Section PositionsDoNotSteer.

(** The text and the class of a token depend on the input only. *)
Lemma Next_classify_position : forall s a b a' b',
    span (Next_classify (mkToken s a b MALFORMED))
    = span (Next_classify (mkToken s a' b' MALFORMED))
    /\ type (Next_classify (mkToken s a b MALFORMED))
       = type (Next_classify (mkToken s a' b' MALFORMED)).
Proof.
  intros s a b a' b'. unfold Next_classify, next_token_from_regex.
  cbn [span].
  destruct (RE_WHITESPACE s); [split; reflexivity|].
  destruct (RE_STRING s); [split; reflexivity|].
  destruct (RE_WORD s); [split; reflexivity|].
  destruct (RE_SYMBOL s); split; reflexivity.
Qed.

Lemma Next_same_input : forall g h a g1,
    same_input g h -> Next g = (a, g1) ->
    exists b h1,
      Next h = (b, h1) /\ span b = span a /\ type b = type a
      /\ same_input g1 h1.
Proof.
  intros g h a g1 (Hr & Hg & Hh) H.
  rewrite (gen_ok_shape Hg) in H. rewrite Next_gen_at in H. cbv zeta in H.
  injection H as <- <-.
  rewrite (gen_ok_shape Hh), Next_gen_at, <- Hr. cbv zeta.
  destruct (Next_classify_position (remaining g)
              (fst (gen_pos h)) (snd (gen_pos h))
              (fst (gen_pos g)) (snd (gen_pos g))) as [Hs Ht].
  eexists. eexists. split; [reflexivity|].
  split; [exact Hs|]. split; [exact Ht|].
  split; [|split; apply gen_at_ok].
  change (remaining (gen_at ?x ?q)) with x. rewrite Hs. reflexivity.
Qed.

Lemma NextNonWS_same_input : forall g h a g1,
    same_input g h -> NextNonWS g = (a, g1) ->
    exists b h1,
      NextNonWS h = (b, h1) /\ span b = span a /\ type b = type a
      /\ same_input g1 h1.
Proof.
  intros g h a g1 S H. pose proof S as (_ & Hg & Hh).
  rewrite NextNonWS_unfold in H by assumption.
  rewrite NextNonWS_unfold by assumption.
  destruct (Next g) as [t g0] eqn:E. cbn [fst snd] in H.
  destruct (Next_same_input S E) as (b & h0 & E' & Hs & Ht & S0).
  rewrite E'. cbn [fst snd]. rewrite Ht.
  destruct (TokenType_eqb (type t) WHITESPACE).
  - apply (Next_same_input S0 H).
  - injection H as <- <-. exists b, h0. auto.
Qed.

Lemma tok_eq_same_span : forall a b s,
    span b = span a -> tok_eq b s = tok_eq a s.
Proof. intros a b s H. unfold tok_eq. rewrite H. reflexivity. Qed.

Lemma fn_is_expected_same : forall a b x e e1,
    span b = span a -> type b = type a ->
    fn_is_expected a x e = (true, e1) -> fn_is_expected b x e = (true, e1).
Proof.
  intros a b x e e1 Hs Ht H. unfold fn_is_expected in *.
  destruct x as [s|].
  - rewrite (@tok_eq_same_span a b s Hs).
    destruct (tok_eq a s); [exact H|discriminate].
  - rewrite Ht.
    destruct (negb (TokenType_eqb (type a) MALFORMED)); [exact H|discriminate].
Qed.

Ltac other_step S H :=
  let b := fresh "b" in
  let h := fresh "h" in
  let N := fresh "N" in
  let Hs := fresh "Hs" in
  let Ht := fresh "Ht" in
  let S' := fresh "S" in
  destruct (NextNonWS_same_input S H) as (b & h & N & Hs & Ht & S').

Lemma Reads_position_free :
  (forall g e r, Reads g e r -> position_free Reads g e r)
  /\ (forall cur g e r, ReadsDict cur g e r ->
                        position_free (ReadsDict cur) g e r)
  /\ (forall cur i g e r, ReadsList cur i g e r ->
                          position_free (ReadsList cur i) g e r).
Proof.
  apply Reads_mutind; intros; intros t g' e' Heq h0 S;
    try discriminate; try (injection Heq as <- <- <-); subst.
  - (* an empty object *)
    other_step S H. other_step S0 H1.
    exists h1. split; [|assumption].
    eapply Reads_dict_empty; [exact N | | exact N0 |];
      erewrite tok_eq_same_span; eassumption.
  - (* an object with entries *)
    other_step S H. other_step S0 H1.
    destruct (H4 _ _ _ eq_refl _ S0) as (h' & Hrun & S').
    exists h'. split; [|assumption].
    eapply Reads_dict; [exact N | | exact N0 | | exact Hrun];
      erewrite tok_eq_same_span; eassumption.
  - (* an empty array *)
    other_step S H. other_step S0 H2.
    exists h1. split; [|assumption].
    eapply Reads_list_empty; [exact N | | | exact N0 |];
      erewrite tok_eq_same_span; eassumption.
  - (* an array with elements *)
    other_step S H. other_step S0 H2.
    destruct (H5 _ _ _ eq_refl _ S0) as (h' & Hrun & S').
    exists h'. split; [|assumption].
    eapply Reads_list; [exact N | | | exact N0 | | exact Hrun];
      erewrite tok_eq_same_span; eassumption.
  - (* an atom *)
    other_step S H.
    exists h. split; [|assumption].
    unfold tok_str. rewrite <- Hs.
    eapply Reads_atom; [exact N | | |].
    + erewrite tok_eq_same_span; eassumption.
    + erewrite tok_eq_same_span; eassumption.
    + eapply fn_is_expected_same; eassumption.
  - (* the last entry *)
    other_step S H. other_step S0 H1.
    destruct (H4 _ _ _ eq_refl _ S1) as (h3 & Hrun & S3).
    other_step S3 H5.
    exists h2. split; [|assumption].
    unfold tok_str. rewrite <- Hs.
    eapply ReadsDict_close; [exact N | | exact N0 | | exact Hrun | exact N1 |].
    + rewrite Ht. assumption.
    + eapply fn_is_expected_same; eassumption.
    + erewrite tok_eq_same_span; eassumption.
  - (* an entry followed by another *)
    other_step S H. other_step S0 H1.
    destruct (H4 _ _ _ eq_refl _ S1) as (h3 & Hrun & S3).
    other_step S3 H5.
    destruct (H9 _ _ _ eq_refl _ S2) as (h' & Hloop & S').
    exists h'. split; [|assumption].
    unfold tok_str in *. rewrite <- Hs in Hloop.
    eapply ReadsDict_next;
      [exact N | | exact N0 | | exact Hrun | exact N1 | | | exact Hloop].
    + rewrite Ht. assumption.
    + eapply fn_is_expected_same; eassumption.
    + erewrite tok_eq_same_span; eassumption.
    + eapply fn_is_expected_same; eassumption.
  - (* the last element *)
    destruct (H0 _ _ _ eq_refl _ S) as (h3 & Hrun & S3).
    other_step S3 H1.
    exists h. split; [|assumption].
    eapply ReadsList_close; [exact Hrun | exact N |].
    erewrite tok_eq_same_span; eassumption.
  - (* an element followed by another *)
    destruct (H0 _ _ _ eq_refl _ S) as (h3 & Hrun & S3).
    other_step S3 H1.
    destruct (H5 _ _ _ eq_refl _ S0) as (h' & Hloop & S').
    exists h'. split; [|assumption].
    eapply ReadsList_next; [exact Hrun | exact N | | | exact Hloop].
    + erewrite tok_eq_same_span; eassumption.
    + eapply fn_is_expected_same; eassumption.
Qed.

(** A run looks at its generator through [NextNonWS] only. *)
Lemma Reads_first_step : forall g h e r,
    NextNonWS g = NextNonWS h -> Reads h e r -> Reads g e r.
Proof.
  intros g h e r E H.
  inversion H; subst;
    match goal with
    | N : NextNonWS h = _ |- _ => rewrite <- E in N
    end.
  - eapply Reads_dict_empty; eassumption.
  - eapply Reads_dict; eassumption.
  - eapply Reads_list_empty; eassumption.
  - eapply Reads_list; eassumption.
  - eapply Reads_atom_bad; eassumption.
  - eapply Reads_atom; eassumption.
Qed.

Lemma same_input_sym : forall g h, same_input g h -> same_input h g.
Proof. intros g h (H1 & H2 & H3). repeat split; auto. Qed.

Lemma read_of_Reads : forall input e t g' e',
    Reads (TokenGen_new input) e (Some t, g', e') ->
    read input e = Some (Some t, e').
Proof.
  intros input e t g' e' H. apply read_gen_Reads in H.
  unfold read. rewrite H. reflexivity.
Qed.

Lemma Reads_of_read : forall input e t e',
    read input e = Some (Some t, e') ->
    exists g', Reads (TokenGen_new input) e (Some t, g', e').
Proof.
  intros input e t e' H. unfold read in H.
  destruct (read_gen (TokenGen_new input) e) as [[[r g'] e1]|] eqn:E;
    [|discriminate].
  injection H as -> ->. apply read_gen_Reads in E. exists g'. exact E.
Qed.

End PositionsDoNotSteer.

(** X14. Whitespace before the input changes nothing but the positions:
    [read] gives a tree on the input with whitespace put before it exactly
    when it gives that tree on the input alone. *)
Theorem leading_whitespace_is_skipped : forall ws input e t e',
    forallb is_ws ws = true ->
    (read (ws ++ input) e = Some (Some t, e')
     <-> read input e = Some (Some t, e')).
Proof.
  intros ws input e t e' Hws.
  assert (S : same_input (gen_at input (1%N, 1%N))
                         (gen_at input (adv ws (1%N, 1%N)))).
  { split; [reflexivity | split; apply gen_at_ok]. }
  assert (E : NextNonWS (TokenGen_new (ws ++ input))
              = NextNonWS (gen_at input (adv ws (1%N, 1%N)))).
  { apply (@NextNonWS_skip_ws ws input (1%N, 1%N) Hws). }
  split; intros H; apply Reads_of_read in H; destruct H as [g' H].
  - apply (@Reads_first_step _ _ _ _ (eq_sym E)) in H.
    destruct (proj1 Reads_position_free _ _ _ H _ _ _ eq_refl _
                    (same_input_sym S)) as (h' & Hrun & _).
    apply (@read_of_Reads _ _ _ _ _ Hrun).
  - destruct (proj1 Reads_position_free _ _ _ H _ _ _ eq_refl _ S)
      as (h' & Hrun & _).
    apply (@Reads_first_step _ _ _ _ E) in Hrun.
    apply (@read_of_Reads _ _ _ _ _ Hrun).
Qed.

(** The theorem at an array after a blank line and a tab. *)
Lemma leading_whitespace_is_skipped_witness :
  read ([newline; tab] ++ lit "[1, 2]") []
  = Some (Some (mkVal [] false
                  [val_assign (lit "1") Val_new; val_assign (lit "2") Val_new]
                  true []), []).
Proof.
  apply (proj2 (@leading_whitespace_is_skipped [newline; tab] (lit "[1, 2]")
                  [] _ [] eq_refl)).
  reflexivity.
Defined.

Section ErrorStringIsWriteOnly.

Lemma fn_is_expected_frame : forall tok x e ok e1 e2,
    fn_is_expected tok x e = (ok, e1) ->
    (ok = true -> e1 = e)
    /\ fn_is_expected tok x e2 = (ok, if ok then e2 else e1).
Proof.
  intros tok x e ok e1 e2 H. unfold fn_is_expected in *.
  destruct x as [s|].
  - destruct (tok_eq tok s); injection H as <- <-; split;
      try reflexivity; discriminate.
  - destruct (negb (TokenType_eqb (type tok) MALFORMED));
      injection H as <- <-; split; try reflexivity; discriminate.
Qed.

Ltac frame_expected :=
  repeat match goal with
    | H : fn_is_expected _ _ _ = (_, _) |- _ =>
        let Hs := fresh "Hsame" in
        let Hf := fresh "Hframe" in
        pose proof (fun e2 => proj2 (@fn_is_expected_frame _ _ _ _ _ e2 H))
          as Hf;
        pose proof (proj1 (@fn_is_expected_frame _ _ _ _ _ [] H)) as Hs;
        clear H; cbv iota in Hf;
        try (specialize (Hs eq_refl); subst)
    end.

Ltac by_rule :=
  first
    [ solve [eapply Reads_dict_empty; eauto]
    | solve [eapply Reads_dict; eauto]
    | solve [eapply Reads_list_empty; eauto]
    | solve [eapply Reads_list; eauto]
    | solve [eapply Reads_atom_bad; eauto]
    | solve [eapply Reads_atom; eauto]
    | solve [eapply ReadsDict_key_bad; eauto]
    | solve [eapply ReadsDict_colon_bad; eauto]
    | solve [eapply ReadsDict_value_bad; eauto]
    | solve [eapply ReadsDict_close; eauto]
    | solve [eapply ReadsDict_comma_bad; eauto]
    | solve [eapply ReadsDict_next; eauto]
    | solve [eapply ReadsList_value_bad; eauto]
    | solve [eapply ReadsList_close; eauto]
    | solve [eapply ReadsList_comma_bad; eauto]
    | solve [eapply ReadsList_next; eauto] ].

Lemma Reads_ignores_out_err :
  (forall g e r, Reads g e r -> ignores_out_err Reads g e r)
  /\ (forall cur g e r, ReadsDict cur g e r ->
                        ignores_out_err (ReadsDict cur) g e r)
  /\ (forall cur i g e r, ReadsList cur i g e r ->
                          ignores_out_err (ReadsList cur i) g e r).
Proof.
  apply Reads_mutind; intros; unfold ignores_out_err in *;
    frame_expected;
    repeat match goal with
      | r : ReadResult |- _ => destruct r as [[[t0|] g0] e0]
      end;
    cbv beta iota in *;
    repeat match goal with
      | H : _ /\ _ |- _ => destruct H
      end; subst;
    try (split; [reflexivity|]).
  all: intros other; by_rule.
Qed.

End ErrorStringIsWriteOnly.

(** X15. [read] never reads [*out_err]: whatever it holds on entry, the
    same input gives the same tree, leaving [*out_err] as it was, or the
    same failure with the same message. *)
Theorem read_ignores_out_err : forall input e1 e2 r m,
    read input e1 = Some (r, m) ->
    read input e2 = Some (r, match r with Some _ => e2 | None => m end).
Proof.
  intros input e1 e2 r m H. unfold read in *.
  destruct (read_gen (TokenGen_new input) e1) as [[[r1 g1] m1]|] eqn:E;
    [|discriminate].
  injection H as -> ->. apply read_gen_Reads in E.
  pose proof (proj1 Reads_ignores_out_err _ _ _ E) as F.
  unfold ignores_out_err in F. destruct r as [t|].
  - destruct F as [_ F]. specialize (F e2). apply read_gen_Reads in F.
    rewrite F. reflexivity.
  - specialize (F e2). apply read_gen_Reads in F. rewrite F. reflexivity.
Qed.

(** The theorem at an array that is not closed, read with two contents of
    the error string. *)
Lemma read_ignores_out_err_witness :
  read (lit "[1 2") (lit "new")
  = Some (None, jlit "Error: L1:4: Expected ',', got: '2'.").
Proof.
  apply (@read_ignores_out_err (lit "[1 2") (lit "old") (lit "new")
           None _ eq_refl).
Defined.

(** X16. [write] loses nothing that [read] recovers: two well-formed
    trees with the same text, at a base indentation made of whitespace,
    differ at most in the members that [write] does not look at. *)
Theorem write_injective : forall t1 t2 indent,
    Wellformed t1 -> Wellformed t2 -> forallb is_ws indent = true ->
    write t1 indent = write t2 indent -> norm t1 = norm t2.
Proof.
  intros t1 t2 indent H1 H2 Hind Heq.
  destruct (Wellformed_reads_back H1 [] indent [] (1%N, 1%N) []
              eq_refl Hind eq_refl) as [[p1 R1] _].
  destruct (Wellformed_reads_back H2 [] indent [] (1%N, 1%N) []
              eq_refl Hind eq_refl) as [[p2 R2] _].
  rewrite Heq in R1. pose proof (Reads_fun R1 R2) as E. congruence.
Qed.

(** The theorem at a scalar and at a node with the same text that also
    holds an element [write] does not look at. *)
Lemma write_injective_witness :
  norm (val_assign (lit "1") Val_new)
  = norm (mkVal [] false [Val_new] false (lit "1")).
Proof.
  apply (@write_injective (val_assign (lit "1") Val_new)
           (mkVal [] false [Val_new] false (lit "1")) []);
    try reflexivity;
    constructor; cbn; try discriminate; intros _ _; right;
    cbn; repeat split; discriminate.
Defined.

(** ** A comma before the closing bracket *)

(** X17. A comma before the closing brace of an object is rejected: after
    an entry and a comma, the closing brace is taken for the next key, and
    [read] returns no tree, with a message that expects STRING and shows
    the brace. *)
Theorem object_trailing_comma_is_rejected : forall k t w rest e,
    is_token STRING k [] -> Wellformed t -> forallb is_ws w = true ->
    exists p,
      read (lit "{" ++ k ++ lit ":" ++ write t [] ++ lit "," ++ w ++ lit "}"
              ++ rest) e
      = Some (None, fn_err (tok_at (lit "}") p SYMBOL) (lit "STRING")).
Proof.
  intros k t w rest e Hk Hwf Hw.
  set (T5 := w ++ lit "}" ++ rest).
  set (T4 := lit "," ++ T5).
  set (T3 := write t [] ++ T4).
  set (T2 := lit ":" ++ T3).
  set (T1 := k ++ T2).
  pose (p1 := adv ([] ++ lit "{") (1%N, 1%N)).
  pose (p2 := adv ([] ++ k) p1).
  pose (p3 := adv ([] ++ lit ":") p2).
  pose proof (@NextNonWS_token [] SYMBOL (lit "{") T1 (1%N, 1%N) eq_refl
                (symbol_is_token "{" _ eq_refl) ltac:(discriminate)) as E0.
  pose proof (@NextNonWS_token [] STRING k T2 p1 eq_refl Hk
                ltac:(discriminate)) as E1.
  pose proof (@NextNonWS_token [] SYMBOL (lit ":") T3 p2 eq_refl
                (symbol_is_token ":" _ eq_refl) ltac:(discriminate)) as E2.
  destruct (Wellformed_reads_back Hwf [] [] T4 p3 e eq_refl eq_refl eq_refl)
    as [[p4 Hr] _].
  pose proof (@NextNonWS_token [] SYMBOL (lit ",") T5 p4 eq_refl
                (symbol_is_token "," _ eq_refl) ltac:(discriminate)) as E3.
  pose proof (@NextNonWS_token w SYMBOL (lit "}") rest
                (adv ([] ++ lit ",") p4) Hw
                (symbol_is_token "}" _ eq_refl) ltac:(discriminate)) as E4.
  destruct (@atom_not_bracket STRING k [] Hk (or_introl eq_refl))
    as (_ & _ & _ & Hnb).
  exists (adv w (adv ([] ++ lit ",") p4)).
  assert (Hrun : Reads (TokenGen_new (lit "{" ++ T1)) e
                   (None, gen_at rest (adv (w ++ lit "}") (adv ([] ++ lit ",") p4)),
                    fn_err (tok_at (lit "}") (adv w (adv ([] ++ lit ",") p4))
                                   SYMBOL) (lit "STRING"))).
  { eapply Reads_dict; [exact E0 | reflexivity | exact E1 | exact Hnb |].
    eapply ReadsDict_next with (k := tok_at k _ STRING);
      [exact E1 | reflexivity | exact E2 | reflexivity | exact Hr
      | exact E3 | reflexivity | reflexivity |].
    eapply ReadsDict_key_bad; [exact E4 | reflexivity]. }
  apply read_gen_Reads in Hrun. unfold read.
  subst T1 T2 T3 T4 T5. rewrite Hrun. reflexivity.
Qed.

(** The theorem at an object of one entry. *)
Lemma object_trailing_comma_is_rejected_witness :
  exists p,
    read (jlit "{'a':1, }") []
    = Some (None, fn_err (tok_at (lit "}") p SYMBOL) (lit "STRING")).
Proof.
  refine (@object_trailing_comma_is_rejected (jlit "'a'")
            (val_assign (lit "1") Val_new) [space] [] [] eq_refl _ eq_refl).
  constructor; cbn; try discriminate. intros _ _. right.
  cbn. repeat split. discriminate.
Defined.

(** X18. A comma before the closing bracket of an array does not make a
    trailing comma: the bracket after the comma is read as an element, the
    scalar that holds a closing bracket. If another closing bracket follows,
    [read] returns the array with that scalar as its last element; if the
    input ends there, [read] returns no tree, with a message that expects a
    comma and shows an empty token. *)
Theorem array_trailing_comma_is_an_element : forall t w w2 e,
    Wellformed t -> forallb is_ws w = true -> forallb is_ws w2 = true ->
    (forall rest,
        read (lit "[" ++ write t [] ++ lit "," ++ w ++ lit "]" ++ w2
                ++ lit "]" ++ rest) e
        = Some (Some (mkVal [] false [norm t; closing_scalar] true []), e))
    /\ (exists p,
           read (lit "[" ++ write t [] ++ lit "," ++ w ++ lit "]" ++ w2) e
           = Some (None, fn_err (tok_at [] p MALFORMED)
                                ([dquote] ++ lit "," ++ [dquote]))).
Proof.
  intros t w w2 e Hwf Hw Hw2.
  assert (Hstart : forall T5,
             exists p5,
               NextNonWS (TokenGen_new (lit "[" ++ write t [] ++ lit "," ++ T5))
               = (tok_at (lit "[") (1%N, 1%N) SYMBOL,
                  gen_at (write t [] ++ lit "," ++ T5)
                         (adv ([] ++ lit "[") (1%N, 1%N)))
               /\ tok_eq (fst (NextNonWS
                                 (gen_at (write t [] ++ lit "," ++ T5)
                                         (adv ([] ++ lit "[") (1%N, 1%N)))))
                         (lit "]") = false
               /\ Reads (gen_at (write t [] ++ lit "," ++ T5)
                                (adv ([] ++ lit "[") (1%N, 1%N))) e
                        (Some (norm t), gen_at (lit "," ++ T5) p5, e)).
  { intros T5.
    destruct (Wellformed_reads_back Hwf [] [] (lit "," ++ T5)
                (adv ([] ++ lit "[") (1%N, 1%N)) e eq_refl eq_refl eq_refl)
      as [[p5 Hr] Hpeek].
    exists p5. split; [|split; assumption].
    apply (@NextNonWS_token [] SYMBOL (lit "[") _ (1%N, 1%N) eq_refl
             (symbol_is_token "[" _ eq_refl) ltac:(discriminate)). }
  split.
  - intros rest.
    set (T7 := w2 ++ lit "]" ++ rest).
    set (T6 := w ++ lit "]" ++ T7).
    destruct (Hstart T6) as (p5 & E0 & Hpeek & Hr).
    pose proof (@NextNonWS_token [] SYMBOL (lit ",") T6 p5 eq_refl
                  (symbol_is_token "," _ eq_refl) ltac:(discriminate)) as E1.
    pose proof (@NextNonWS_token w SYMBOL (lit "]") T7
                  (adv ([] ++ lit ",") p5) Hw
                  (symbol_is_token "]" _ eq_refl) ltac:(discriminate)) as E2.
    pose proof (@NextNonWS_token w2 SYMBOL (lit "]") rest
                  (adv (w ++ lit "]") (adv ([] ++ lit ",") p5)) Hw2
                  (symbol_is_token "]" _ eq_refl) ltac:(discriminate)) as E3.
    match type of Hpeek with
    | tok_eq (fst (NextNonWS ?g)) _ = _ =>
        destruct (NextNonWS g) as [peek g2] eqn:Epeek
    end.
    cbn [fst] in Hpeek.
    assert (Hrun : Reads (TokenGen_new (lit "[" ++ write t [] ++ lit "," ++ T6))
                     e
                     (Some (mkVal [] false [norm t; closing_scalar] true []),
                      gen_at rest
                        (adv (w2 ++ lit "]")
                           (adv (w ++ lit "]") (adv ([] ++ lit ",") p5))),
                      e)).
    { eapply Reads_list;
        [exact E0 | reflexivity | reflexivity | exact Epeek | exact Hpeek |].
      eapply ReadsList_next;
        [exact Hr | exact E1 | reflexivity | reflexivity |].
      change (mkVal [] false [norm t; closing_scalar] true [])
        with (index_assign (index_pos (0 + 1))
                (val_assign (tok_str (tok_at (lit "]")
                                        (adv w (adv ([] ++ lit ",") p5)) SYMBOL))
                            Val_new)
                (index_assign (index_pos 0) (norm t) (set_list Val_new))).
      eapply ReadsList_close; [|exact E3 | reflexivity].
      eapply Reads_atom; [exact E2 | reflexivity | reflexivity | reflexivity]. }
    apply read_gen_Reads in Hrun. unfold read.
    subst T6 T7. rewrite Hrun. reflexivity.
  - set (T6 := w ++ lit "]" ++ w2).
    destruct (Hstart T6) as (p5 & E0 & Hpeek & Hr).
    pose proof (@NextNonWS_token [] SYMBOL (lit ",") T6 p5 eq_refl
                  (symbol_is_token "," _ eq_refl) ltac:(discriminate)) as E1.
    pose proof (@NextNonWS_token w SYMBOL (lit "]") w2
                  (adv ([] ++ lit ",") p5) Hw
                  (symbol_is_token "]" _ eq_refl) ltac:(discriminate)) as E2.
    pose (p7 := adv (w ++ lit "]") (adv ([] ++ lit ",") p5)).
    assert (E3 : NextNonWS (gen_at w2 p7)
                 = (tok_at [] (adv w2 p7) MALFORMED,
                    gen_at [] (adv [] (adv w2 p7)))).
    { rewrite <- (app_nil_r w2) at 1.
      rewrite NextNonWS_skip_ws by assumption.
      rewrite NextNonWS_no_ws by reflexivity.
      apply Next_unmatched; reflexivity. }
    match type of Hpeek with
    | tok_eq (fst (NextNonWS ?g)) _ = _ =>
        destruct (NextNonWS g) as [peek g2] eqn:Epeek
    end.
    cbn [fst] in Hpeek.
    exists (adv w2 p7).
    assert (Hrun : Reads (TokenGen_new (lit "[" ++ write t [] ++ lit "," ++ T6))
                     e
                     (None, gen_at [] (adv [] (adv w2 p7)),
                      fn_err (tok_at [] (adv w2 p7) MALFORMED)
                             ([dquote] ++ lit "," ++ [dquote]))).
    { eapply Reads_list;
        [exact E0 | reflexivity | reflexivity | exact Epeek | exact Hpeek |].
      eapply ReadsList_next;
        [exact Hr | exact E1 | reflexivity | reflexivity |].
      eapply ReadsList_comma_bad; [|exact E3 | reflexivity | reflexivity].
      eapply Reads_atom; [exact E2 | reflexivity | reflexivity | reflexivity]. }
    apply read_gen_Reads in Hrun. unfold read.
    subst T6. rewrite Hrun. reflexivity.
Qed.

(** The theorem at an array of one number. *)
Lemma array_trailing_comma_is_an_element_witness :
  read (lit "[1, ]]") []
  = Some (Some (mkVal [] false
                  [val_assign (lit "1") Val_new; closing_scalar] true []), []).
Proof.
  refine (proj1 (@array_trailing_comma_is_an_element
                   (val_assign (lit "1") Val_new) [space] [] [] _
                   eq_refl eq_refl) []).
  constructor; cbn; try discriminate. intros _ _. right.
  cbn. repeat split. discriminate.
Defined.

(** X19. Values are read one after another from the same generator: on
    the text of a well-formed tree, whitespace and the text of a second
    well-formed tree, the recursive [read] gives the first tree and leaves
    the generator where a second call gives the second tree and reaches the
    end of the input. *)
Theorem reads_in_sequence : forall t1 t2 sep e,
    Wellformed t1 -> Wellformed t2 ->
    sep <> [] -> forallb is_ws sep = true ->
    exists g1 g2,
      read_gen (TokenGen_new (write t1 [] ++ sep ++ write t2 [])) e
      = Some (Some (norm t1), g1, e)
      /\ read_gen g1 e = Some (Some (norm t2), g2, e)
      /\ remaining g2 = [].
Proof.
  intros t1 t2 sep e H1 H2 Hne Hsep.
  assert (Hrest : span_len is_word (sep ++ write t2 []) = 0).
  { destruct sep as [|c sep]; [congruence|]. cbn [app span_len].
    cbn [forallb] in Hsep. apply andb_true_iff in Hsep. destruct Hsep as [Hc _].
    destruct (is_word c) eqn:E; [|reflexivity].
    destruct (word_char _ E). congruence. }
  destruct (Wellformed_reads_back H1 [] [] (sep ++ write t2 []) (1%N, 1%N) e
              eq_refl eq_refl Hrest) as [[p1 R1] _].
  destruct (Wellformed_reads_back H2 sep [] [] p1 e Hsep eq_refl eq_refl)
    as [[p2 R2] _].
  rewrite app_nil_r in R2. cbn [app] in R1.
  exists (gen_at (sep ++ write t2 []) p1), (gen_at [] p2).
  split; [apply read_gen_Reads; exact R1|].
  split; [apply read_gen_Reads; exact R2 | reflexivity].
Qed.

(** The theorem at a number and an empty array on two lines. *)
Lemma reads_in_sequence_witness :
  exists g1 g2,
    read_gen (TokenGen_new (lit "1" ++ [newline] ++ lit "[]")) []
    = Some (Some (val_assign (lit "1") Val_new), g1, [])
    /\ read_gen g1 [] = Some (Some (set_list Val_new), g2, [])
    /\ remaining g2 = [].
Proof.
  refine (@reads_in_sequence (val_assign (lit "1") Val_new)
            (set_list Val_new) [newline] [] _ _ _ eq_refl).
  - constructor; cbn; try discriminate. intros _ _. right.
    cbn. repeat split. discriminate.
  - constructor; cbn; try discriminate. intros _ _. constructor.
  - discriminate.
Defined.

Section StoresCommute.

Variable A : Type.

Lemma map_set_commute : forall (d : list (str * A)) x y v w,
    x <> y ->
    map_set x v (map_set y w d) = map_set y w (map_set x v d).
Proof.
  assert (Hcmp : forall a b : str,
             a <> b ->
             (str_ltb a b = true /\ str_ltb b a = false)
             \/ (str_ltb a b = false /\ str_ltb b a = true)).
  { intros a b Hab. destruct (str_ltb a b) eqn:E1.
    - left. split; [reflexivity | apply str_ltb_asym; assumption].
    - right. split; [reflexivity|]. destruct (str_ltb b a) eqn:E2;
        [reflexivity|]. exfalso. apply Hab. apply str_ltb_total; assumption. }
  induction d as [|[k u] d IH]; intros x y v w Hxy.
  - cbn [map_set].
    destruct (Hcmp x y Hxy) as [[E1 E2] | [E1 E2]]; rewrite E1, E2;
      reflexivity.
  - destruct (Hcmp x y Hxy) as [[Exy Eyx] | [Exy Eyx]];
      cbn [map_set];
      destruct (str_ltb x k) eqn:Exk; destruct (str_ltb k x) eqn:Ekx;
      destruct (str_ltb y k) eqn:Eyk; destruct (str_ltb k y) eqn:Eky;
      cbn [map_set];
      rewrite ?Exy, ?Eyx, ?Exk, ?Ekx, ?Eyk, ?Eky;
      cbn [map_set];
      rewrite ?Exy, ?Eyx, ?Exk, ?Ekx, ?Eyk, ?Eky;
      try reflexivity;
      try (rewrite IH by assumption; reflexivity);
      try (rewrite (str_ltb_asym _ _ Exk) in Ekx; discriminate);
      try (rewrite (str_ltb_asym _ _ Eyk) in Eky; discriminate);
      try (rewrite (str_ltb_trans _ _ _ Exk Eky) in Exy; discriminate);
      try (rewrite (str_ltb_trans _ _ _ Eyk Ekx) in Eyx; discriminate);
      try (rewrite (str_ltb_trans _ _ _ Exy Eyk) in Exk; discriminate);
      try (rewrite (str_ltb_trans _ _ _ Eyx Exk) in Eyk; discriminate);
      try (rewrite (str_ltb_trans _ _ _ Ekx Exy) in Eky; discriminate);
      try (rewrite (str_ltb_trans _ _ _ Eky Eyx) in Ekx; discriminate);
      try (exfalso; apply Hxy;
           rewrite (str_ltb_total _ _ Exk Ekx), (str_ltb_total _ _ Eyk Eky);
           reflexivity).
Qed.

End StoresCommute.

(** X20. Stores under two different keys commute: the node is the same
    whichever entry was stored first, so the order in which [write] sends
    the entries does not depend on the order in which they were stored. *)
Theorem key_stores_commute : forall n x y v w,
    x <> y ->
    index_assign (index_key x) v (index_assign (index_key y) w n)
    = index_assign (index_key y) w (index_assign (index_key x) v n).
Proof.
  intros n x y v w Hxy.
  rewrite (store_key_fields x v (index_assign _ w n)).
  rewrite (store_key_fields y w (index_assign _ v n)).
  rewrite (store_key_fields y w n), (store_key_fields x v n).
  rewrite is_dict_set_dict.
  change (set_dict (mkVal ?d true ?l ?b ?s)) with (mkVal d true l b s).
  cbn [is_dict_ dict_ list_ is_list_ val_].
  rewrite (map_set_commute _ _ _ Hxy). reflexivity.
Qed.

(** The theorem at two keys stored into a scalar. *)
Lemma key_stores_commute_witness :
  write (index_assign (index_key (lit "a")) (val_assign (lit "1") Val_new)
           (index_assign (index_key (lit "b")) (val_assign (lit "2") Val_new)
              (val_assign (lit "x") Val_new))) []
  = write (index_assign (index_key (lit "b")) (val_assign (lit "2") Val_new)
             (index_assign (index_key (lit "a")) (val_assign (lit "1") Val_new)
                (val_assign (lit "x") Val_new))) [].
Proof.
  rewrite (@key_stores_commute (val_assign (lit "x") Val_new)
             (lit "a") (lit "b") (val_assign (lit "1") Val_new)
             (val_assign (lit "2") Val_new));
    [reflexivity | discriminate].
Defined.

(** X21. The loop of [NextNonWS] turns at most twice: whitespace is one
    token, so the token after a WHITESPACE token is not whitespace, and
    [NextNonWS] is [Next], or [Next] after one [Next]. What it returns is
    never a WHITESPACE token. *)
Theorem NextNonWS_turns_at_most_twice : forall s p,
    let g := gen_at s p in
    NextNonWS g
    = (if TokenType_eqb (type (fst (Next g))) WHITESPACE
       then Next (snd (Next g)) else Next g)
    /\ type (fst (NextNonWS g)) <> WHITESPACE.
Proof.
  intros s p g. split.
  - apply NextNonWS_unfold. apply gen_at_ok.
  - destruct (NextNonWS g) as [tok g'] eqn:E.
    apply (proj1 (NextNonWS_not_ws (gen_at_ok s p) E)).
Qed.

(** ** Objects with repeated keys *)

Section RepeatedKeys.

(** Whitespace and then a symbol do not begin with a word character. *)
Lemma ws_symbol_not_word : forall w c r,
    forallb is_ws w = true -> is_symbol c = true ->
    span_len is_word (w ++ c :: r) = 0.
Proof.
  intros [|x w] c r Hw Hc; cbn [app span_len].
  - destruct (symbol_char _ Hc) as (_ & -> & _). reflexivity.
  - cbn [forallb] in Hw. apply andb_true_iff in Hw. destruct Hw as [Hx _].
    destruct (is_word x) eqn:E; [|reflexivity].
    destruct (word_char _ E). congruence.
Qed.

(** A value that is read from its own text is read in the same way where
    the text stands in a longer input, after whitespace and before a text
    that does not go on with a word. *)
Lemma value_in_place : forall c v g' bv tail p e,
    read_gen (TokenGen_new c) [] = Some (Some v, g', []) ->
    remaining g' = [] ->
    forallb is_ws bv = true -> span_len is_word tail = 0 ->
    exists p',
      Reads (gen_at (bv ++ c ++ tail) p) e (Some v, gen_at tail p', e).
Proof.
  intros c v g' bv tail p e H Hrem Hbv Htail.
  apply read_gen_Reads in H.
  pose proof (proj1 Reads_ignores_out_err _ _ _ H) as Hany.
  cbv beta iota delta [ignores_out_err] in Hany.
  destruct Hany as [_ Hany]. specialize (Hany e).
  assert (Hc : remaining (TokenGen_new c) = c ++ remaining g').
  { rewrite Hrem, app_nil_r. reflexivity. }
  destruct (proj1 Reads_extend _ _ _ Hany _ _ _ eq_refl
                  (gen_at_ok c (1%N, 1%N)) c Hc) as (_ & _ & _ & Hext).
  specialize (Hext tail (or_introl Htail)).
  assert (S : same_input (gen_at (c ++ tail) (gen_pos (TokenGen_new c)))
                         (gen_at (c ++ tail) (adv bv p))).
  { split; [reflexivity|]. split; apply gen_at_ok. }
  destruct (proj1 Reads_position_free _ _ _ Hext _ _ _ eq_refl _ S)
    as (h' & Hrun & (Hr' & _ & Hh')).
  exists (gen_pos h').
  eapply Reads_first_step; [apply NextNonWS_skip_ws; exact Hbv|].
  replace (gen_at tail (gen_pos h')) with h'; [exact Hrun|].
  rewrite (gen_ok_shape Hh') at 1. rewrite <- Hr'. reflexivity.
Qed.

Lemma entries_src_cons : forall en en' ens,
    entries_src (en :: en' :: ens)
    = entry_src en ++ lit "," ++ entries_src (en' :: ens).
Proof. reflexivity. Qed.

(** The loop over the entries of an object stores them one after the
    other. *)
Lemma ReadsDict_stores : forall evs ev d rest p e,
    Forall (fun ev => entry_reads (fst ev) (snd ev)) (ev :: evs) ->
    exists p',
      ReadsDict (mkVal d true [] false [])
        (gen_at (entries_src (map fst (ev :: evs)) ++ lit "}" ++ rest) p) e
        (Some (mkVal (store_entries (ev :: evs) d) true [] false []),
         gen_at rest p', e).
Proof.
  induction evs as [|ev' evs IH]; intros [en v] d rest p e Hall;
    inversion Hall as [|? ? Hen Hall']; subst; cbn [fst snd] in Hen;
    destruct Hen as (Hbk & Hbc & Hbv & Hav & Hkey & g' & Hval & Hrem).
  - cbn [map fst entries_src]. unfold entry_src.
    repeat rewrite <- app_assoc.
    pose (R3 := after_value en ++ lit "}" ++ rest).
    pose (R2 := before_value en ++ value_text en ++ R3).
    pose (R1 := before_colon en ++ lit ":" ++ R2).
    pose proof (@NextNonWS_token (before_key en) STRING (key_text en) R1 p
                  Hbk Hkey ltac:(discriminate)) as E1.
    pose proof (@NextNonWS_token (before_colon en) SYMBOL (lit ":") R2
                  (adv (before_key en ++ key_text en) p)
                  Hbc (symbol_is_token ":" R2 eq_refl)
                  ltac:(discriminate)) as E2.
    destruct (@value_in_place _ _ _ (before_value en) R3
                (adv (before_colon en ++ lit ":")
                     (adv (before_key en ++ key_text en) p)) e
                Hval Hrem Hbv
                (ws_symbol_not_word (after_value en) "}" rest Hav eq_refl))
      as [p3 Hread].
    pose proof (@NextNonWS_token (after_value en) SYMBOL (lit "}") rest p3
                  Hav (symbol_is_token "}" rest eq_refl)
                  ltac:(discriminate)) as E3.
    eexists. unfold store_entries. cbn [fold_left fst snd].
    rewrite <- store_key_in_dict.
    eapply ReadsDict_close
      with (k := tok_at (key_text en) (adv (before_key en) p) STRING);
      [exact E1 | reflexivity | exact E2 | reflexivity | exact Hread
      | exact E3 | reflexivity].
  - cbn [map fst]. rewrite entries_src_cons. unfold entry_src at 1.
    repeat rewrite <- app_assoc.
    change (map fst (ev' :: evs)) with (map fst (ev' :: evs)).
    pose (R4 := entries_src (fst ev' :: map fst evs) ++ lit "}" ++ rest).
    pose (R3 := after_value en ++ lit "," ++ R4).
    pose (R2 := before_value en ++ value_text en ++ R3).
    pose (R1 := before_colon en ++ lit ":" ++ R2).
    pose proof (@NextNonWS_token (before_key en) STRING (key_text en) R1 p
                  Hbk Hkey ltac:(discriminate)) as E1.
    pose proof (@NextNonWS_token (before_colon en) SYMBOL (lit ":") R2
                  (adv (before_key en ++ key_text en) p)
                  Hbc (symbol_is_token ":" R2 eq_refl)
                  ltac:(discriminate)) as E2.
    destruct (@value_in_place _ _ _ (before_value en) R3
                (adv (before_colon en ++ lit ":")
                     (adv (before_key en ++ key_text en) p)) e
                Hval Hrem Hbv
                (ws_symbol_not_word (after_value en) "," R4 Hav eq_refl))
      as [p3 Hread].
    pose proof (@NextNonWS_token (after_value en) SYMBOL (lit ",") R4 p3
                  Hav (symbol_is_token "," R4 eq_refl)
                  ltac:(discriminate)) as E3.
    destruct (IH ev' (map_set (entry_key en) v d) rest
                 (adv (after_value en ++ lit ",") p3) e Hall')
      as [p' Hloop].
    exists p'. rewrite <- store_key_in_dict in Hloop.
    eapply ReadsDict_next
      with (k := tok_at (key_text en) (adv (before_key en) p) STRING);
      [exact E1 | reflexivity | exact E2 | reflexivity | exact Hread
      | exact E3 | reflexivity | reflexivity | exact Hloop].
Qed.

(** The text of an object is read as the map of its entries stored one
    after the other. *)
Lemma object_reads : forall w0 evs rest e,
    forallb is_ws w0 = true ->
    Forall (fun ev => entry_reads (fst ev) (snd ev)) evs ->
    exists g',
      Reads (TokenGen_new (object_src w0 (map fst evs) rest)) e
            (Some (mkVal (store_entries evs []) true [] false []), g', e).
Proof.
  intros w0 evs rest e Hw Hall. unfold object_src.
  change (TokenGen_new ?s) with (gen_at s (1%N, 1%N)).
  pose proof (fun R => @NextNonWS_token w0 SYMBOL (lit "{") R (1%N, 1%N) Hw
                (symbol_is_token "{" R eq_refl) ltac:(discriminate)) as E0.
  destruct evs as [|[en v] evs].
  - cbn [map entries_src app].
    pose proof (@NextNonWS_token [] SYMBOL (lit "}") rest
                  (adv (w0 ++ lit "{") (1%N, 1%N)) eq_refl
                  (symbol_is_token "}" rest eq_refl)
                  ltac:(discriminate)) as E1.
    eexists. eapply Reads_dict_empty;
      [apply E0 | reflexivity | exact E1 | reflexivity].
  - destruct (@ReadsDict_stores evs (en, v) [] rest
                (adv (w0 ++ lit "{") (1%N, 1%N)) e Hall) as [p' Hloop].
    pose proof Hall as Hen. apply Forall_inv in Hen. cbn [fst snd] in Hen.
    destruct Hen as (Hbk & _ & _ & _ & Hkey & _).
    assert (Hpeek : exists R,
               entries_src (map fst ((en, v) :: evs)) ++ lit "}" ++ rest
               = before_key en ++ key_text en ++ R).
    { destruct evs as [|ev' evs].
      - cbn [map fst entries_src]. unfold entry_src.
        repeat rewrite <- app_assoc. eexists. reflexivity.
      - cbn [map fst]. rewrite entries_src_cons. unfold entry_src at 1.
        repeat rewrite <- app_assoc. eexists. reflexivity. }
    destruct Hpeek as [R HR].
    pose proof (@NextNonWS_token (before_key en) STRING (key_text en) R
                  (adv (w0 ++ lit "{") (1%N, 1%N))
                  Hbk Hkey ltac:(discriminate)) as E1.
    rewrite <- HR in E1.
    destruct (@atom_not_bracket STRING (key_text en) [] Hkey
                                (or_introl eq_refl)) as (_ & _ & _ & Hnb).
    exists (gen_at rest p').
    eapply Reads_dict; [apply E0 | reflexivity | exact E1 | exact Hnb |].
    exact Hloop.
Qed.

Lemma store_entries_sorted : forall evs d,
    StronglySorted key_lt d -> StronglySorted key_lt (store_entries evs d).
Proof.
  induction evs as [|ev evs IH]; intros d Hd; [exact Hd|].
  apply IH. apply map_set_sorted. exact Hd.
Qed.

(** Looking a key up after the stores finds the value of the last entry
    that has the key. *)
Lemma store_entries_find : forall evs d key,
    map_find key (store_entries evs d)
    = match last_value key evs with
      | Some v => Some v
      | None => map_find key d
      end.
Proof.
  induction evs as [|[en v] evs IH]; intros d key; [reflexivity|].
  unfold store_entries in *. cbn [fold_left last_value fst snd].
  rewrite IH. destruct (last_value key evs) as [w|]; [reflexivity|].
  destruct (str_eqb (entry_key en) key) eqn:E.
  - apply str_eqb_eq in E. subst key. apply map_find_set_same.
  - apply map_find_set_other. intros Heq. subst key.
    assert (str_eqb (entry_key en) (entry_key en) = true)
      by (apply str_eqb_eq; reflexivity).
    congruence.
Qed.

Lemma entries_of_above : forall key (d : list (str * Val)),
    Forall (fun kv => str_ltb key (fst kv) = true) d -> entries_of key d = [].
Proof.
  intros key d H. induction H as [|[k w] d Hk _ IH]; [reflexivity|].
  unfold entries_of in *. cbn [filter fst] in *.
  destruct (str_eqb k key) eqn:E; [|exact IH].
  apply str_eqb_eq in E. subst k. rewrite str_ltb_irrefl in Hk. discriminate.
Qed.

(** In a map, whose keys go up, the entries that have a key are the one
    that the lookup finds. *)
Lemma entries_of_sorted : forall key d,
    StronglySorted key_lt d ->
    entries_of key d
    = match map_find key d with Some v => [(key, v)] | None => [] end.
Proof.
  intros key d H. induction H as [|[k w] d Hd IH Hk]; [reflexivity|].
  assert (Habove : forall x, str_ltb k x = false ->
             Forall (fun kv : str * Val => str_ltb x (fst kv) = true) d).
  { intros x Hx. eapply Forall_impl; [|exact Hk].
    intros [k' w'] Hlt. unfold key_lt in Hlt. cbn [fst] in *.
    destruct (str_ltb x k) eqn:E; [eapply str_ltb_trans; eassumption|].
    rewrite (str_ltb_total _ _ E Hx). exact Hlt. }
  unfold entries_of in *. cbn [filter map_find fst].
  destruct (str_ltb k key) eqn:E1.
  - destruct (str_eqb k key) eqn:E; [|exact IH].
    apply str_eqb_eq in E. subst k. rewrite str_ltb_irrefl in E1. discriminate.
  - pose proof (@entries_of_above key d (Habove key E1)) as Hnone.
    unfold entries_of in Hnone. rewrite Hnone.
    destruct (str_ltb key k) eqn:E2.
    + destruct (str_eqb k key) eqn:E; [|reflexivity].
      apply str_eqb_eq in E. subst k. rewrite str_ltb_irrefl in E2.
      discriminate.
    + pose proof (str_ltb_total _ _ E1 E2) as ->.
      assert (E : str_eqb key key = true) by (apply str_eqb_eq; reflexivity).
      rewrite E. reflexivity.
Qed.

(** A key that comes three times, among other entries and with nested
    values, evaluated. *)
Lemma repeated_key_evaluated :
  read (jlit "{'a': 1, 'b': [1], 'a': 2, 'a': {'a': 3}}") []
  = Some (Some (mkVal
                  [(lit "a",
                    mkVal [(lit "a", val_assign (lit "3") Val_new)]
                          true [] false []);
                   (lit "b",
                    mkVal [] false [val_assign (lit "1") Val_new] true [])]
                  true [] false []),
          []).
Proof. vm_compute. reflexivity. Qed.

End RepeatedKeys.

(** C6. An object is parsed without an error whatever keys its entries
    repeat, and the Object that [read] returns holds, for every key,
    exactly one entry when some entry of the text has the key and none
    otherwise; the value of that entry, which is also what the lookup of
    the key finds, is the one parsed from the last entry of the text that
    has the key. The object is any text made of entries between braces,
    with commas between them, after whitespace and before any other text;
    an entry is a STRING token, a colon and a text that is read as a value,
    with any whitespace around them. *)
Theorem duplicate_key_last_wins : forall before evs rest e,
    forallb is_ws before = true ->
    Forall (fun ev => entry_reads (fst ev) (snd ev)) evs ->
    exists d,
      read (object_src before (map fst evs) rest) e
      = Some (Some (mkVal d true [] false []), e)
      /\ forall key,
          map_find key d = last_value key evs
          /\ entries_of key d
             = match last_value key evs with
               | Some v => [(key, v)]
               | None => []
               end.
Proof.
  intros before evs rest e Hw Hall.
  exists (store_entries evs []).
  destruct (@object_reads before evs rest e Hw Hall) as [g' Hrun].
  split; [exact (@read_of_Reads _ _ _ _ _ Hrun)|].
  intros key.
  assert (Hfind : map_find key (store_entries evs []) = last_value key evs).
  { rewrite store_entries_find. destruct (last_value key evs); reflexivity. }
  split; [exact Hfind|].
  rewrite entries_of_sorted, Hfind; [reflexivity|].
  apply store_entries_sorted. constructor.
Qed.

(** The theorem at the example of the specification, in which the key
    [a] comes twice. *)
Lemma duplicate_key_last_wins_witness :
  exists d,
    read (jlit "{'a': 1, 'a': 2}") []
    = Some (Some (mkVal d true [] false []), [])
    /\ forall key,
        map_find key d
        = (if str_eqb (lit "a") key
           then Some (val_assign (lit "2") Val_new) else None)
        /\ entries_of key d
           = (if str_eqb (lit "a") key
              then [(key, val_assign (lit "2") Val_new)] else []).
Proof.
  destruct (@duplicate_key_last_wins []
              [(mkEntry [] (jlit "'a'") [] (lit " ") (lit "1") [],
                val_assign (lit "1") Val_new);
               (mkEntry (lit " ") (jlit "'a'") [] (lit " ") (lit "2") [],
                val_assign (lit "2") Val_new)]
              [] [] eq_refl) as (d & Hread & Hd).
  - repeat constructor; cbn [fst snd];
      eexists; split; vm_compute; reflexivity.
  - exists d. split; [exact Hread|].
    intros key. destruct (Hd key) as [Hf Hc].
    unfold last_value, entry_key in Hf, Hc. cbn [fst snd key_text] in Hf, Hc.
    change (snd (unescape (jlit "'a'") [])) with (lit "a") in Hf, Hc.
    destruct (str_eqb (lit "a") key); auto.
Defined.
